(** * Ring-map maker ([ch_pipeline.analysis.mapmaker.RingMapMaker.process])

    A shallow embedding of [RingMapMaker.process] and of the properties the
    specification states about it.

    Conventions of the embedding

    - Python exceptions are identified by the name of their class.
    - A binary64 value is a rational number.  Feed positions, on which the
      code only compares, divides and rounds, are kept in [Q], so that the
      baseline classifier runs by computation.  Visibilities, weights and
      everything computed from them live in [R] (complex numbers are pairs of
      reals), because the synthesiser needs square roots and trigonometric
      functions.  Arithmetic is exact there: rounding, overflow, NaN and
      infinities of binary64 are outside that model.  The weight normaliser,
      whose results the specification compares for exact equality, is
      modelled a second time on binary64 values ([float]).
    - A numpy array is a total function of its indices together with the
      shape the code gave it; only indices inside the shape are meaningful.
      The arrays [vdr], [wgh], [smp] have shape
      [(nfreq, npol, nra, ncyl, nvis_1d)].
    - The task runs in a single process: the local and the global frequency
      index of [sstream.vis[:].enumerate(0)] coincide. *)

From Stdlib Require Import Floats ZArith QArith Qround Qabs Qminmax Reals Lqa Lra Lia List String Bool.
Import ListNotations.

(* ------------------------------------------------------------------ *)
(** * Results and exceptions *)

Definition exn := string.

Inductive result (A : Type) : Type :=
| Ok (a : A)
| Raise (e : exn).

Arguments Ok {A} a.
Arguments Raise {A} e.

Definition bind {A B : Type} (r : result A) (k : A -> result B) : result B :=
  match r with
  | Ok a => k a
  | Raise e => Raise e
  end.

Notation "x <- r ;; k" := (bind r (fun x => k))
  (at level 61, r at next level, right associativity).

Fixpoint mapM {A B : Type} (f : A -> result B) (l : list A) : result (list B) :=
  match l with
  | [] => Ok []
  | a :: l' => b <- f a ;; bs <- mapM f l' ;; Ok (b :: bs)
  end.

(* ------------------------------------------------------------------ *)
(** * Inputs *)

(** A correlator input, as far as [process] reads it:
    [fi.pol], [fi.cyl] and [fi.pos[1]]. *)
Record feed : Type := mk_feed {
  pol : string;
  cyl : Z;
  pos_y : Q
}.

(** [self.tel]: the feeds and the redundancy of every baseline. *)
Record telescope : Type := mk_telescope {
  feeds : list feed;
  redundancy : list Z
}.

Definition C : Type := (R * R)%type.

(** [sstream]: [vis] and [weight] are indexed (frequency, baseline, ra). *)
Record sidereal_stream : Type := mk_sstream {
  nfreq : nat;
  nra : nat;
  prod : list (nat * nat);
  vis : nat -> nat -> nat -> C;
  weight : nat -> nat -> nat -> R;
  freq : nat -> R
}.

(** The configuration properties of the task. *)
Record config : Type := mk_config {
  npix : nat;
  span : R;
  weighting : string;
  intracyl : bool
}.

(* ------------------------------------------------------------------ *)
(** * Baseline classifier (lines 99-120) *)

(** [int(np.round(q))]: round to nearest, ties to even. *)
Definition np_round_int (q : Q) : Z :=
  let f := Qfloor q in
  match Qcompare (q - inject_Z f) (1 # 2) with
  | Lt => f
  | Gt => (f + 1)%Z
  | Eq => if Z.even f then f else (f + 1)%Z
  end.

(** [np.percentile(l, [0, 100])]: the least and the greatest element.
    On an empty list numpy raises (IndexError). *)
Definition percentile_0_100 (l : list Q) : result (Q * Q) :=
  match l with
  | [] => Raise "IndexError"%string
  | q :: l' => Ok (fold_left Qmin l' q, fold_left Qmax l' q)
  end.

(** [max(l)] of Python on a list of integers. *)
Definition py_max (l : list Z) : result Z :=
  match l with
  | [] => Raise "ValueError"%string
  | x :: l' => Ok (fold_left Z.max l' x)
  end.

Definition is_S (f : feed) : Z := if String.eqb (pol f) "S" then 1%Z else 0%Z.

(** One turn of the loop over [sstream.prod]: the entries appended to
    [pol], [xindex] and [ysep]. *)
Definition baseline_geometry (tel : telescope) (pr : nat * nat) : result (Z * Z * Q) :=
  match nth_error (feeds tel) (fst pr) with
  | None => Raise "IndexError"%string
  | Some fi =>
      match nth_error (feeds tel) (snd pr) with
      | None => Raise "IndexError"%string
      | Some fj =>
          Ok ((2 * is_S fi + is_S fj)%Z, Z.abs (cyl fi - cyl fj), (pos_y fi - pos_y fj)%Q)
      end
  end.

Definition nonzero_abs (ysep : list Q) : list Q :=
  filter (fun a => match Qcompare a 0 with Gt => true | _ => false end)
         (map Qabs ysep).

(** What the classifier hands to the later stages. *)
Record geometry : Type := mk_geometry {
  feed_index : list (Z * Z * Z);
  min_ysep : Q;
  nfeed : Z;
  nvis_1d : Z;
  ncyl : Z;
  nbeam : Z
}.

Definition classify (tel : telescope) (ds : sidereal_stream) : result geometry :=
  tri <- mapM (baseline_geometry tel) (prod ds) ;;
  let pols := map (fun t => fst (fst t)) tri in
  let xindex := map (fun t => snd (fst t)) tri in
  let ysep := map (fun t => snd t) tri in
  mm <- percentile_0_100 (nonzero_abs ysep) ;;
  let yindex := map (fun yy => np_round_int (yy / fst mm)) ysep in
  let nfeed := np_round_int (snd mm / fst mm) in
  mx <- py_max (map Z.abs xindex) ;;
  let ncyl := (mx + 1)%Z in
  Ok (mk_geometry (combine (combine pols xindex) yindex)
                  (fst mm) nfeed (2 * nfeed - 1) ncyl (2 * ncyl - 1)).

(* ------------------------------------------------------------------ *)
(** * Complex numbers and sums *)

Open Scope R_scope.

Definition Re (z : C) : R := fst z.
Definition Im (z : C) : R := snd z.
Definition Cconj (z : C) : C := (fst z, - snd z).
Definition Cplus (a b : C) : C := (fst a + fst b, snd a + snd b).
Definition Cmult (a b : C) : C :=
  (fst a * fst b - snd a * snd b, fst a * snd b + snd a * fst b).
(** A real array entry times a complex one. *)
Definition Cscal (r : R) (z : C) : C := (r * fst z, r * snd z).
Definition Cexp (z : C) : C := (exp (fst z) * cos (snd z), exp (fst z) * sin (snd z)).
Definition C0 : C := (0, 0).

(** Sum of [f 0 .. f (n-1)]: a reduction of numpy over an axis of length [n]. *)
Fixpoint sum_n (n : nat) (f : nat -> R) : R :=
  match n with
  | O => 0
  | S k => sum_n k f + f k
  end.

Fixpoint Csum_n (n : nat) (f : nat -> C) : C :=
  match n with
  | O => C0
  | S k => Cplus (Csum_n k f) (f k)
  end.

(* ------------------------------------------------------------------ *)
(** * The packed arrays (lines 126-129) *)

(** A (frequency, ra) slice such as [sstream.vis[:, vis_ind]]. *)
Definition plane (A : Type) : Type := nat -> nat -> A.

(** An array indexed (frequency, polarisation, ra, cylinder, row bin). *)
Definition grid (A : Type) : Type := nat -> nat -> nat -> nat -> nat -> A.

Record grids : Type := mk_grids {
  vdr : grid C;
  wgh : grid R;
  smp : grid R
}.

(** [np.zeros]. *)
Definition zeros : grids :=
  mk_grids (fun _ _ _ _ _ => C0) (fun _ _ _ _ _ => 0) (fun _ _ _ _ _ => 0).

Definition npol : Z := 4.

(** Position addressed by index [i] on an axis of length [n]: numpy counts a
    negative index from the end and refuses one outside [-n, n). *)
Definition norm_index (n i : Z) : option nat :=
  if ((0 <=? i) && (i <? n))%Z then Some (Z.to_nat i)
  else if ((- n <=? i) && (i <? 0))%Z then Some (Z.to_nat (i + n))
  else None.

(** The cell [[:, p, :, x, y]] of an array of the shape of [vdr]. *)
Definition cell (geo : geometry) (p x y : Z) : option (nat * nat * nat) :=
  match norm_index npol p, norm_index (ncyl geo) x, norm_index (nvis_1d geo) y with
  | Some p', Some x', Some y' => Some (p', x', y')
  | _, _, _ => None
  end.

(** [a[:, p, :, x, y] = src] on positions already resolved. *)
Definition assign {A : Type} (a : grid A) (c : nat * nat * nat) (src : plane A) : grid A :=
  fun f p t x y =>
    if (Nat.eqb p (fst (fst c)) && Nat.eqb x (snd (fst c)) && Nat.eqb y (snd c))%bool
    then src f t else a f p t x y.

(* ------------------------------------------------------------------ *)
(** * Statements that update the arrays and may raise *)

(** The outcome of a run of statements: the arrays as they stand, and the
    exception if one was raised. *)
Inductive run : Type :=
| Done (g : grids)
| Abort (e : exn) (g : grids).

Definition stmt : Type := grids -> run.

Definition seq_stmt (a b : stmt) : stmt :=
  fun g => match a g with
           | Done g' => b g'
           | Abort e g' => Abort e g'
           end.

Notation "a ;;; b" := (seq_stmt a b) (at level 62, right associativity).

Definition skip : stmt := fun g => Done g.

Definition set_vdr (geo : geometry) (p x y : Z) (src : plane C) : stmt :=
  fun g => match cell geo p x y with
           | Some c => Done (mk_grids (assign (vdr g) c src) (wgh g) (smp g))
           | None => Abort "IndexError"%string g
           end.

Definition set_wgh (geo : geometry) (p x y : Z) (src : plane R) : stmt :=
  fun g => match cell geo p x y with
           | Some c => Done (mk_grids (vdr g) (assign (wgh g) c src) (smp g))
           | None => Abort "IndexError"%string g
           end.

(** [smp[:, p, :, x, y] = w]; the name [w] is read first, and it may be
    unbound. *)
Definition set_smp (geo : geometry) (p x y : Z) (w : option (plane R)) : stmt :=
  fun g => match w with
           | None => Abort "UnboundLocalError"%string g
           | Some src =>
               match cell geo p x y with
               | Some c => Done (mk_grids (vdr g) (wgh g) (assign (smp g) c src))
               | None => Abort "IndexError"%string g
               end
           end.

(* ------------------------------------------------------------------ *)
(** * Grid packer (lines 131-169) *)

(** Lines 136-147.  [Ok None] is the last branch: the [KeyError] object is
    built and dropped, nothing is raised and [w] stays unbound. *)
Definition select_w (cfg : config) (tel : telescope) (ds : sidereal_stream)
    (vis_ind : nat) : result (option (plane R)) :=
  if String.eqb (weighting cfg) "uniform" then Ok (Some (fun _ _ => 1))
  else if String.eqb (weighting cfg) "natural" then
    match nth_error (redundancy tel) vis_ind with
    | Some r => Ok (Some (fun _ _ => IZR r))
    | None => Raise "IndexError"%string
    end
  else if String.eqb (weighting cfg) "inverse_variance" then
    Ok (Some (fun f t => weight ds f vis_ind t))
  else Ok None.

(** The body of the loop over [enumerate(feed_index)]. *)
Definition unpack (cfg : config) (tel : telescope) (ds : sidereal_stream)
    (geo : geometry) (vis_ind : nat) (ind : Z * Z * Z) : stmt :=
  fun g =>
    let p_ind := fst (fst ind) in
    let x_ind := snd (fst ind) in
    let y_ind := snd ind in
    let v : plane C := fun f t => vis ds f vis_ind t in
    let wt : plane R := fun f t => weight ds f vis_ind t in
    match select_w cfg tel ds vis_ind with
    | Raise e => Abort e g
    | Ok w =>
        if ((x_ind =? 0)%Z && intracyl cfg)%bool then
          (set_vdr geo p_ind x_ind y_ind v ;;;
           set_vdr geo p_ind x_ind (- y_ind) (fun f t => Cconj (v f t)) ;;;
           set_wgh geo p_ind x_ind y_ind wt ;;;
           set_wgh geo p_ind x_ind (- y_ind) wt ;;;
           set_smp geo p_ind x_ind y_ind w ;;;
           set_smp geo p_ind x_ind (- y_ind) w) g
        else
          (set_vdr geo p_ind x_ind y_ind v ;;;
           set_wgh geo p_ind x_ind y_ind wt ;;;
           set_smp geo p_ind x_ind y_ind w) g
    end.

Fixpoint unpack_from (cfg : config) (tel : telescope) (ds : sidereal_stream)
    (geo : geometry) (vis_ind : nat) (l : list (Z * Z * Z)) : stmt :=
  match l with
  | [] => skip
  | ind :: l' =>
      unpack cfg tel ds geo vis_ind ind ;;; unpack_from cfg tel ds geo (S vis_ind) l'
  end.

(** Lines 126-165: allocation and the whole loop. *)
Definition unpack_all (cfg : config) (tel : telescope) (ds : sidereal_stream)
    (geo : geometry) : run :=
  unpack_from cfg tel ds geo 0 (feed_index geo) zeros.

(** Lines 167-169: [smp[..., 0, 0] = 0.0] when [intracyl] is set. *)
Definition remove_auto (cfg : config) (g : grids) : grids :=
  if intracyl cfg then
    mk_grids (vdr g) (wgh g)
             (fun f p t x y => if (Nat.eqb x 0 && Nat.eqb y 0)%bool then 0 else smp g f p t x y)
  else g.

(* ------------------------------------------------------------------ *)
(** * Weight normaliser (lines 171-175) *)

(** Modelled from the spec: [ch_util.tools.invert_no_zero] is not part of
    this repository; an argument that is exactly zero gives zero, any other
    is inverted. *)
Definition invert_no_zero (x : R) : R :=
  if Req_dec_T x 0 then 0 else / x.

(** [coeff = np.full(ncyl, 2.0); coeff[0] -= self.intracyl]. *)
Definition coeff (cfg : config) (c : nat) : R :=
  match c with
  | O => 2 - (if intracyl cfg then 1 else 0)
  | S _ => 2
  end.

(** [np.sum(np.dot(coeff, a), axis=-1)]: the product with [coeff] contracts
    the cylinder axis, then the row bins are summed. *)
Definition sum_dot (cfg : config) (geo : geometry) (a : grid R) (f p t : nat) : R :=
  sum_n (Z.to_nat (nvis_1d geo))
        (fun b => sum_n (Z.to_nat (ncyl geo)) (fun c => coeff cfg c * a f p t c b)).

(** [smp *= invert_no_zero(...)[..., np.newaxis, np.newaxis]]. *)
Definition normalize (cfg : config) (geo : geometry) (g : grids) : grids :=
  mk_grids (vdr g) (wgh g)
           (fun f p t x y => smp g f p t x y * invert_no_zero (sum_dot cfg geo (smp g) f p t)).

(* ------------------------------------------------------------------ *)
(** * Weight normaliser in binary64 (lines 171-175) *)

(** [smp] is a [float64] array.  The definitions of this section are those
    of the section above with the operations of binary64 (round to nearest,
    ties to even) in place of the exact ones. *)

(** Modelled from the spec, as [invert_no_zero] above: an argument that
    compares equal to zero gives zero, any other is inverted. *)
Definition invert_no_zero_b64 (x : float) : float :=
  if (x =? 0)%float then 0%float else (1 / x)%float.

(** [coeff = np.full(ncyl, 2.0); coeff[0] -= self.intracyl]. *)
Definition coeff_b64 (cfg : config) (c : nat) : float :=
  match c with
  | O => (2 - (if intracyl cfg then 1 else 0))%float
  | S _ => 2%float
  end.

(** Sum of [f 0 .. f (n-1)], added in the order of the index.  (The sums of
    the examples below have at most two terms that are not zero, so that
    they do not depend on the order in which numpy adds.) *)
Fixpoint sum_b64 (n : nat) (f : nat -> float) : float :=
  match n with
  | O => 0%float
  | S k => (sum_b64 k f + f k)%float
  end.

(** [np.sum(np.dot(coeff, a), axis=-1)]. *)
Definition sum_dot_b64 (cfg : config) (geo : geometry) (a : grid float) (f p t : nat) : float :=
  sum_b64 (Z.to_nat (nvis_1d geo))
          (fun b => sum_b64 (Z.to_nat (ncyl geo))
                            (fun c => (coeff_b64 cfg c * a f p t c b)%float)).

(** [smp *= invert_no_zero(...)[..., np.newaxis, np.newaxis]]. *)
Definition normalize_b64 (cfg : config) (geo : geometry) (a : grid float) : grid float :=
  fun f p t x y => (a f p t x y * invert_no_zero_b64 (sum_dot_b64 cfg geo a f p t))%float.

(** The binary64 value of an integer. *)
Definition b64_of_Z (z : Z) : float := SF2Prim (binary_normalize prec emax z 0 false).

(** The [float64] array that holds the integers of [a]. *)
Definition b64_grid (a : grid Z) : grid float := fun f p t x y => b64_of_Z (a f p t x y).

(** A binary64 value that is neither an infinity nor a NaN. *)
Definition sf_fin (x : spec_float) : Prop :=
  match x with
  | S754_infinity _ | S754_nan => False
  | _ => True
  end.

(** A binary64 zero, of either sign. *)
Definition sf_zero (x : spec_float) : Prop :=
  match x with
  | S754_zero _ => True
  | _ => False
  end.

(* ------------------------------------------------------------------ *)
(** * Beam synthesiser (lines 177-211) *)

(** [np.linspace(-1.0, 1.0, n)[j]]. *)
Definition linspace_m1_1 (n j : nat) : R :=
  match n with
  | S O => -1
  | _ => -1 + INR j * (2 / INR (n - 1))
  end.

(** [el = self.span * np.linspace(-1.0, 1.0, self.npix)]. *)
Definition el (cfg : config) (j : nat) : R := span cfg * linspace_m1_1 (npix cfg) j.

(** [np.fft.fftfreq(n, d)[b]]: the first [(n-1)//2 + 1] entries count up
    from zero, the others count up to [-1]; all are scaled by [1/(n*d)]. *)
Definition fftfreq (n : nat) (d : R) (b : nat) : R :=
  (if Nat.ltb b ((n - 1) / 2 + 1) then INR b else INR b - INR n) * (1 / (INR n * d)).

(** [vis_pos_1d = np.fft.fftfreq(nvis_1d, d=(1.0 / (nvis_1d * min_ysep)))]. *)
Definition vis_pos_1d (geo : geometry) (b : nat) : R :=
  fftfreq (Z.to_nat (nvis_1d geo)) (1 / (IZR (nvis_1d geo) * Q2R (min_ysep geo))) b.

(** [scipy.constants.c]. *)
Definition speed_of_light : R := 299792458.

(** [wv = scipy.constants.c * 1e-6 / fr]. *)
Definition wavelength (fr : R) : R := speed_of_light * (1 / 1000000) / fr.

(** [pa = np.exp(2.0J * np.pi * vis_pos_1d[:, None] * el[None, :] / wv)]. *)
Definition pa (cfg : config) (geo : geometry) (wv : R) (b j : nat) : C :=
  Cexp (Cscal (PI * vis_pos_1d geo b * el cfg j / wv) (0, 2)).

(** [np.fft.irfft(a, n)[m]]: the inverse of the transform of a real
    sequence of length [n], from its [n//2 + 1] first coefficients.  The
    imaginary part of [a[0]], and of [a[n/2]] when [n] is even, is not
    read. *)
Definition irfft (a : nat -> C) (n m : nat) : R :=
  / INR n *
  (Re (a O)
   + sum_n ((n - 1) / 2)
       (fun k => 2 * Re (Cmult (a (S k))
                               (Cexp (0, 2 * PI * INR (S k) * INR m / INR n))))
   + (if Nat.even n then Re (a (n / 2)%nat) * cos (PI * INR m) else 0)).

(** [np.dot(a, pa)[c, j]] for one (frequency, polarisation, ra): the row
    bins are contracted. *)
Definition dot_pa (cfg : config) (geo : geometry) (wv : R) (a : nat -> nat -> C) (c j : nat) : C :=
  Csum_n (Z.to_nat (nvis_1d geo)) (fun b => Cmult (a c b) (pa cfg geo wv b j)).

(** The output container with its datasets; [rm_map] and [rm_dirty_beam] are
    indexed (frequency, polarisation, ra, beam, el), [rm_rms] is indexed
    (frequency, polarisation, ra). *)
Record ring_map : Type := mk_ring_map {
  rm_nbeam : Z;
  rm_el : nat -> R;
  rm_rms : nat -> nat -> nat -> R;
  rm_map : nat -> nat -> nat -> nat -> nat -> R;
  rm_dirty_beam : nat -> nat -> nat -> nat -> nat -> R
}.

(** Line 192. *)
Definition rms_of (cfg : config) (geo : geometry) (g : grids) (f p t : nat) : R :=
  sqrt (sum_dot cfg geo
          (fun f p t c b => invert_no_zero (wgh g f p t c b) * (smp g f p t c b) ^ 2)
          f p t).

(** Line 206. *)
Definition bfm_of (cfg : config) (ds : sidereal_stream) (geo : geometry) (g : grids)
    (f p t m j : nat) : R :=
  irfft (fun c => dot_pa cfg geo (wavelength (freq ds f))
                         (fun c b => Cscal (smp g f p t c b) (vdr g f p t c b)) c j)
        (Z.to_nat (nbeam geo)) m
  * IZR (nbeam geo).

(** Line 207. *)
Definition sb_of (cfg : config) (ds : sidereal_stream) (geo : geometry) (g : grids)
    (f p t m j : nat) : R :=
  irfft (fun c => dot_pa cfg geo (wavelength (freq ds f))
                         (fun c b => (smp g f p t c b, 0)) c j)
        (Z.to_nat (nbeam geo)) m
  * IZR (nbeam geo).

Definition synthesize (cfg : config) (ds : sidereal_stream) (geo : geometry) (g : grids)
    : ring_map :=
  mk_ring_map (nbeam geo) (el cfg) (rms_of cfg geo g)
              (bfm_of cfg ds geo g) (sb_of cfg ds geo g).

(* ------------------------------------------------------------------ *)
(** * [RingMapMaker.process] *)

(** The arrays after the loop, or the exception that ended it. *)
Definition packed (cfg : config) (tel : telescope) (ds : sidereal_stream)
    (geo : geometry) : result grids :=
  match unpack_all cfg tel ds geo with
  | Done g => Ok g
  | Abort e _ => Raise e
  end.

(** Stages 1 to 3 (lines 99-175): the geometry and the arrays after the
    coefficients are normalised. *)
Definition weighted (cfg : config) (tel : telescope) (ds : sidereal_stream)
    : result (geometry * grids) :=
  geo <- classify tel ds ;;
  g <- packed cfg tel ds geo ;;
  Ok (geo, normalize cfg geo (remove_auto cfg g)).

Definition process (cfg : config) (tel : telescope) (ds : sidereal_stream)
    : result ring_map :=
  gg <- weighted cfg tel ds ;;
  Ok (synthesize cfg ds (fst gg) (snd gg)).

(* ------------------------------------------------------------------ *)
(** * Readings of the specification, to be compared with the code *)

(** The (frequency, ra) slice stored at a cell. *)
Definition at_cell {A : Type} (a : grid A) (c : nat * nat * nat) : plane A :=
  fun f t => a f (fst (fst c)) t (snd (fst c)) (snd c).

(** The baseline [ind] assigns to the cell [c] in its turn of the loop. *)
Definition touches (cfg : config) (geo : geometry) (ind : Z * Z * Z) (c : nat * nat * nat) : Prop :=
  cell geo (fst (fst ind)) (snd (fst ind)) (snd ind) = Some c
  \/ (((snd (fst ind) =? 0)%Z && intracyl cfg)%bool = true
      /\ cell geo (fst (fst ind)) (snd (fst ind)) (- snd ind) = Some c).

(** The value the text of the specification gives a cell that "holds
    accumulated values": the sum of the contributions [contrib i] of all the
    baselines [i] whose index triple addresses the cell. *)
Fixpoint accumulated {A : Type} (add : A -> A -> A) (zero : A) (geo : geometry)
    (contrib : nat -> A) (vis_ind : nat) (l : list (Z * Z * Z)) (c : nat * nat * nat) : A :=
  match l with
  | [] => zero
  | ind :: l' =>
      add (match cell geo (fst (fst ind)) (snd (fst ind)) (snd ind) with
           | Some c' =>
               if (Nat.eqb (fst (fst c')) (fst (fst c)) && Nat.eqb (snd (fst c')) (snd (fst c))
                   && Nat.eqb (snd c') (snd c))%bool
               then contrib vis_ind else zero
           | None => zero
           end)
          (accumulated add zero geo contrib (S vis_ind) l' c)
  end.

(** The baseline [ind] takes the intra-cylinder branch and its second
    assignment, to the mirrored bin, lands on the cell [c]. *)
Definition mirrored_onto (cfg : config) (geo : geometry) (ind : Z * Z * Z)
    (c : nat * nat * nat) : bool :=
  ((snd (fst ind) =? 0)%Z && intracyl cfg
   && match cell geo (fst (fst ind)) (snd (fst ind)) (- snd ind) with
      | Some c' =>
          Nat.eqb (fst (fst c')) (fst (fst c)) && Nat.eqb (snd (fst c')) (snd (fst c))
          && Nat.eqb (snd c') (snd c)
      | None => false
      end)%bool.

(** The coefficient mass of a pixel in the order the specification writes
    it: for each cylinder separation the row bins are summed, and the sums
    are weighted by the cylinder vector. *)
Definition coeff_mass (cfg : config) (geo : geometry) (a : grid R) (f p t : nat) : R :=
  sum_n (Z.to_nat (ncyl geo))
        (fun c => coeff cfg c * sum_n (Z.to_nat (nvis_1d geo)) (fun b => a f p t c b)).







(** The coefficient mass of a pixel, in the order of the specification, on
    binary64 values. *)
Definition coeff_mass_b64 (cfg : config) (geo : geometry) (a : grid float) (f p t : nat) : float :=
  sum_b64 (Z.to_nat (ncyl geo))
          (fun c => (coeff_b64 cfg c
                     * sum_b64 (Z.to_nat (nvis_1d geo)) (fun b => a f p t c b))%float).





(** The factor [val = 1.0 / (n * d)] by which [np.fft.fftfreq] scales its
    integers, for the arguments of line 180.  In exact arithmetic it is
    [min_ysep]. *)
Definition vis_pos_scale (geo : geometry) : R :=
  1 / (IZR (nvis_1d geo) * (1 / (IZR (nvis_1d geo) * Q2R (min_ysep geo)))).

(* ------------------------------------------------------------------ *)
(** * Relations between two runs *)

(** The relations compare two runs on the frequencies in [F]; the
    coefficients of the second run are [k] times those of the first. *)
Definition w_rel (F : nat -> Prop) (k : R) (w w' : option (plane R)) : Prop :=
  match w, w' with
  | None, None => True
  | Some a, Some a' => forall f t, F f -> a' f t = k * a f t
  | _, _ => False
  end.

Definition sel_rel (F : nat -> Prop) (k : R) (r r' : result (option (plane R))) : Prop :=
  match r, r' with
  | Ok w, Ok w' => w_rel F k w w'
  | Raise e, Raise e' => e = e'
  | _, _ => False
  end.

Definition grids_rel (F : nat -> Prop) (k : R) (g g' : grids) : Prop :=
  forall f p t x y, F f ->
    vdr g' f p t x y = vdr g f p t x y
    /\ wgh g' f p t x y = wgh g f p t x y
    /\ smp g' f p t x y = k * smp g f p t x y.

Definition run_rel (F : nat -> Prop) (k : R) (r r' : run) : Prop :=
  match r, r' with
  | Done g, Done g' => grids_rel F k g g'
  | Abort e _, Abort e' _ => e = e'
  | _, _ => False
  end.

Definition stmt_rel (F : nat -> Prop) (k : R) (a a' : stmt) : Prop :=
  forall g g', grids_rel F k g g' -> run_rel F k (a g) (a' g').

(** The two runs end alike: with the same exception, or with the same
    geometry, the same normalised coefficients and the same map and dirty
    beam. *)
Definition same_outcome (cfg cfg' : config) (tel : telescope) (ds : sidereal_stream) : Prop :=
  match weighted cfg tel ds, weighted cfg' tel ds with
  | Ok gg, Ok gg' =>
      fst gg' = fst gg
      /\ (forall f p t x y, smp (snd gg') f p t x y = smp (snd gg) f p t x y)
      /\ exists rm rm',
           process cfg tel ds = Ok rm /\ process cfg' tel ds = Ok rm'
           /\ forall f p t m j,
                rm_map rm' f p t m j = rm_map rm f p t m j
                /\ rm_dirty_beam rm' f p t m j = rm_dirty_beam rm f p t m j
  | Raise e, Raise e' =>
      e = e' /\ process cfg tel ds = Raise e /\ process cfg' tel ds = Raise e
  | _, _ => False
  end.

(* ------------------------------------------------------------------ *)
(** * Example inputs *)

Definition feed_E (c : Z) (y : Q) : feed := mk_feed "E" c y.
Definition feed_S (c : Z) (y : Q) : feed := mk_feed "S" c y.

(** Two cylinders with three rows each; three baselines between the
    cylinders, the first two with the same row separation. *)
Definition tel_a : telescope :=
  mk_telescope [feed_E 0 0; feed_E 0 1; feed_E 0 2; feed_E 1 0; feed_E 1 1; feed_E 1 2]
               [1%Z; 1%Z; 1%Z].

Definition vis_a (f i t : nat) : C :=
  match i with
  | O => (1, 0)
  | S O => (2, 0)
  | _ => (5, 0)
  end.

Definition ds_a : sidereal_stream :=
  mk_sstream 1 1 [(1, 3); (2, 4); (2, 3)]%nat vis_a (fun _ _ _ => 3) (fun _ => 600).

Definition geo_a : geometry :=
  mk_geometry [(0, 1, 1); (0, 1, 1); (0, 1, 2)]%Z 1%Q 2 3 2 3.

Definition cfg_a (w : string) : config := mk_config 4 1 w true.

(** One cylinder with three rows and a dual-polarisation feed at row 0;
    the first baseline joins the two polarisations of that feed. *)
Definition tel_b : telescope :=
  mk_telescope [feed_E 0 0; feed_S 0 0; feed_E 0 1; feed_E 0 2] [1%Z; 1%Z; 1%Z].

Definition vis_b (f i t : nat) : C :=
  match i with
  | O => (0, 1)
  | S O => (2, 3)
  | _ => (5, 7)
  end.

Definition ds_b : sidereal_stream :=
  mk_sstream 1 1 [(0, 1); (2, 0); (3, 0)]%nat vis_b (fun _ _ _ => 3) (fun _ => 600).

Definition geo_b : geometry :=
  mk_geometry [(1, 0, 0); (0, 0, 1); (0, 0, 2)]%Z 1%Q 2 3 1 1.

Definition cfg_b (ic : bool) : config := mk_config 4 1 "uniform" ic.

(** Two feeds in the same row of two cylinders. *)
Definition tel_c : telescope := mk_telescope [feed_E 0 0; feed_E 1 0] [1%Z].

Definition ds_c : sidereal_stream :=
  mk_sstream 1 1 [(0, 1)]%nat (fun _ _ _ => (1, 0)) (fun _ _ _ => 1) (fun _ => 600).

(** The telescope of the first example with the redundancies 1, 1 and 5. *)
Definition tel_r : telescope := mk_telescope (feeds tel_a) [1%Z; 1%Z; 5%Z].

(** The coefficients that the packer leaves for [tel_r] and [ds_a] with the
    weighting 'natural': 1 at (cylinder 1, row position 1) and 5 at
    (cylinder 1, row position 2) of polarisation 0. *)
Definition smp_r : grid Z :=
  fun _ p _ c b =>
    match p, c, b with
    | O, S O, S O => 1%Z
    | O, S O, S (S O) => 5%Z
    | _, _, _ => 0%Z
    end.

(** The input of the first example with every weight sample equal to 49. *)
Definition ds_49 : sidereal_stream :=
  mk_sstream 1 1 [(1, 3); (2, 4); (2, 3)]%nat vis_a (fun _ _ _ => 49) (fun _ => 600).

(** The coefficients that the packer leaves for [tel_a] and [ds_49] with
    the weighting 'uniform'; with 'inverse_variance' it leaves 49 times
    these. *)
Definition smp_u : grid Z :=
  fun _ p _ c b =>
    match p, c, b with
    | O, S O, S O => 1%Z
    | O, S O, S (S O) => 1%Z
    | _, _, _ => 0%Z
    end.

Definition smp_iv : grid Z := fun f p t c b => (49 * smp_u f p t c b)%Z.

(** The telescope of the first example with two redundancies for its three
    baselines. *)
Definition tel_short : telescope := mk_telescope (feeds tel_a) [1%Z; 1%Z].

(* ------------------------------------------------------------------ *)
(** * Further readings and inputs *)

(** The weighting is one of the three names [process] knows. *)
Definition recognised (cfg : config) : Prop :=
  weighting cfg = "uniform"%string \/ weighting cfg = "natural"%string
  \/ weighting cfg = "inverse_variance"%string.

(** The weighting is recognised and, for 'natural', the telescope has a
    redundancy for every product. *)
Definition weighting_ready (cfg : config) (tel : telescope) (ds : sidereal_stream) : Prop :=
  weighting cfg = "uniform"%string \/ weighting cfg = "inverse_variance"%string
  \/ (weighting cfg = "natural"%string
      /\ (List.length (prod ds) <= List.length (redundancy tel))%nat).

(** The row bin opposite to the position [b] on an axis of length [n]. *)
Definition mirror_bin (n b : nat) : nat := ((n - b) mod n)%nat.

(** Two cylinders with two rows each and all six products of the four
    feeds. *)
Definition tel_d : telescope :=
  mk_telescope [feed_E 0 0; feed_E 0 1; feed_E 1 0; feed_E 1 1]
               [1%Z; 1%Z; 1%Z; 1%Z; 1%Z; 1%Z].

Definition ds_d : sidereal_stream :=
  mk_sstream 1 1 [(0, 1); (0, 2); (0, 3); (1, 2); (1, 3); (2, 3)]%nat
             (fun _ _ _ => (1, 0)) (fun _ _ _ => 1) (fun _ => 600).

Definition geo_d : geometry :=
  mk_geometry [(0, 0, -1); (0, 1, 0); (0, 1, -1); (0, 1, 1); (0, 1, 0); (0, 0, -1)]%Z
              1%Q 1 1 2 3.

(** The plane of cylinder separation 0 is conjugate-symmetric in the row
    bin: mirrored bins hold equal weights and coefficients and, away from
    bin 0, conjugate visibilities. *)
Definition hermitian (n : nat) (g : grids) : Prop :=
  forall f p t b, (b < n)%nat ->
    wgh g f p t 0%nat (mirror_bin n b) = wgh g f p t 0%nat b
    /\ smp g f p t 0%nat (mirror_bin n b) = smp g f p t 0%nat b
    /\ (b <> 0%nat -> vdr g f p t 0%nat (mirror_bin n b) = Cconj (vdr g f p t 0%nat b)).

(* ------------------------------------------------------------------ *)
(** * The telescope model ([ch_pipeline.core.pathfinder.CHIMEPathfinder]) *)

(** [l[i]] of Python on a list: a negative index counts from the end. *)
Definition py_getitem {A : Type} (l : list A) (i : Z) : result A :=
  match norm_index (Z.of_nat (List.length l)) i with
  | Some a =>
      match nth_error l a with
      | Some x => Ok x
      | None => Raise "IndexError"%string
      end
  | None => Raise "IndexError"%string
  end.

(** The property [feeds] (lines 199-209): all the feeds, or those that
    [input_sel] lists. *)
Definition pathfinder_feeds {A : Type} (_feeds : list A) (input_sel : option (list Z))
    : result (list A) :=
  match input_sel with
  | None => Ok _feeds
  | Some sel => mapM (py_getitem _feeds) sel
  end.

(** [np.linspace(800.0, 400.0, 1024, endpoint=False)[i]]. *)
Definition basefreq (i : nat) : R := INR i * ((400 - 800) / 1024) + 800.

(** A bound of the slice [a[start:end]] of an array of length [n]. *)
Definition slice_bound (n s : Z) : Z :=
  if (s <? 0)%Z then Z.max (s + n) 0 else Z.min s n.

(** [calculate_frequencies] with [freq_use_channels] set (lines 186-194):
    the channels [channel_start:channel_end] of the Pathfinder band, averaged
    in groups of [channel_bin].  The remainder by a zero [channel_bin] is a
    ZeroDivisionError; [reshape] refuses a negative [channel_bin], and one
    whose row of 8-byte values does not fit the signed 64-bit size of an
    array (only an empty selection gets that far with such a
    [channel_bin]). *)
Definition channel_frequencies (channel_start channel_end channel_bin : Z) : result (list R) :=
  let lo := slice_bound 1024 channel_start in
  let hi := slice_bound 1024 channel_end in
  let len := Z.max 0 (hi - lo) in
  if (channel_bin =? 0)%Z then Raise "ZeroDivisionError"%string
  else if negb (len mod channel_bin =? 0)%Z then Raise "ValueError"%string
  else if (channel_bin <? 0)%Z then Raise "ValueError"%string
  else if (2 ^ 63 <=? 8 * channel_bin)%Z then Raise "ValueError"%string
  else Ok (map (fun k =>
                  sum_n (Z.to_nat channel_bin)
                        (fun i => basefreq (Z.to_nat lo + k * Z.to_nat channel_bin + i))
                  / IZR channel_bin)
               (seq 0 (Z.to_nat (len / channel_bin)))).

(* ------------------------------------------------------------------ *)
(** * Runs that differ in the visibilities only *)

(** Two states of the arrays with the same weights and coefficients. *)
Definition weights_rel (g g' : grids) : Prop :=
  forall f p t x y,
    wgh g' f p t x y = wgh g f p t x y /\ smp g' f p t x y = smp g f p t x y.

Definition run_weights_rel (r r' : run) : Prop :=
  match r, r' with
  | Done g, Done g' => weights_rel g g'
  | Abort e _, Abort e' _ => e = e'
  | _, _ => False
  end.

Definition stmt_weights_rel (a a' : stmt) : Prop :=
  forall g g', weights_rel g g' -> run_weights_rel (a g) (a' g').

(** The input of the first example with other visibilities. *)
Definition ds_a_alt : sidereal_stream :=
  mk_sstream 1 1 [(1, 3); (2, 4); (2, 3)]%nat (fun _ _ _ => (0, 1)) (fun _ _ _ => 3)
             (fun _ => 600).

(** Two states of the arrays that agree except for the visibility at
    (cylinder separation 0, row bin 0). *)
Definition off_auto_rel (g g' : grids) : Prop :=
  forall f p t x y,
    wgh g' f p t x y = wgh g f p t x y
    /\ smp g' f p t x y = smp g f p t x y
    /\ ((x <> 0%nat \/ y <> 0%nat) -> vdr g' f p t x y = vdr g f p t x y).

Definition run_off_auto_rel (r r' : run) : Prop :=
  match r, r' with
  | Done g, Done g' => off_auto_rel g g'
  | Abort e _, Abort e' _ => e = e'
  | _, _ => False
  end.

Definition stmt_off_auto_rel (a a' : stmt) : Prop :=
  forall g g', off_auto_rel g g' -> run_off_auto_rel (a g) (a' g').

(** The input of the second example with another visibility for the
    baseline that joins the two polarisations of one feed. *)
Definition ds_b_alt : sidereal_stream :=
  mk_sstream 1 1 [(0, 1); (2, 0); (3, 0)]%nat
             (fun f i t => match i with O => (4, 4) | _ => vis_b f i t end)
             (fun _ _ _ => 3) (fun _ => 600).
(* ------------------------------------------------------------------ *)
(** * Sums *)

Lemma sum_n_ext (n : nat) (f g : nat -> R) :
  (forall k, (k < n)%nat -> f k = g k) -> sum_n n f = sum_n n g.
Proof.
  induction n as [|n IH]; intros H; simpl.
  - reflexivity.
  - rewrite IH by (intros k Hk; apply H; lia).
    rewrite (H n) by lia. reflexivity.
Qed.

Lemma sum_n_plus (n : nat) (f g : nat -> R) :
  sum_n n (fun k => f k + g k) = sum_n n f + sum_n n g.
Proof.
  induction n as [|n IH]; simpl.
  - ring.
  - rewrite IH. ring.
Qed.

Lemma sum_n_scal_l (n : nat) (a : R) (f : nat -> R) :
  sum_n n (fun k => a * f k) = a * sum_n n f.
Proof.
  induction n as [|n IH]; simpl.
  - ring.
  - rewrite IH. ring.
Qed.

Lemma sum_n_scal_r (n : nat) (a : R) (f : nat -> R) :
  sum_n n (fun k => f k * a) = sum_n n f * a.
Proof.
  induction n as [|n IH]; simpl.
  - ring.
  - rewrite IH. ring.
Qed.

Lemma sum_n_zero (n : nat) (f : nat -> R) :
  (forall k, (k < n)%nat -> f k = 0) -> sum_n n f = 0.
Proof.
  induction n as [|n IH]; intros H; simpl.
  - reflexivity.
  - rewrite IH by (intros k Hk; apply H; lia).
    rewrite (H n) by lia. ring.
Qed.

(** The two orders of summation over a rectangle agree. *)
Lemma sum_n_swap (n m : nat) (f : nat -> nat -> R) :
  sum_n n (fun i => sum_n m (fun j => f i j)) = sum_n m (fun j => sum_n n (fun i => f i j)).
Proof.
  induction n as [|n IH]; simpl.
  - symmetry. apply sum_n_zero. reflexivity.
  - rewrite IH, <- sum_n_plus. reflexivity.
Qed.

(** The code contracts the cylinder axis first; the result is the
    coefficient mass of the specification. *)
Lemma sum_dot_coeff_mass (cfg : config) (geo : geometry) (a : grid R) (f p t : nat) :
  sum_dot cfg geo a f p t = coeff_mass cfg geo a f p t.
Proof.
  unfold sum_dot, coeff_mass.
  rewrite sum_n_swap.
  apply sum_n_ext. intros c _.
  apply sum_n_scal_l.
Qed.

Lemma invert_no_zero_0 : invert_no_zero 0 = 0.
Proof.
  unfold invert_no_zero. destruct (Req_dec_T 0 0) as [_|H]; [reflexivity | contradiction H; reflexivity].
Qed.


Lemma mult_invert_no_zero (x : R) :
  x * invert_no_zero x = if Req_dec_T x 0 then 0 else 1.
Proof.
  unfold invert_no_zero. destruct (Req_dec_T x 0) as [E|N].
  - ring.
  - field. exact N.
Qed.

(* ------------------------------------------------------------------ *)
(** * Assignments to cells *)

Lemma assign_hit {A : Type} (a : grid A) (c : nat * nat * nat) (src : plane A) (f t : nat) :
  at_cell (assign a c src) c f t = src f t.
Proof.
  unfold at_cell, assign. rewrite !Nat.eqb_refl. reflexivity.
Qed.

Lemma assign_miss {A : Type} (a : grid A) (c c' : nat * nat * nat) (src : plane A) (f t : nat) :
  c' <> c -> at_cell (assign a c src) c' f t = at_cell a c' f t.
Proof.
  destruct c as [[p x] y], c' as [[p' x'] y']. intros N.
  unfold at_cell, assign. simpl.
  destruct (Nat.eqb_spec p' p); simpl; [|reflexivity].
  destruct (Nat.eqb_spec x' x); simpl; [|reflexivity].
  destruct (Nat.eqb_spec y' y); simpl; [|reflexivity].
  subst. contradiction N. reflexivity.
Qed.

(** Reads a cell after one or two assignments; [N] tells the cells apart. *)
Ltac read_cell N :=
  repeat first [ rewrite assign_hit | rewrite assign_miss by exact N ];
  try reflexivity.

Lemma cell_eq_dec (c c' : nat * nat * nat) : {c = c'} + {c <> c'}.
Proof. repeat decide equality. Defined.

Lemma seq_stmt_done (a b : stmt) (g g' : grids) :
  (a ;;; b) g = Done g' -> exists g1, a g = Done g1 /\ b g1 = Done g'.
Proof.
  unfold seq_stmt. destruct (a g) as [g1|e g1]; intros H.
  - exists g1. split; [reflexivity | exact H].
  - discriminate H.
Qed.

Lemma set_vdr_done (geo : geometry) (p x y : Z) (src : plane C) (g g' : grids) :
  set_vdr geo p x y src g = Done g' ->
  exists c, cell geo p x y = Some c /\ g' = mk_grids (assign (vdr g) c src) (wgh g) (smp g).
Proof.
  unfold set_vdr. destruct (cell geo p x y) as [c|]; intros H; [|discriminate H].
  exists c. split; [reflexivity | congruence].
Qed.

Lemma set_wgh_done (geo : geometry) (p x y : Z) (src : plane R) (g g' : grids) :
  set_wgh geo p x y src g = Done g' ->
  exists c, cell geo p x y = Some c /\ g' = mk_grids (vdr g) (assign (wgh g) c src) (smp g).
Proof.
  unfold set_wgh. destruct (cell geo p x y) as [c|]; intros H; [|discriminate H].
  exists c. split; [reflexivity | congruence].
Qed.

Lemma set_smp_done (geo : geometry) (p x y : Z) (w : option (plane R)) (g g' : grids) :
  set_smp geo p x y w g = Done g' ->
  exists c src, w = Some src /\ cell geo p x y = Some c
                /\ g' = mk_grids (vdr g) (wgh g) (assign (smp g) c src).
Proof.
  unfold set_smp. destruct w as [src|]; [|discriminate].
  destruct (cell geo p x y) as [c|]; intros H; [|discriminate H].
  exists c, src. repeat split; congruence.
Qed.

(** A turn of the loop that takes the intra-cylinder branch and ends
    normally has written two cells of each array. *)
Lemma unpack_done_sym (cfg : config) (tel : telescope) (ds : sidereal_stream)
    (geo : geometry) (i : nat) (ind : Z * Z * Z) (g g' : grids) :
  unpack cfg tel ds geo i ind g = Done g' ->
  ((snd (fst ind) =? 0)%Z && intracyl cfg)%bool = true ->
  exists c c' w,
    cell geo (fst (fst ind)) (snd (fst ind)) (snd ind) = Some c
    /\ cell geo (fst (fst ind)) (snd (fst ind)) (- snd ind) = Some c'
    /\ select_w cfg tel ds i = Ok (Some w)
    /\ g' = mk_grids
              (assign (assign (vdr g) c (fun f t => vis ds f i t)) c'
                      (fun f t => Cconj (vis ds f i t)))
              (assign (assign (wgh g) c (fun f t => weight ds f i t)) c'
                      (fun f t => weight ds f i t))
              (assign (assign (smp g) c w) c' w).
Proof.
  unfold unpack. intros H Hb.
  destruct (select_w cfg tel ds i) as [w|e]; [|discriminate H].
  rewrite Hb in H.
  apply seq_stmt_done in H. destruct H as (g1 & H1 & H).
  apply seq_stmt_done in H. destruct H as (g2 & H2 & H).
  apply seq_stmt_done in H. destruct H as (g3 & H3 & H).
  apply seq_stmt_done in H. destruct H as (g4 & H4 & H).
  apply seq_stmt_done in H. destruct H as (g5 & H5 & H6).
  apply set_vdr_done in H1. destruct H1 as (c & Hc & ->).
  apply set_vdr_done in H2. destruct H2 as (c' & Hc' & ->).
  apply set_wgh_done in H3. destruct H3 as (c3 & Hc3 & ->).
  apply set_wgh_done in H4. destruct H4 as (c4 & Hc4 & ->).
  apply set_smp_done in H5. destruct H5 as (c5 & src & -> & Hc5 & ->).
  apply set_smp_done in H6. destruct H6 as (c6 & src' & Hs & Hc6 & ->).
  assert (c3 = c) by congruence. assert (c5 = c) by congruence.
  assert (c4 = c') by congruence. assert (c6 = c') by congruence.
  assert (src' = src) by congruence. subst.
  exists c, c', src. simpl. repeat split; assumption.
Qed.

(** A turn of the loop that takes the other branch and ends normally has
    written one cell of each array. *)
Lemma unpack_done_plain (cfg : config) (tel : telescope) (ds : sidereal_stream)
    (geo : geometry) (i : nat) (ind : Z * Z * Z) (g g' : grids) :
  unpack cfg tel ds geo i ind g = Done g' ->
  ((snd (fst ind) =? 0)%Z && intracyl cfg)%bool = false ->
  exists c w,
    cell geo (fst (fst ind)) (snd (fst ind)) (snd ind) = Some c
    /\ select_w cfg tel ds i = Ok (Some w)
    /\ g' = mk_grids (assign (vdr g) c (fun f t => vis ds f i t))
                     (assign (wgh g) c (fun f t => weight ds f i t))
                     (assign (smp g) c w).
Proof.
  unfold unpack. intros H Hb.
  destruct (select_w cfg tel ds i) as [w|e]; [|discriminate H].
  rewrite Hb in H.
  apply seq_stmt_done in H. destruct H as (g1 & H1 & H).
  apply seq_stmt_done in H. destruct H as (g2 & H2 & H3).
  apply set_vdr_done in H1. destruct H1 as (c & Hc & ->).
  apply set_wgh_done in H2. destruct H2 as (c2 & Hc2 & ->).
  apply set_smp_done in H3. destruct H3 as (c3 & src & -> & Hc3 & ->).
  assert (c2 = c) by congruence. assert (c3 = c) by congruence. subst.
  exists c, src. simpl. repeat split; assumption.
Qed.

(** A cell that a baseline does not assign keeps its three values. *)
Lemma unpack_frame (cfg : config) (tel : telescope) (ds : sidereal_stream)
    (geo : geometry) (i : nat) (ind : Z * Z * Z) (g g' : grids) (c0 : nat * nat * nat) :
  unpack cfg tel ds geo i ind g = Done g' ->
  ~ touches cfg geo ind c0 ->
  forall f t,
    at_cell (vdr g') c0 f t = at_cell (vdr g) c0 f t
    /\ at_cell (wgh g') c0 f t = at_cell (wgh g) c0 f t
    /\ at_cell (smp g') c0 f t = at_cell (smp g) c0 f t.
Proof.
  intros H N f t.
  destruct (((snd (fst ind) =? 0)%Z && intracyl cfg)%bool) eqn:Hb.
  - destruct (unpack_done_sym _ _ _ _ _ _ _ _ H Hb) as (c & c' & w & Hc & Hc' & _ & ->).
    assert (c0 <> c) by (intros ->; apply N; left; exact Hc).
    assert (c0 <> c') by (intros ->; apply N; right; split; assumption).
    simpl. rewrite !assign_miss by assumption. repeat split.
  - destruct (unpack_done_plain _ _ _ _ _ _ _ _ H Hb) as (c & w & Hc & _ & ->).
    assert (c0 <> c) by (intros ->; apply N; left; exact Hc).
    simpl. rewrite !assign_miss by assumption. repeat split.
Qed.

Lemma unpack_from_frame (cfg : config) (tel : telescope) (ds : sidereal_stream)
    (geo : geometry) (l : list (Z * Z * Z)) (c0 : nat * nat * nat) :
  Forall (fun ind => ~ touches cfg geo ind c0) l ->
  forall (i : nat) (g g' : grids),
    unpack_from cfg tel ds geo i l g = Done g' ->
    forall f t,
      at_cell (vdr g') c0 f t = at_cell (vdr g) c0 f t
      /\ at_cell (wgh g') c0 f t = at_cell (wgh g) c0 f t
      /\ at_cell (smp g') c0 f t = at_cell (smp g) c0 f t.
Proof.
  induction 1 as [|ind l Hind _ IH]; intros i g g' H f t; simpl in H.
  - injection H as <-. repeat split.
  - apply seq_stmt_done in H. destruct H as (g1 & H1 & H2).
    destruct (IH _ _ _ H2 f t) as (E1 & E2 & E3).
    destruct (unpack_frame _ _ _ _ _ _ _ _ c0 H1 Hind f t) as (F1 & F2 & F3).
    rewrite E1, E2, E3, F1, F2, F3. repeat split.
Qed.

Lemma unpack_from_app (cfg : config) (tel : telescope) (ds : sidereal_stream)
    (geo : geometry) (l1 l2 : list (Z * Z * Z)) :
  forall (i : nat) (g g' : grids),
    unpack_from cfg tel ds geo i (l1 ++ l2) g = Done g' ->
    exists g1, unpack_from cfg tel ds geo i l1 g = Done g1
               /\ unpack_from cfg tel ds geo (i + List.length l1) l2 g1 = Done g'.
Proof.
  induction l1 as [|ind l1 IH]; intros i g g' H; simpl in *.
  - exists g. rewrite Nat.add_0_r. split; [reflexivity | exact H].
  - apply seq_stmt_done in H. destruct H as (g1 & H1 & H2).
    destruct (IH _ _ _ H2) as (g2 & H3 & H4).
    exists g2. split.
    + unfold seq_stmt. rewrite H1. exact H3.
    + replace (i + S (List.length l1))%nat with (S i + List.length l1)%nat by lia. exact H4.
Qed.

(** The turn of the loop of a given baseline, between the turns before it
    and the turns after it. *)
Lemma unpack_all_turn (cfg : config) (tel : telescope) (ds : sidereal_stream)
    (geo : geometry) (l1 l2 : list (Z * Z * Z)) (ind : Z * Z * Z) (g : grids) :
  feed_index geo = l1 ++ ind :: l2 ->
  unpack_all cfg tel ds geo = Done g ->
  exists g1 g2,
    unpack_from cfg tel ds geo 0 l1 zeros = Done g1
    /\ unpack cfg tel ds geo (List.length l1) ind g1 = Done g2
    /\ unpack_from cfg tel ds geo (S (List.length l1)) l2 g2 = Done g.
Proof.
  unfold unpack_all. intros -> H.
  apply unpack_from_app in H. destruct H as (g1 & H1 & H2).
  simpl in H2. apply seq_stmt_done in H2. destruct H2 as (g2 & H2 & H3).
  exists g1, g2. repeat split; assumption.
Qed.

Lemma cell_eqb_true (c' c : nat * nat * nat) :
  (Nat.eqb (fst (fst c')) (fst (fst c)) && Nat.eqb (snd (fst c')) (snd (fst c))
   && Nat.eqb (snd c') (snd c))%bool = true <-> c' = c.
Proof.
  destruct c as [[p x] y], c' as [[p' x'] y']. simpl.
  rewrite !andb_true_iff, !Nat.eqb_eq. split.
  - intros [[-> ->] ->]. reflexivity.
  - intros E. injection E as -> -> ->. repeat split.
Qed.

(** What the cell addressed by a baseline holds after the turn of that
    baseline. *)
Lemma unpack_own_cell (cfg : config) (tel : telescope) (ds : sidereal_stream)
    (geo : geometry) (i : nat) (ind : Z * Z * Z) (g g' : grids) (c : nat * nat * nat) :
  unpack cfg tel ds geo i ind g = Done g' ->
  cell geo (fst (fst ind)) (snd (fst ind)) (snd ind) = Some c ->
  exists w, select_w cfg tel ds i = Ok (Some w)
    /\ forall f t,
         at_cell (vdr g') c f t
         = (if mirrored_onto cfg geo ind c then Cconj (vis ds f i t) else vis ds f i t)
         /\ at_cell (wgh g') c f t = weight ds f i t
         /\ at_cell (smp g') c f t = w f t.
Proof.
  intros H Hc. unfold mirrored_onto.
  destruct (((snd (fst ind) =? 0)%Z && intracyl cfg)%bool) eqn:Hb.
  - destruct (unpack_done_sym _ _ _ _ _ _ _ _ H Hb) as (c1 & c' & w & Hc1 & Hc' & Hw & ->).
    assert (c1 = c) by congruence. subst c1.
    exists w. split; [exact Hw|]. intros f t. rewrite Hc'. simpl.
    destruct (cell_eq_dec c c') as [<-|N].
    + rewrite !assign_hit.
      replace (Nat.eqb (fst (fst c)) (fst (fst c)) && Nat.eqb (snd (fst c)) (snd (fst c))
               && Nat.eqb (snd c) (snd c))%bool with true
        by (symmetry; apply cell_eqb_true; reflexivity).
      repeat split.
    + destruct (Nat.eqb (fst (fst c')) (fst (fst c)) && Nat.eqb (snd (fst c')) (snd (fst c))
                && Nat.eqb (snd c') (snd c))%bool eqn:E.
      * apply cell_eqb_true in E. congruence.
      * repeat split; read_cell N.
  - destruct (unpack_done_plain _ _ _ _ _ _ _ _ H Hb) as (c1 & w & Hc1 & Hw & ->).
    assert (c1 = c) by congruence. subst c1.
    exists w. split; [exact Hw|]. intros f t. simpl.
    rewrite !assign_hit. repeat split.
Qed.

(** What a cell that a baseline assigns, as its own cell or by its
    conjugate fill, holds after the turn of that baseline. *)
Lemma unpack_touched_cell (cfg : config) (tel : telescope) (ds : sidereal_stream)
    (geo : geometry) (i : nat) (ind : Z * Z * Z) (g g' : grids) (c : nat * nat * nat) :
  unpack cfg tel ds geo i ind g = Done g' ->
  touches cfg geo ind c ->
  exists w, select_w cfg tel ds i = Ok (Some w)
    /\ forall f t,
         at_cell (vdr g') c f t
         = (if mirrored_onto cfg geo ind c then Cconj (vis ds f i t) else vis ds f i t)
         /\ at_cell (wgh g') c f t = weight ds f i t
         /\ at_cell (smp g') c f t = w f t.
Proof.
  intros H [Hc|[Hb Hc']].
  - exact (unpack_own_cell cfg tel ds geo i ind g g' c H Hc).
  - destruct (unpack_done_sym _ _ _ _ _ _ _ _ H Hb) as (c1 & c2 & w & Hc1 & Hc2 & Hw & ->).
    assert (c2 = c) by congruence. subst c2.
    exists w. split; [exact Hw|]. intros f t.
    unfold mirrored_onto. rewrite Hb, Hc'. cbn [andb].
    replace (Nat.eqb (fst (fst c)) (fst (fst c)) && Nat.eqb (snd (fst c)) (snd (fst c))
             && Nat.eqb (snd c) (snd c))%bool with true
      by (symmetry; apply cell_eqb_true; reflexivity).
    cbn [vdr wgh smp]. rewrite !assign_hit. repeat split.
Qed.

(** What the two cells of an intra-cylinder baseline hold after its turn. *)
Lemma unpack_mirror_cells (cfg : config) (tel : telescope) (ds : sidereal_stream)
    (geo : geometry) (i : nat) (ind : Z * Z * Z) (g g' : grids) (c c' : nat * nat * nat) :
  unpack cfg tel ds geo i ind g = Done g' ->
  ((snd (fst ind) =? 0)%Z && intracyl cfg)%bool = true ->
  cell geo (fst (fst ind)) (snd (fst ind)) (snd ind) = Some c ->
  cell geo (fst (fst ind)) (snd (fst ind)) (- snd ind) = Some c' ->
  exists w, select_w cfg tel ds i = Ok (Some w)
    /\ forall f t,
         at_cell (vdr g') c' f t = Cconj (vis ds f i t)
         /\ (c <> c' -> at_cell (vdr g') c f t = vis ds f i t)
         /\ at_cell (wgh g') c f t = weight ds f i t
         /\ at_cell (wgh g') c' f t = weight ds f i t
         /\ at_cell (smp g') c f t = w f t
         /\ at_cell (smp g') c' f t = w f t.
Proof.
  intros H Hb Hc Hc'.
  destruct (unpack_done_sym _ _ _ _ _ _ _ _ H Hb) as (c1 & c2 & w & Hc1 & Hc2 & Hw & ->).
  assert (c1 = c) by congruence. assert (c2 = c') by congruence. subst c1 c2.
  exists w. split; [exact Hw|]. intros f t. simpl.
  split; [apply assign_hit|]. split.
  - intros N. read_cell N.
  - destruct (cell_eq_dec c c') as [<-|N].
    + rewrite !assign_hit. repeat split.
    + repeat split; read_cell N.
Qed.

(* ------------------------------------------------------------------ *)
(** * The classifier *)

Lemma fold_min_le (l : list Q) (q : Q) : (fold_left Qmin l q <= q)%Q.
Proof.
  revert q. induction l as [|a l IH]; intros q; simpl.
  - apply Qle_refl.
  - eapply Qle_trans; [apply IH | apply Q.le_min_l].
Qed.

Lemma fold_min_pos (l : list Q) (q : Q) :
  (0 < q)%Q -> Forall (fun a => (0 < a)%Q) l -> (0 < fold_left Qmin l q)%Q.
Proof.
  intros Hq H. revert q Hq. induction H as [|a l Ha _ IH]; intros q Hq; simpl.
  - exact Hq.
  - apply IH. apply Q.min_glb_lt; assumption.
Qed.

Lemma fold_max_ge (l : list Q) (q : Q) : (q <= fold_left Qmax l q)%Q.
Proof.
  revert q. induction l as [|a l IH]; intros q; simpl.
  - apply Qle_refl.
  - eapply Qle_trans; [apply Q.le_max_l | apply IH].
Qed.

Lemma fold_zmax_ge (l : list Z) (x : Z) : (x <= fold_left Z.max l x)%Z.
Proof.
  revert x. induction l as [|a l IH]; intros x; simpl.
  - lia.
  - specialize (IH (Z.max x a)). lia.
Qed.

Lemma nonzero_abs_pos (ysep : list Q) : Forall (fun a => (0 < a)%Q) (nonzero_abs ysep).
Proof.
  apply Forall_forall. intros a Ha. unfold nonzero_abs in Ha.
  apply filter_In in Ha. destruct Ha as [_ Ha].
  destruct (Qcompare a 0) eqn:E; try discriminate Ha.
  apply Qgt_alt. exact E.
Qed.

Lemma np_round_int_ge_1 (q : Q) : (1 <= q)%Q -> (1 <= np_round_int q)%Z.
Proof.
  intros H. assert (F : (1 <= Qfloor q)%Z).
  { change 1%Z with (Qfloor (inject_Z 1)). apply Qfloor_resp_le. exact H. }
  unfold np_round_int.
  destruct (Qcompare (q - inject_Z (Qfloor q)) (1 # 2)); [destruct (Z.even (Qfloor q))| |]; lia.
Qed.

(** A successful classification, taken apart. *)
Lemma classify_ok (tel : telescope) (ds : sidereal_stream) (geo : geometry) :
  classify tel ds = Ok geo ->
  exists tri q l x xs,
    mapM (baseline_geometry tel) (prod ds) = Ok tri
    /\ nonzero_abs (map (fun t => snd t) tri) = q :: l
    /\ map Z.abs (map (fun t => snd (fst t)) tri) = x :: xs
    /\ min_ysep geo = fold_left Qmin l q
    /\ nfeed geo = np_round_int (fold_left Qmax l q / fold_left Qmin l q)
    /\ nvis_1d geo = (2 * nfeed geo - 1)%Z
    /\ ncyl geo = (fold_left Z.max xs x + 1)%Z
    /\ nbeam geo = (2 * ncyl geo - 1)%Z
    /\ feed_index geo
       = combine (combine (map (fun t => fst (fst t)) tri) (map (fun t => snd (fst t)) tri))
                 (map (fun yy => np_round_int (yy / fold_left Qmin l q))
                      (map (fun t => snd t) tri)).
Proof.
  unfold classify. intros H.
  destruct (mapM (baseline_geometry tel) (prod ds)) as [tri|e]; [|discriminate H].
  simpl in H.
  destruct (nonzero_abs (map (fun t => snd t) tri)) as [|q l] eqn:El; [discriminate H|].
  simpl in H.
  destruct (map Z.abs (map (fun t => snd (fst t)) tri)) as [|x xs] eqn:Ex; [discriminate H|].
  simpl in H. injection H as <-.
  exists tri, q, l, x, xs. simpl. repeat split; assumption.
Qed.

(** The shape the classifier gives the arrays: at least one cylinder
    separation, and an odd, positive number of row bins. *)
Lemma classify_shape (tel : telescope) (ds : sidereal_stream) (geo : geometry) :
  classify tel ds = Ok geo ->
  (1 <= nfeed geo)%Z /\ nvis_1d geo = (2 * nfeed geo - 1)%Z
  /\ (1 <= ncyl geo)%Z /\ nbeam geo = (2 * ncyl geo - 1)%Z.
Proof.
  intros H. apply classify_ok in H.
  destruct H as (tri & q & l & x & xs & _ & El & Ex & _ & Hn & Hv & Hc & Hb & _).
  split; [|split; [exact Hv|split; [|exact Hb]]].
  - rewrite Hn. apply np_round_int_ge_1.
    pose proof (nonzero_abs_pos (map (fun t => snd t) tri)) as P. rewrite El in P.
    inversion P as [|? ? Pq Pl]; subst.
    pose proof (fold_min_pos l q Pq Pl) as Hmin.
    apply Qle_shift_div_l; [exact Hmin|].
    rewrite Qmult_1_l.
    eapply Qle_trans; [apply fold_min_le | apply fold_max_ge].
  - rewrite Hc. pose proof (fold_zmax_ge xs x) as G.
    assert (0 <= x)%Z.
    { destruct (map (fun t => snd (fst t)) tri) as [|a r]; [discriminate Ex|].
      simpl in Ex. injection Ex as <- _. apply Z.abs_nonneg. }
    lia.
Qed.

(* ------------------------------------------------------------------ *)
(** * Runs of the examples *)

Lemma classify_a : classify tel_a ds_a = Ok geo_a.
Proof. vm_compute. reflexivity. Qed.

Lemma classify_b : classify tel_b ds_b = Ok geo_b.
Proof. vm_compute. reflexivity. Qed.

Lemma classify_c : classify tel_c ds_c = Raise "IndexError"%string.
Proof. vm_compute. reflexivity. Qed.

(* ------------------------------------------------------------------ *)
(** * Zero-spacing exclusion *)

(** C9.  When [intracyl] is set and the packing ends normally, the cell
    (cylinder separation 0, row bin 0) exists in the arrays and the sample
    coefficient it holds is 0 for every frequency, polarisation and time
    sample, whatever the visibilities, weights and redundancies are; it is
    still 0 after the normaliser. *)
Theorem C9_auto_coefficient_zero (cfg : config) (tel : telescope) (ds : sidereal_stream)
    (geo : geometry) (g : grids) :
  intracyl cfg = true ->
  classify tel ds = Ok geo ->
  packed cfg tel ds geo = Ok g ->
  (0 < ncyl geo)%Z /\ (0 < nvis_1d geo)%Z
  /\ forall f p t,
       smp (remove_auto cfg g) f p t 0%nat 0%nat = 0
       /\ smp (normalize cfg geo (remove_auto cfg g)) f p t 0%nat 0%nat = 0.
Proof.
  intros Hi Hc _.
  destruct (classify_shape _ _ _ Hc) as (Hf & Hv & Hy & _).
  split; [lia|]. split; [lia|].
  intros f p t. unfold normalize, remove_auto. rewrite Hi. simpl.
  split; [reflexivity | ring].
Qed.

Lemma C9_witness :
  exists g,
    intracyl (cfg_b true) = true
    /\ classify tel_b ds_b = Ok geo_b
    /\ packed (cfg_b true) tel_b ds_b geo_b = Ok g
    /\ smp (remove_auto (cfg_b true) g) 0%nat 1%nat 0%nat 0%nat 0%nat = 0.
Proof.
  assert (Hg : exists g, packed (cfg_b true) tel_b ds_b geo_b = Ok g)
    by (eexists; vm_compute; reflexivity).
  destruct Hg as (g & Hg). exists g.
  split; [reflexivity|]. split; [exact classify_b|]. split; [exact Hg|].
  exact (proj1 (proj2 (proj2 (C9_auto_coefficient_zero (cfg_b true) tel_b ds_b geo_b g
                                eq_refl classify_b Hg)) 0%nat 1%nat 0%nat)).
Defined.

(* ------------------------------------------------------------------ *)
(** * The normaliser *)

(** In exact arithmetic the coefficient mass of every (frequency,
    polarisation, time) pixel - the row bins summed for each cylinder
    separation, weighted by the cylinder vector - is 1 after the normaliser
    when the mass before it was not zero, and 0 when it was zero. *)
Lemma normalized_mass_exact (cfg : config) (geo : geometry) (g : grids) (f p t : nat) :
  coeff_mass cfg geo (smp (normalize cfg geo g)) f p t
  = if Req_dec_T (coeff_mass cfg geo (smp g) f p t) 0 then 0 else 1.
Proof.
  rewrite <- !sum_dot_coeff_mass.
  rewrite <- mult_invert_no_zero.
  unfold normalize. simpl.
  set (d := invert_no_zero (sum_dot cfg geo (smp g) f p t)).
  unfold sum_dot.
  rewrite <- sum_n_scal_r. apply sum_n_ext. intros b _.
  rewrite <- sum_n_scal_r. apply sum_n_ext. intros c _.
  fold (sum_dot cfg geo (smp g) f p t). fold d.
  ring.
Qed.

(** ** Zeros, infinities and NaN of binary64 *)

Lemma sf_zero_fin (x : spec_float) : sf_zero x -> sf_fin x.
Proof. destruct x; simpl; tauto. Qed.

(** A binary64 value compares equal to [0.0] exactly when it is a zero. *)
Lemma b64_eqb_0 (x : float) : (x =? 0)%float = true <-> sf_zero (Prim2SF x).
Proof.
  rewrite FloatAxioms.eqb_spec.
  change (Prim2SF 0) with (S754_zero false).
  destruct (Prim2SF x) as [s|s| |s m e]; simpl; try (split; [discriminate | contradiction]).
  - split; trivial.
  - destruct s; split; try discriminate; contradiction.
  - destruct s; split; try discriminate; contradiction.
Qed.

(** A sum is an infinity or a NaN as soon as one of its terms is. *)
Lemma SFadd_fin (x y : spec_float) : sf_fin (SF64add x y) -> sf_fin x /\ sf_fin y.
Proof.
  destruct x as [sx|sx| |sx mx ex], y as [sy|sy| |sy my ey];
    try (intros _; split; exact I); try (simpl; contradiction);
    try (destruct sx, sy; simpl; contradiction);
    try (destruct sx; simpl; contradiction).
Qed.

Lemma SFmul_fin (x y : spec_float) : sf_fin (SF64mul x y) -> sf_fin y.
Proof.
  destruct x as [sx|sx| |sx mx ex], y as [sy|sy| |sy my ey];
    try (intros _; exact I); simpl; try contradiction.
Qed.

Lemma SFmul_zero (x y : spec_float) : sf_fin x -> sf_zero y -> sf_zero (SF64mul x y).
Proof.
  destruct x as [sx|sx| |sx mx ex], y as [sy|sy| |sy my ey]; simpl; try contradiction; trivial.
Qed.

Lemma SFadd_zero (x y : spec_float) : sf_zero x -> sf_zero y -> sf_zero (SF64add x y).
Proof.
  destruct x as [sx|sx| |sx mx ex], y as [sy|sy| |sy my ey]; simpl; try contradiction.
  destruct sx, sy; trivial.
Qed.

Lemma sum_b64_fin (n : nat) (f : nat -> float) :
  sf_fin (Prim2SF (sum_b64 n f)) -> forall k, (k < n)%nat -> sf_fin (Prim2SF (f k)).
Proof.
  induction n as [|n IH]; intros H k Hk; [lia|].
  simpl in H. rewrite add_spec in H. apply SFadd_fin in H. destruct H as (H1 & H2).
  destruct (Nat.eq_dec k n) as [->|N]; [exact H2|].
  apply IH; [exact H1 | lia].
Qed.

Lemma sum_b64_zero (n : nat) (f : nat -> float) :
  (forall k, (k < n)%nat -> sf_zero (Prim2SF (f k))) -> sf_zero (Prim2SF (sum_b64 n f)).
Proof.
  induction n as [|n IH]; intros H.
  - exact I.
  - simpl. rewrite add_spec. apply SFadd_zero.
    + apply IH. intros k Hk. apply H. lia.
    + apply H. lia.
Qed.

Lemma coeff_b64_fin (cfg : config) (c : nat) : sf_fin (Prim2SF (coeff_b64 cfg c)).
Proof. destruct c; simpl; [destruct (intracyl cfg)|]; exact I. Qed.

(** In binary64, a pixel whose divisor is zero had only finite
    coefficients, and the normaliser leaves zeros in all of them. *)
Lemma normalize_b64_blank (cfg : config) (geo : geometry) (a : grid float) (f p t : nat) :
  (sum_dot_b64 cfg geo a f p t =? 0)%float = true ->
  forall c b, (c < Z.to_nat (ncyl geo))%nat -> (b < Z.to_nat (nvis_1d geo))%nat ->
    sf_zero (Prim2SF (normalize_b64 cfg geo a f p t c b)).
Proof.
  intros Hz c b Hc Hb. unfold normalize_b64, invert_no_zero_b64. rewrite Hz.
  rewrite mul_spec. apply SFmul_zero; [|exact I].
  apply b64_eqb_0, sf_zero_fin in Hz. unfold sum_dot_b64 in Hz.
  pose proof (sum_b64_fin _ _ Hz b Hb) as H1. cbv beta in H1.
  pose proof (sum_b64_fin _ _ H1 c Hc) as H2. cbv beta in H2.
  rewrite mul_spec in H2. apply SFmul_fin in H2. exact H2.
Qed.

(** C3, as the code has it.  The normaliser works on binary64 values.  For
    a pixel whose divisor - the total that line 175 computes - compares equal
    to zero, every coefficient of the pixel is a zero after the normaliser,
    and so is the coefficient mass, in the order of line 175 and in the order
    of the specification: no error, no NaN, no infinity.  For a pixel whose
    total is not zero the mass is 1 in exact arithmetic.  (In binary64 every
    coefficient is multiplied by the rounded reciprocal of the total and
    rounded again, and the mass can miss 1, as the example after the next
    shows.) *)
Theorem C3_normalized_mass (cfg : config) (geo : geometry) :
  (forall (a : grid float) (f p t : nat),
     (sum_dot_b64 cfg geo a f p t =? 0)%float = true ->
     (forall c b, (c < Z.to_nat (ncyl geo))%nat -> (b < Z.to_nat (nvis_1d geo))%nat ->
                  (normalize_b64 cfg geo a f p t c b =? 0)%float = true)
     /\ (sum_dot_b64 cfg geo (normalize_b64 cfg geo a) f p t =? 0)%float = true
     /\ (coeff_mass_b64 cfg geo (normalize_b64 cfg geo a) f p t =? 0)%float = true)
  /\ (forall (g : grids) (f p t : nat),
        coeff_mass cfg geo (smp (normalize cfg geo g)) f p t
        = if Req_dec_T (coeff_mass cfg geo (smp g) f p t) 0 then 0 else 1).
Proof.
  split; [|apply normalized_mass_exact].
  intros a f p t Hz.
  pose proof (normalize_b64_blank cfg geo a f p t Hz) as Hn.
  split; [|split].
  - intros c b Hc Hb. apply b64_eqb_0, Hn; assumption.
  - apply b64_eqb_0. unfold sum_dot_b64.
    apply sum_b64_zero. intros b Hb. apply sum_b64_zero. intros c Hc.
    rewrite mul_spec. apply SFmul_zero; [apply coeff_b64_fin | apply Hn; assumption].
  - apply b64_eqb_0. unfold coeff_mass_b64.
    apply sum_b64_zero. intros c Hc.
    rewrite mul_spec. apply SFmul_zero; [apply coeff_b64_fin|].
    apply sum_b64_zero. intros b Hb. apply Hn; assumption.
Qed.

(** The pixel of polarisation 1 of the example has no coefficient: its
    total is zero, and so is its mass after the normaliser. *)
Lemma C3_witness :
  (sum_dot_b64 (cfg_a "natural") geo_a (b64_grid smp_r) 0 1 0 =? 0)%float = true
  /\ (coeff_mass_b64 (cfg_a "natural") geo_a
        (normalize_b64 (cfg_a "natural") geo_a (b64_grid smp_r)) 0 1 0 =? 0)%float = true.
Proof.
  assert (H : (sum_dot_b64 (cfg_a "natural") geo_a (b64_grid smp_r) 0 1 0 =? 0)%float = true)
    by (vm_compute; reflexivity).
  split; [exact H|].
  exact (proj2 (proj2 (proj1 (C3_normalized_mass (cfg_a "natural") geo_a)
                         (b64_grid smp_r) 0%nat 1%nat 0%nat H))).
Defined.

(** C3, as the specification states it, fails.  With the weighting
    'natural' and the redundancies 1, 1 and 5 the packer leaves the
    coefficients 1 and 5 at cylinder separation 1 of the pixel of
    polarisation 0.  The total is 12; the two coefficients become
    [1 * (1/12)] and [5 * (1/12)], each rounded, and the mass after the
    normaliser is [0.9999999999999999], the binary64 value just below 1. *)
Lemma C3_counterexample :
  exists g,
    classify tel_r ds_a = Ok geo_a
    /\ packed (cfg_a "natural") tel_r ds_a geo_a = Ok g
    /\ (forall f p t c b,
          smp (remove_auto (cfg_a "natural") g) f p t c b = IZR (smp_r f p t c b))
    /\ sum_dot_b64 (cfg_a "natural") geo_a (b64_grid smp_r) 0 0 0 = 12%float
    /\ sum_dot_b64 (cfg_a "natural") geo_a
         (normalize_b64 (cfg_a "natural") geo_a (b64_grid smp_r)) 0 0 0
       = 0x1.fffffffffffffp-1%float
    /\ coeff_mass_b64 (cfg_a "natural") geo_a
         (normalize_b64 (cfg_a "natural") geo_a (b64_grid smp_r)) 0 0 0
       = 0x1.fffffffffffffp-1%float
    /\ (0x1.fffffffffffffp-1 =? 1)%float = false.
Proof.
  eexists. split; [vm_compute; reflexivity|].
  split; [vm_compute; reflexivity|].
  split.
  { intros f p t c b.
    destruct p as [|p]; destruct c as [|[|c]]; destruct b as [|[|[|b]]];
      cbv -[Rplus Rmult IZR]; lra. }
  repeat split; vm_compute; reflexivity.
Qed.

(* ------------------------------------------------------------------ *)
(** * The synthesiser *)

Lemma weighted_ok (cfg : config) (tel : telescope) (ds : sidereal_stream)
    (geo : geometry) (g : grids) :
  weighted cfg tel ds = Ok (geo, g) ->
  exists g0, classify tel ds = Ok geo /\ packed cfg tel ds geo = Ok g0
             /\ g = normalize cfg geo (remove_auto cfg g0).
Proof.
  unfold weighted. intros H.
  destruct (classify tel ds) as [geo'|e]; [|discriminate H]. simpl in H.
  destruct (packed cfg tel ds geo') as [g0|e] eqn:Hp; [|discriminate H]. simpl in H.
  injection H as -> <-. exists g0. repeat split. exact Hp.
Qed.


Lemma Csum_n_ext (n : nat) (f g : nat -> C) :
  (forall k, (k < n)%nat -> f k = g k) -> Csum_n n f = Csum_n n g.
Proof.
  induction n as [|n IH]; intros H; simpl.
  - reflexivity.
  - rewrite IH by (intros k Hk; apply H; lia).
    rewrite (H n) by lia. reflexivity.
Qed.

Lemma irfft_ext (a a' : nat -> C) (n m : nat) :
  (forall c, a c = a' c) -> irfft a n m = irfft a' n m.
Proof.
  intros H. unfold irfft. rewrite !H.
  f_equal. f_equal. f_equal.
  apply sum_n_ext. intros k _. rewrite H. reflexivity.
Qed.






(* ------------------------------------------------------------------ *)
(** * What a cell holds after the packing *)

(** A cell holds the values of the last baseline that assigns it, by the
    assignment to its own cell or by its conjugate fill. *)
Lemma last_assignment (cfg : config) (tel : telescope)
    (ds : sidereal_stream) (geo : geometry) (l1 l2 : list (Z * Z * Z))
    (ind : Z * Z * Z) (g : grids) (c : nat * nat * nat) :
  feed_index geo = l1 ++ ind :: l2 ->
  unpack_all cfg tel ds geo = Done g ->
  touches cfg geo ind c ->
  Forall (fun ind' => ~ touches cfg geo ind' c) l2 ->
  exists w, select_w cfg tel ds (List.length l1) = Ok (Some w)
    /\ forall f t,
         at_cell (vdr g) c f t
         = (if mirrored_onto cfg geo ind c then Cconj (vis ds f (List.length l1) t)
            else vis ds f (List.length l1) t)
         /\ at_cell (wgh g) c f t = weight ds f (List.length l1) t
         /\ at_cell (smp g) c f t = w f t.
Proof.
  intros Hl Hg Hc Hl2.
  destruct (unpack_all_turn _ _ _ _ _ _ _ _ Hl Hg) as (g1 & g2 & _ & H2 & H3).
  destruct (unpack_touched_cell _ _ _ _ _ _ _ _ _ H2 Hc) as (w & Hw & Hv).
  exists w. split; [exact Hw|]. intros f t.
  destruct (unpack_from_frame _ _ _ _ _ _ Hl2 _ _ _ H3 f t) as (E1 & E2 & E3).
  rewrite E1, E2, E3. apply Hv.
Qed.

(** C2, as the code has it.  The loop assigns, it does not add: when the
    packing ends normally, a cell holds, in each of the three arrays, the
    value of the last baseline in product order that assigns it, however
    many earlier baselines map to it.  A baseline assigns the cell it
    addresses and, in the intra-cylinder branch, the cell of the opposite
    row bin.  The visibility in the cell is the conjugate of that of the last
    baseline when the assignment of that baseline that reaches the cell last
    is its conjugate fill; the weight and the coefficient are those of the
    last baseline in both cases. *)
Theorem C2_cell_holds_last_assignment (cfg : config) (tel : telescope)
    (ds : sidereal_stream) (geo : geometry) (l1 l2 : list (Z * Z * Z))
    (ind : Z * Z * Z) (g : grids) (c : nat * nat * nat) :
  feed_index geo = l1 ++ ind :: l2 ->
  unpack_all cfg tel ds geo = Done g ->
  touches cfg geo ind c ->
  Forall (fun ind' => ~ touches cfg geo ind' c) l2 ->
  exists w, select_w cfg tel ds (List.length l1) = Ok (Some w)
    /\ forall f t,
         at_cell (vdr g) c f t
         = (if mirrored_onto cfg geo ind c then Cconj (vis ds f (List.length l1) t)
            else vis ds f (List.length l1) t)
         /\ at_cell (wgh g) c f t = weight ds f (List.length l1) t
         /\ at_cell (smp g) c f t = w f t.
Proof.
  exact (last_assignment cfg tel ds geo l1 l2 ind g c).
Qed.

(** In the second example the cell (polarisation 0, cylinder 0, row
    position 1) is addressed by the second baseline and is the target of the
    conjugate fill of the third, which is the last to assign it. *)
Lemma C2_witness :
  exists g,
    unpack_all (cfg_b true) tel_b ds_b geo_b = Done g
    /\ touches (cfg_b true) geo_b (0, 0, 1)%Z (0, 0, 1)%nat
    /\ touches (cfg_b true) geo_b (0, 0, 2)%Z (0, 0, 1)%nat
    /\ at_cell (vdr g) (0, 0, 1)%nat 0%nat 0%nat = Cconj (vis ds_b 0%nat 2%nat 0%nat)
    /\ at_cell (wgh g) (0, 0, 1)%nat 0%nat 0%nat = weight ds_b 0%nat 2%nat 0%nat.
Proof.
  assert (Hg : exists g, unpack_all (cfg_b true) tel_b ds_b geo_b = Done g)
    by (eexists; vm_compute; reflexivity).
  destruct Hg as (g & Hg). exists g. split; [exact Hg|].
  assert (T1 : touches (cfg_b true) geo_b (0, 0, 1)%Z (0, 0, 1)%nat) by (left; reflexivity).
  assert (T2 : touches (cfg_b true) geo_b (0, 0, 2)%Z (0, 0, 1)%nat)
    by (right; split; reflexivity).
  split; [exact T1|]. split; [exact T2|].
  destruct (C2_cell_holds_last_assignment (cfg_b true) tel_b ds_b geo_b
              [(1, 0, 0)%Z; (0, 0, 1)%Z] [] (0, 0, 2)%Z g (0, 0, 1)%nat
              eq_refl Hg T2 (Forall_nil _)) as (w & _ & H).
  destruct (H 0%nat 0%nat) as (H1 & H2 & _).
  split; [exact H1 | exact H2].
Defined.

(** C2, as the specification states it, fails: the first two baselines of
    the example address the same cell, which ends with the visibility, the
    weight and the coefficient of the second of them, not with the sums. *)
Lemma C2_counterexample :
  exists g,
    classify tel_a ds_a = Ok geo_a
    /\ packed (cfg_a "uniform") tel_a ds_a geo_a = Ok g
    /\ cell geo_a 0 1 1 = Some (0, 1, 1)%nat
    /\ nth_error (feed_index geo_a) 0 = Some (0, 1, 1)%Z
    /\ nth_error (feed_index geo_a) 1 = Some (0, 1, 1)%Z
    /\ at_cell (vdr g) (0, 1, 1)%nat 0%nat 0%nat
       <> accumulated Cplus C0 geo_a (fun i => vis ds_a 0%nat i 0%nat) 0
                      (feed_index geo_a) (0, 1, 1)%nat
    /\ at_cell (wgh g) (0, 1, 1)%nat 0%nat 0%nat
       <> accumulated Rplus 0 geo_a (fun i => weight ds_a 0%nat i 0%nat) 0
                      (feed_index geo_a) (0, 1, 1)%nat
    /\ at_cell (smp g) (0, 1, 1)%nat 0%nat 0%nat
       <> accumulated Rplus 0 geo_a (fun _ => 1) 0 (feed_index geo_a) (0, 1, 1)%nat.
Proof.
  eexists. split; [exact classify_a|].
  split; [vm_compute; reflexivity|].
  repeat (split; [reflexivity|]).
  cbv -[Rplus Rmult IZR]. repeat split.
  - intros H. injection H as H. lra.
  - lra.
  - lra.
Qed.

(* ------------------------------------------------------------------ *)
(** * Intra-cylinder baselines *)

(** On an axis of odd length an index and its opposite address the same
    position only when the index is 0. *)
Lemma norm_index_mirror (n m k : Z) (a b : nat) :
  n = (2 * m - 1)%Z ->
  norm_index n k = Some a ->
  norm_index n (- k) = Some b ->
  (a = b <-> k = 0%Z).
Proof.
  unfold norm_index. intros Hn Ha Hb.
  destruct (Z.leb_spec 0 k), (Z.ltb_spec k n), (Z.leb_spec (- n) k), (Z.ltb_spec k 0),
    (Z.leb_spec 0 (- k)), (Z.ltb_spec (- k) n), (Z.leb_spec (- n) (- k)),
    (Z.ltb_spec (- k) 0);
    cbn [andb] in Ha, Hb; try discriminate; try lia;
    injection Ha as <-; injection Hb as <-; lia.
Qed.

Lemma norm_index_zero (n k : Z) :
  norm_index n k = Some 0%nat -> norm_index n (- k) <> None -> k = 0%Z.
Proof.
  unfold norm_index. intros Ha Hb.
  destruct (Z.leb_spec 0 k), (Z.ltb_spec k n), (Z.leb_spec (- n) k), (Z.ltb_spec k 0),
    (Z.leb_spec 0 (- k)), (Z.ltb_spec (- k) n), (Z.leb_spec (- n) (- k)),
    (Z.ltb_spec (- k) 0);
    cbn [andb] in Ha, Hb; try discriminate; try lia;
    try (contradiction Hb; reflexivity);
    injection Ha as Ha; lia.
Qed.

Lemma cell_parts (geo : geometry) (p x y : Z) (c : nat * nat * nat) :
  cell geo p x y = Some c ->
  norm_index npol p = Some (fst (fst c))
  /\ norm_index (ncyl geo) x = Some (snd (fst c))
  /\ norm_index (nvis_1d geo) y = Some (snd c).
Proof.
  unfold cell. intros H.
  destruct (norm_index npol p); [|discriminate H].
  destruct (norm_index (ncyl geo) x); [|discriminate H].
  destruct (norm_index (nvis_1d geo) y); [|discriminate H].
  injection H as <-. repeat split.
Qed.

(** C4, as the code has it.  With [intracyl] set, take an intra-cylinder
    baseline with visibility [v] and row bin [k] whose two cells no later
    baseline assigns.  After the packing the cell of bin [-k] holds
    [conj(v)]; the cell of bin [+k] holds [v] when [k] is not 0, and for
    [k = 0] the two cells are one, which holds [conj(v)].  The weight is the
    same at the two cells, unconjugated, and so is the coefficient, before
    and after the coefficient of the auto-correlations is zeroed. *)
Theorem C4_conjugate_fill (cfg : config) (tel : telescope) (ds : sidereal_stream)
    (geo : geometry) (l1 l2 : list (Z * Z * Z)) (ind : Z * Z * Z) (g : grids)
    (c c' : nat * nat * nat) :
  intracyl cfg = true ->
  classify tel ds = Ok geo ->
  feed_index geo = l1 ++ ind :: l2 ->
  snd (fst ind) = 0%Z ->
  unpack_all cfg tel ds geo = Done g ->
  cell geo (fst (fst ind)) 0 (snd ind) = Some c ->
  cell geo (fst (fst ind)) 0 (- snd ind) = Some c' ->
  Forall (fun ind' => ~ touches cfg geo ind' c /\ ~ touches cfg geo ind' c') l2 ->
  (c = c' <-> snd ind = 0%Z)
  /\ exists w, select_w cfg tel ds (List.length l1) = Ok (Some w)
       /\ forall f t,
            at_cell (vdr g) c' f t = Cconj (vis ds f (List.length l1) t)
            /\ (snd ind <> 0%Z -> at_cell (vdr g) c f t = vis ds f (List.length l1) t)
            /\ at_cell (wgh g) c f t = weight ds f (List.length l1) t
            /\ at_cell (wgh g) c' f t = weight ds f (List.length l1) t
            /\ at_cell (smp g) c f t = w f t
            /\ at_cell (smp g) c' f t = w f t
            /\ at_cell (smp (remove_auto cfg g)) c f t
               = at_cell (smp (remove_auto cfg g)) c' f t.
Proof.
  intros Hi Hcl Hl Hx Hg Hc Hc' Hl2.
  destruct (classify_shape _ _ _ Hcl) as (_ & Hodd & _ & _).
  destruct (cell_parts _ _ _ _ _ Hc) as (Pp & Px & Py).
  destruct (cell_parts _ _ _ _ _ Hc') as (Pp' & Px' & Py').
  assert (Hcc : c = c' <-> snd ind = 0%Z).
  { pose proof (norm_index_mirror _ _ _ _ _ Hodd Py Py') as M.
    destruct c as [[p x] y], c' as [[p' x'] y']. simpl in *.
    assert (p' = p) by congruence. assert (x' = x) by congruence. subst.
    rewrite <- M. split; [intros E; injection E as ->; reflexivity | intros ->; reflexivity]. }
  split; [exact Hcc|].
  destruct (unpack_all_turn _ _ _ _ _ _ _ _ Hl Hg) as (g1 & g2 & _ & H2 & H3).
  assert (Hb : ((snd (fst ind) =? 0)%Z && intracyl cfg)%bool = true)
    by (rewrite Hx, Hi; reflexivity).
  rewrite <- Hx in Hc, Hc'.
  destruct (unpack_mirror_cells _ _ _ _ _ _ _ _ _ _ H2 Hb Hc Hc') as (w & Hw & Hv).
  exists w. split; [exact Hw|]. intros f t.
  assert (F1 : Forall (fun ind' => ~ touches cfg geo ind' c) l2)
    by (eapply Forall_impl; [|exact Hl2]; intros a [A _]; exact A).
  assert (F2 : Forall (fun ind' => ~ touches cfg geo ind' c') l2)
    by (eapply Forall_impl; [|exact Hl2]; intros a [_ A]; exact A).
  destruct (unpack_from_frame _ _ _ _ _ _ F1 _ _ _ H3 f t) as (E1 & E2 & E3).
  destruct (unpack_from_frame _ _ _ _ _ _ F2 _ _ _ H3 f t) as (E1' & E2' & E3').
  destruct (Hv f t) as (V1 & V2 & V3 & V4 & V5 & V6).
  assert (S1 : at_cell (smp g) c f t = w f t) by (rewrite E3; exact V5).
  assert (S2 : at_cell (smp g) c' f t = w f t) by (rewrite E3'; exact V6).
  repeat split.
  - rewrite E1'. exact V1.
  - intros Hk. rewrite E1. apply V2. intros E. apply Hk, Hcc, E.
  - rewrite E2. exact V3.
  - rewrite E2'. exact V4.
  - exact S1.
  - exact S2.
  - assert (Ex : snd (fst c') = snd (fst c)) by congruence.
    assert (Ey : snd c = 0%nat <-> snd c' = 0%nat).
    { split; intros Y0.
      - assert (K : snd ind = 0%Z).
        { apply (norm_index_zero (nvis_1d geo)); [congruence|].
          rewrite Py'. discriminate. }
        apply Hcc in K. congruence.
      - assert (K : (- snd ind = 0)%Z).
        { apply (norm_index_zero (nvis_1d geo)); [congruence|].
          rewrite Z.opp_involutive, Py. discriminate. }
        assert (K' : snd ind = 0%Z) by lia.
        apply Hcc in K'. congruence. }
    unfold remove_auto. rewrite Hi. unfold at_cell in *. simpl. rewrite Ex.
    destruct (Nat.eqb_spec (snd (fst c)) 0) as [X0|X0]; simpl;
      [|rewrite Ex in S2; rewrite S1, S2; reflexivity].
    destruct (Nat.eqb_spec (snd c) 0) as [Y0|Y0];
      destruct (Nat.eqb_spec (snd c') 0) as [Y0'|Y0']; try reflexivity.
    + contradiction Y0'. apply Ey, Y0.
    + contradiction Y0. apply Ey, Y0'.
    + rewrite Ex in S2. rewrite S1, S2. reflexivity.
Qed.

Lemma C4_witness :
  exists g,
    unpack_all (cfg_b true) tel_b ds_b geo_b = Done g
    /\ at_cell (vdr g) (0, 0, 1)%nat 0%nat 0%nat = Cconj (vis ds_b 0%nat 2%nat 0%nat)
    /\ at_cell (vdr g) (0, 0, 2)%nat 0%nat 0%nat = vis ds_b 0%nat 2%nat 0%nat.
Proof.
  assert (Hg : exists g, unpack_all (cfg_b true) tel_b ds_b geo_b = Done g)
    by (eexists; vm_compute; reflexivity).
  destruct Hg as (g & Hg). exists g. split; [exact Hg|].
  destruct (C4_conjugate_fill (cfg_b true) tel_b ds_b geo_b
              [(1, 0, 0)%Z; (0, 0, 1)%Z] [] (0, 0, 2)%Z g (0, 0, 2)%nat (0, 0, 1)%nat
              eq_refl classify_b eq_refl eq_refl Hg eq_refl eq_refl (Forall_nil _))
    as (_ & w & _ & H).
  destruct (H 0%nat 0%nat) as (H1 & H2 & _).
  split; [exact H1 | apply H2; discriminate].
Defined.

(** C4, as the specification states it, fails at row bin 0: the first
    baseline of the example joins the two polarisations of one feed, so it is
    intra-cylinder with row bin 0; its visibility is [i], and the cell ends
    with [conj(i) = -i]. *)
Lemma C4_counterexample :
  exists g,
    classify tel_b ds_b = Ok geo_b
    /\ packed (cfg_b true) tel_b ds_b geo_b = Ok g
    /\ nth_error (feed_index geo_b) 0 = Some (1, 0, 0)%Z
    /\ cell geo_b 1 0 0 = Some (1, 0, 0)%nat
    /\ vis ds_b 0%nat 0%nat 0%nat = (0, 1)
    /\ at_cell (vdr g) (1, 0, 0)%nat 0%nat 0%nat = (0, -1)
    /\ at_cell (vdr g) (1, 0, 0)%nat 0%nat 0%nat <> vis ds_b 0%nat 0%nat 0%nat.
Proof.
  eexists. split; [exact classify_b|].
  split; [vm_compute; reflexivity|].
  repeat (split; [reflexivity|]).
  unfold at_cell, vdr, assign, vis, ds_b, vis_b, Cconj. simpl.
  intros H. injection H as H. lra.
Qed.






(* ------------------------------------------------------------------ *)
(** * A single row of feeds *)

Lemma mapM_baseline_raise (tel : telescope) (l : list (nat * nat)) (e : exn) :
  mapM (baseline_geometry tel) l = Raise e -> e = "IndexError"%string.
Proof.
  induction l as [|pr l IH]; simpl; [discriminate|].
  unfold baseline_geometry at 1.
  destruct (nth_error (feeds tel) (fst pr)) as [fi|]; [|simpl; congruence].
  destruct (nth_error (feeds tel) (snd pr)) as [fj|]; [|simpl; congruence].
  simpl. destruct (mapM (baseline_geometry tel) l) as [bs|e']; simpl.
  - discriminate.
  - intros H. injection H as <-. apply IH. reflexivity.
Qed.

Lemma mapM_baseline_zero (tel : telescope) (l : list (nat * nat)) :
  (forall i j fi fj, In (i, j) l ->
     nth_error (feeds tel) i = Some fi -> nth_error (feeds tel) j = Some fj ->
     (pos_y fi == pos_y fj)%Q) ->
  forall tri, mapM (baseline_geometry tel) l = Ok tri ->
              Forall (fun q => (q == 0)%Q) (map (fun t => snd t) tri).
Proof.
  induction l as [|[i j] l IH]; simpl; intros H tri Ht.
  - injection Ht as <-. constructor.
  - unfold baseline_geometry at 1 in Ht. simpl in Ht.
    destruct (nth_error (feeds tel) i) as [fi|] eqn:Ei; [|discriminate Ht].
    destruct (nth_error (feeds tel) j) as [fj|] eqn:Ej; [|discriminate Ht].
    simpl in Ht.
    destruct (mapM (baseline_geometry tel) l) as [bs|e'] eqn:Em; [|discriminate Ht].
    simpl in Ht. injection Ht as <-. simpl. constructor.
    + rewrite (H i j fi fj (or_introl eq_refl) Ei Ej). ring.
    + apply IH; [|reflexivity]. intros i' j' fi' fj' Hin. apply H. right. exact Hin.
Qed.

Lemma nonzero_abs_all_zero (ys : list Q) :
  Forall (fun q => (q == 0)%Q) ys -> nonzero_abs ys = [].
Proof.
  unfold nonzero_abs. induction 1 as [|q ys Hq _ IH]; simpl.
  - reflexivity.
  - rewrite IH.
    assert (E : (Qabs q == 0)%Q) by (rewrite Hq; reflexivity).
    destruct (Qcompare_spec (Qabs q) 0) as [_|_|L]; try reflexivity.
    rewrite E in L. exfalso. exact (Qlt_irrefl 0 L).
Qed.

(** C5, as the code has it.  When every baseline has row separation zero
    the classifier fails, whatever the configuration: the list handed to
    [np.percentile] is empty and numpy raises an IndexError.  The code has no
    error of its own for this case; no division by zero takes place and no
    ring map is returned. *)
Theorem C5_single_row_fails (cfg : config) (tel : telescope) (ds : sidereal_stream) :
  (forall i j fi fj, In (i, j) (prod ds) ->
     nth_error (feeds tel) i = Some fi -> nth_error (feeds tel) j = Some fj ->
     (pos_y fi == pos_y fj)%Q) ->
  classify tel ds = Raise "IndexError"%string
  /\ process cfg tel ds = Raise "IndexError"%string.
Proof.
  intros H.
  assert (Hc : classify tel ds = Raise "IndexError"%string).
  { unfold classify.
    destruct (mapM (baseline_geometry tel) (prod ds)) as [tri|e] eqn:Em; simpl.
    - rewrite (nonzero_abs_all_zero _ (mapM_baseline_zero tel (prod ds) H tri Em)).
      reflexivity.
    - rewrite (mapM_baseline_raise _ _ _ Em). reflexivity. }
  split; [exact Hc|].
  unfold process, weighted. rewrite Hc. reflexivity.
Qed.

Lemma C5_witness :
  (forall i j fi fj, In (i, j) (prod ds_c) ->
     nth_error (feeds tel_c) i = Some fi -> nth_error (feeds tel_c) j = Some fj ->
     (pos_y fi == pos_y fj)%Q)
  /\ process (cfg_a "uniform") tel_c ds_c = Raise "IndexError"%string.
Proof.
  assert (H : forall i j fi fj, In (i, j) (prod ds_c) ->
     nth_error (feeds tel_c) i = Some fi -> nth_error (feeds tel_c) j = Some fj ->
     (pos_y fi == pos_y fj)%Q).
  { intros i j fi fj [E|[]] Hi Hj. injection E as <- <-.
    simpl in Hi, Hj. injection Hi as <-. injection Hj as <-. reflexivity. }
  split; [exact H|].
  exact (proj2 (C5_single_row_fails (cfg_a "uniform") tel_c ds_c H)).
Defined.

(** C5, as the specification states it, fails: for two feeds in one row
    the error that ends [process] is the IndexError of numpy, not a
    GeometryError. *)
Lemma C5_counterexample :
  process (cfg_a "uniform") tel_c ds_c = Raise "IndexError"%string
  /\ process (cfg_a "uniform") tel_c ds_c <> Raise "GeometryError"%string.
Proof.
  assert (H : process (cfg_a "uniform") tel_c ds_c = Raise "IndexError"%string)
    by (unfold process, weighted; rewrite classify_c; reflexivity).
  split; [exact H|]. rewrite H. discriminate.
Qed.

(* ------------------------------------------------------------------ *)
(** * An unrecognised weighting *)

(** C1, on the code.  With a weighting that is none of the three names the
    run of the example does not stop before the arrays are touched: the first
    turn of the loop assigns the visibility and the weight of the first
    baseline to their cell, and only then the assignment of the coefficient
    fails, with an UnboundLocalError for [w]. *)
Theorem C1_unrecognized_weighting_fails_late :
  exists g,
    classify tel_a ds_a = Ok geo_a
    /\ unpack_all (cfg_a "bogus") tel_a ds_a geo_a = Abort "UnboundLocalError"%string g
    /\ at_cell (vdr g) (0, 1, 1)%nat 0%nat 0%nat = vis ds_a 0%nat 0%nat 0%nat
    /\ at_cell (vdr g) (0, 1, 1)%nat 0%nat 0%nat <> at_cell (vdr zeros) (0, 1, 1)%nat 0%nat 0%nat
    /\ at_cell (wgh g) (0, 1, 1)%nat 0%nat 0%nat = weight ds_a 0%nat 0%nat 0%nat
    /\ at_cell (wgh g) (0, 1, 1)%nat 0%nat 0%nat <> at_cell (wgh zeros) (0, 1, 1)%nat 0%nat 0%nat
    /\ process (cfg_a "bogus") tel_a ds_a = Raise "UnboundLocalError"%string.
Proof.
  eexists. split; [exact classify_a|].
  split; [vm_compute; reflexivity|].
  split; [reflexivity|].
  split; [cbv -[Rplus Rmult IZR]; intros H; injection H as H; lra|].
  split; [reflexivity|].
  split; [cbv -[Rplus Rmult IZR]; lra|].
  unfold process, weighted. rewrite classify_a. vm_compute. reflexivity.
Qed.

(* ------------------------------------------------------------------ *)
(** * Two runs side by side *)

(** Two runs of the packer over the same geometry are compared on a set
    [F] of frequencies: the visibilities and weights of the two inputs agree
    there, and the coefficient selected in the second run is [k] times the
    one selected in the first. *)
Section Simulation.

Variables (cfg cfg' : config) (tel tel' : telescope) (ds ds' : sidereal_stream).
Variable geo : geometry.
Variable F : nat -> Prop.
Variable k : R.

Hypothesis same_intracyl : intracyl cfg' = intracyl cfg.
Hypothesis same_vis : forall f i t, F f -> vis ds' f i t = vis ds f i t.
Hypothesis same_weight : forall f i t, F f -> weight ds' f i t = weight ds f i t.

Lemma seq_stmt_rel (a a' b b' : stmt) :
  stmt_rel F k a a' -> stmt_rel F k b b' -> stmt_rel F k (a ;;; b) (a' ;;; b').
Proof.
  intros Ha Hb g g' Hg. unfold seq_stmt.
  specialize (Ha g g' Hg).
  destruct (a g) as [g1|e g1], (a' g') as [g1'|e' g1']; simpl in Ha;
    try contradiction.
  - apply Hb. exact Ha.
  - exact Ha.
Qed.

Lemma set_vdr_rel (p x y : Z) (src src' : plane C) :
  (forall f t, F f -> src' f t = src f t) ->
  stmt_rel F k (set_vdr geo p x y src) (set_vdr geo p x y src').
Proof.
  intros Hs g g' Hg. unfold set_vdr.
  destruct (cell geo p x y) as [c|]; simpl; [|reflexivity].
  intros f p0 t x0 y0 Hf. destruct (Hg f p0 t x0 y0 Hf) as (A & B & D).
  simpl. unfold assign. repeat split; try assumption.
  destruct (Nat.eqb p0 (fst (fst c)) && Nat.eqb x0 (snd (fst c)) && Nat.eqb y0 (snd c))%bool;
    [apply Hs; exact Hf | exact A].
Qed.

Lemma set_wgh_rel (p x y : Z) (src src' : plane R) :
  (forall f t, F f -> src' f t = src f t) ->
  stmt_rel F k (set_wgh geo p x y src) (set_wgh geo p x y src').
Proof.
  intros Hs g g' Hg. unfold set_wgh.
  destruct (cell geo p x y) as [c|]; simpl; [|reflexivity].
  intros f p0 t x0 y0 Hf. destruct (Hg f p0 t x0 y0 Hf) as (A & B & D).
  simpl. unfold assign. repeat split; try assumption.
  destruct (Nat.eqb p0 (fst (fst c)) && Nat.eqb x0 (snd (fst c)) && Nat.eqb y0 (snd c))%bool;
    [apply Hs; exact Hf | exact B].
Qed.

Lemma set_smp_rel (p x y : Z) (w w' : option (plane R)) :
  w_rel F k w w' -> stmt_rel F k (set_smp geo p x y w) (set_smp geo p x y w').
Proof.
  intros Hw g g' Hg. unfold set_smp.
  destruct w as [a|], w' as [a'|]; simpl in Hw; try contradiction; [|reflexivity].
  destruct (cell geo p x y) as [c|]; simpl; [|reflexivity].
  intros f p0 t x0 y0 Hf. destruct (Hg f p0 t x0 y0 Hf) as (A & B & D).
  simpl. unfold assign. repeat split; try assumption.
  destruct (Nat.eqb p0 (fst (fst c)) && Nat.eqb x0 (snd (fst c)) && Nat.eqb y0 (snd c))%bool;
    [apply Hw; exact Hf | exact D].
Qed.

Lemma unpack_rel (i : nat) (ind : Z * Z * Z) :
  sel_rel F k (select_w cfg tel ds i) (select_w cfg' tel' ds' i) ->
  stmt_rel F k (unpack cfg tel ds geo i ind) (unpack cfg' tel' ds' geo i ind).
Proof.
  intros Hs g g' Hg. unfold unpack.
  destruct (select_w cfg tel ds i) as [w|e], (select_w cfg' tel' ds' i) as [w'|e'];
    simpl in Hs; try contradiction; [|exact Hs].
  rewrite same_intracyl.
  assert (Hv : forall f t, F f -> vis ds' f i t = vis ds f i t)
    by (intros; apply same_vis; assumption).
  assert (Hc : forall f t, F f -> Cconj (vis ds' f i t) = Cconj (vis ds f i t))
    by (intros f t Hf; rewrite same_vis by exact Hf; reflexivity).
  assert (Hwt : forall f t, F f -> weight ds' f i t = weight ds f i t)
    by (intros; apply same_weight; assumption).
  destruct ((snd (fst ind) =? 0)%Z && intracyl cfg)%bool;
    refine ((_ : stmt_rel F k _ _) g g' Hg);
    repeat (apply seq_stmt_rel;
            [first [apply set_vdr_rel | apply set_wgh_rel | apply set_smp_rel]; assumption|]);
    apply set_smp_rel; assumption.
Qed.

Lemma unpack_from_rel (l : list (Z * Z * Z)) :
  forall i,
    (forall j, (i <= j < i + List.length l)%nat ->
               sel_rel F k (select_w cfg tel ds j) (select_w cfg' tel' ds' j)) ->
    stmt_rel F k (unpack_from cfg tel ds geo i l) (unpack_from cfg' tel' ds' geo i l).
Proof.
  induction l as [|ind l IH]; intros i Hs; simpl.
  - intros g g' Hg. exact Hg.
  - apply seq_stmt_rel.
    + apply unpack_rel. apply Hs. simpl. lia.
    + apply IH. intros j Hj. apply Hs. simpl. lia.
Qed.

Lemma zeros_rel : grids_rel F k zeros zeros.
Proof. intros f p t x y _. simpl. repeat split. ring. Qed.

Lemma remove_auto_rel (g g' : grids) :
  grids_rel F k g g' -> grids_rel F k (remove_auto cfg g) (remove_auto cfg' g').
Proof.
  intros Hg. unfold remove_auto. rewrite same_intracyl.
  destruct (intracyl cfg); [|exact Hg].
  intros f p t x y Hf. destruct (Hg f p t x y Hf) as (A & B & D). simpl.
  repeat split; try assumption.
  destruct (Nat.eqb x 0 && Nat.eqb y 0)%bool; [ring | exact D].
Qed.

Lemma coeff_same (c : nat) : coeff cfg' c = coeff cfg c.
Proof. unfold coeff. rewrite same_intracyl. reflexivity. Qed.

Lemma sum_dot_rel (g g' : grids) (f p t : nat) :
  grids_rel F k g g' -> F f ->
  sum_dot cfg' geo (smp g') f p t = k * sum_dot cfg geo (smp g) f p t.
Proof.
  intros Hg Hf. unfold sum_dot.
  rewrite <- sum_n_scal_l. apply sum_n_ext. intros b _.
  rewrite <- sum_n_scal_l. apply sum_n_ext. intros c _.
  rewrite coeff_same. destruct (Hg f p t c b Hf) as (_ & _ & ->). ring.
Qed.

Hypothesis k_nonzero : k <> 0.

Lemma scaled_invert (s T : R) :
  k * s * invert_no_zero (k * T) = s * invert_no_zero T.
Proof.
  unfold invert_no_zero.
  destruct (Req_dec_T T 0) as [E|N].
  - subst. rewrite Rmult_0_r.
    destruct (Req_dec_T 0 0) as [_|N]; [ring | contradiction N; reflexivity].
  - destruct (Req_dec_T (k * T) 0) as [E|_].
    + apply Rmult_integral in E. destruct E; contradiction.
    + field. split; assumption.
Qed.

(** After the normaliser the two runs hold the same coefficients. *)
Lemma normalize_rel (g g' : grids) :
  grids_rel F k g g' ->
  forall f p t x y, F f ->
    vdr (normalize cfg' geo g') f p t x y = vdr (normalize cfg geo g) f p t x y
    /\ wgh (normalize cfg' geo g') f p t x y = wgh (normalize cfg geo g) f p t x y
    /\ smp (normalize cfg' geo g') f p t x y = smp (normalize cfg geo g) f p t x y.
Proof.
  intros Hg f p t x y Hf. destruct (Hg f p t x y Hf) as (A & B & D).
  unfold normalize. simpl. repeat split; try assumption.
  rewrite (sum_dot_rel g g' f p t Hg Hf), D. apply scaled_invert.
Qed.

End Simulation.

(* ------------------------------------------------------------------ *)
(** * The synthesiser reads one frequency at a time *)

Lemma pa_same (cfg cfg' : config) (geo : geometry) (wv : R) (b j : nat) :
  npix cfg' = npix cfg -> span cfg' = span cfg ->
  pa cfg' geo wv b j = pa cfg geo wv b j.
Proof.
  intros Hn Hs. unfold pa, el. rewrite Hn, Hs. reflexivity.
Qed.

Lemma synthesize_same (cfg cfg' : config) (ds ds' : sidereal_stream) (geo : geometry)
    (g g' : grids) (f : nat) :
  npix cfg' = npix cfg -> span cfg' = span cfg -> intracyl cfg' = intracyl cfg ->
  freq ds' f = freq ds f ->
  (forall p t x y,
     vdr g' f p t x y = vdr g f p t x y
     /\ wgh g' f p t x y = wgh g f p t x y
     /\ smp g' f p t x y = smp g f p t x y) ->
  forall p t,
    rm_rms (synthesize cfg' ds' geo g') f p t = rm_rms (synthesize cfg ds geo g) f p t
    /\ forall m j,
         rm_map (synthesize cfg' ds' geo g') f p t m j
         = rm_map (synthesize cfg ds geo g) f p t m j
         /\ rm_dirty_beam (synthesize cfg' ds' geo g') f p t m j
            = rm_dirty_beam (synthesize cfg ds geo g) f p t m j.
Proof.
  intros Hn Hs Hi Hf Hg p t. simpl. split.
  - unfold rms_of, sum_dot. f_equal.
    apply sum_n_ext. intros b _. apply sum_n_ext. intros c _.
    destruct (Hg p t c b) as (_ & -> & ->).
    rewrite (coeff_same cfg cfg' Hi). reflexivity.
  - intros m j. unfold bfm_of, sb_of, dot_pa. rewrite Hf.
    split; f_equal; apply irfft_ext; intros c; apply Csum_n_ext; intros b _;
      destruct (Hg p t c b) as (E1 & _ & E3); rewrite ?E1, E3;
      rewrite (pa_same cfg cfg' geo _ b j Hn Hs); reflexivity.
Qed.

Lemma mapM_length {A B : Type} (f : A -> result B) (l : list A) (r : list B) :
  mapM f l = Ok r -> List.length r = List.length l.
Proof.
  revert r. induction l as [|a l IH]; simpl; intros r H.
  - injection H as <-. reflexivity.
  - destruct (f a) as [b|e]; [|discriminate H]. simpl in H.
    destruct (mapM f l) as [bs|e]; [|discriminate H]. simpl in H.
    injection H as <-. simpl. rewrite (IH bs eq_refl). reflexivity.
Qed.

(** The loop has one turn for every product of the input. *)
Lemma classify_length (tel : telescope) (ds : sidereal_stream) (geo : geometry) :
  classify tel ds = Ok geo -> List.length (feed_index geo) = List.length (prod ds).
Proof.
  intros H. apply classify_ok in H.
  destruct H as (tri & q & l & x & xs & Hm & _ & _ & _ & _ & _ & _ & _ & ->).
  rewrite !length_combine, !length_map, !Nat.min_id.
  apply (mapM_length _ _ _ Hm).
Qed.

(** Two configurations that differ in the weighting only, on the same
    input: if at every turn of the loop the second selects [k] times the
    coefficient of the first, the two runs of the packer end with the same
    exception, or with the same visibilities and weights and with
    coefficients in the ratio [k]. *)
Lemma packing_sim (cfg cfg' : config) (tel : telescope) (ds : sidereal_stream)
    (geo : geometry) (k : R) :
  intracyl cfg' = intracyl cfg ->
  classify tel ds = Ok geo ->
  (forall j, (j < List.length (prod ds))%nat ->
             sel_rel (fun _ => True) k (select_w cfg tel ds j) (select_w cfg' tel ds j)) ->
  run_rel (fun _ => True) k (unpack_all cfg tel ds geo) (unpack_all cfg' tel ds geo).
Proof.
  intros Hi Hc Hsel. unfold unpack_all.
  apply (unpack_from_rel cfg cfg' tel tel ds ds geo (fun _ => True) k Hi
           (fun f i t _ => eq_refl) (fun f i t _ => eq_refl)).
  - intros j Hj. apply Hsel. rewrite <- (classify_length _ _ _ Hc). lia.
  - apply zeros_rel.
Qed.

(** Two configurations that differ in the weighting only, on the same
    input: if at every turn of the loop the second selects [k] times the
    coefficient of the first, with [k] not zero, the two runs end alike. *)
Lemma weighting_sim (cfg cfg' : config) (tel : telescope) (ds : sidereal_stream) (k : R) :
  npix cfg' = npix cfg -> span cfg' = span cfg -> intracyl cfg' = intracyl cfg ->
  k <> 0 ->
  (forall j, (j < List.length (prod ds))%nat ->
             sel_rel (fun _ => True) k (select_w cfg tel ds j) (select_w cfg' tel ds j)) ->
  same_outcome cfg cfg' tel ds.
Proof.
  intros Hn Hs Hi Hk Hsel. unfold same_outcome, process, weighted.
  destruct (classify tel ds) as [geo|e] eqn:Hc; simpl; [|repeat split].
  assert (Hrun : run_rel (fun _ => True) k (unpack_all cfg tel ds geo)
                         (unpack_all cfg' tel ds geo)).
  { unfold unpack_all.
    apply (unpack_from_rel cfg cfg' tel tel ds ds geo (fun _ => True) k Hi
             (fun f i t _ => eq_refl) (fun f i t _ => eq_refl)).
    - intros j Hj. apply Hsel. rewrite <- (classify_length _ _ _ Hc). lia.
    - apply zeros_rel. }
  unfold packed.
  destruct (unpack_all cfg tel ds geo) as [g|e g], (unpack_all cfg' tel ds geo) as [g'|e' g'];
    simpl in Hrun; try contradiction; simpl.
  - pose proof (remove_auto_rel cfg cfg' (fun _ => True) k Hi g g' Hrun) as Hr.
    pose proof (normalize_rel cfg cfg' geo (fun _ => True) k Hi Hk _ _ Hr) as Hnr.
    split; [reflexivity|]. split.
    + intros f p t x y. apply (Hnr f p t x y I).
    + eexists. eexists. split; [reflexivity|]. split; [reflexivity|].
      intros f p t m j.
      apply (synthesize_same cfg cfg' ds ds geo _ _ f Hn Hs Hi eq_refl).
      intros p0 t0 x y. apply (Hnr f p0 t0 x y I).
  - subst e'. repeat split.
Qed.

(* ------------------------------------------------------------------ *)
(** * The three weightings *)

(** C6, as the code has it.  Take an input whose baselines all have
    redundancy 1 and whose weight samples all equal one positive constant
    [c0], and the three weightings with the other properties of the task the
    same.  The runs with 'uniform' and with 'natural' end alike: they fail
    with the same exception, or they pack the same arrays and give the same
    normalised coefficients, the same map and the same dirty beam.  The run
    with 'inverse_variance' fails with the same exception as the run with
    'uniform', or it packs the same visibilities and weights and [c0] times
    the coefficients; the factor [c0] cancels in the normaliser in exact
    arithmetic, where the normalised coefficients, the map and the dirty beam
    are those of the run with 'uniform'.  (In binary64 it need not cancel,
    as the example after the next shows.) *)
Theorem C6_weighting_schemes_agree (np : nat) (sp : R) (ic : bool) (tel : telescope)
    (ds : sidereal_stream) (c0 : R) :
  0 < c0 ->
  (forall f i t, weight ds f i t = c0) ->
  (forall i, (i < List.length (prod ds))%nat -> nth_error (redundancy tel) i = Some 1%Z) ->
  same_outcome (mk_config np sp "uniform" ic) (mk_config np sp "natural" ic) tel ds
  /\ same_outcome (mk_config np sp "uniform" ic) (mk_config np sp "inverse_variance" ic) tel ds
  /\ forall geo,
       classify tel ds = Ok geo ->
       run_rel (fun _ => True) 1
               (unpack_all (mk_config np sp "uniform" ic) tel ds geo)
               (unpack_all (mk_config np sp "natural" ic) tel ds geo)
       /\ run_rel (fun _ => True) c0
                  (unpack_all (mk_config np sp "uniform" ic) tel ds geo)
                  (unpack_all (mk_config np sp "inverse_variance" ic) tel ds geo).
Proof.
  intros Hc0 Hw Hr.
  assert (S1 : forall j, (j < List.length (prod ds))%nat ->
                 sel_rel (fun _ => True) 1
                   (select_w (mk_config np sp "uniform" ic) tel ds j)
                   (select_w (mk_config np sp "natural" ic) tel ds j)).
  { intros j Hj. unfold select_w. simpl. rewrite (Hr j Hj). simpl.
    intros f t _. ring. }
  assert (S2 : forall j, (j < List.length (prod ds))%nat ->
                 sel_rel (fun _ => True) c0
                   (select_w (mk_config np sp "uniform" ic) tel ds j)
                   (select_w (mk_config np sp "inverse_variance" ic) tel ds j)).
  { intros j Hj. unfold select_w. simpl.
    intros f t _. rewrite Hw. ring. }
  split; [|split].
  - apply (weighting_sim _ _ tel ds 1); try reflexivity; [lra | exact S1].
  - apply (weighting_sim _ _ tel ds c0); try reflexivity; [lra | exact S2].
  - intros geo Hc. split.
    + apply packing_sim; [reflexivity | exact Hc | exact S1].
    + apply packing_sim; [reflexivity | exact Hc | exact S2].
Qed.

Lemma C6_witness :
  0 < 3
  /\ (forall f i t, weight ds_a f i t = 3)
  /\ (forall i, (i < List.length (prod ds_a))%nat -> nth_error (redundancy tel_a) i = Some 1%Z)
  /\ same_outcome (cfg_a "uniform") (cfg_a "natural") tel_a ds_a
  /\ same_outcome (cfg_a "uniform") (cfg_a "inverse_variance") tel_a ds_a
  /\ run_rel (fun _ => True) 3
             (unpack_all (cfg_a "uniform") tel_a ds_a geo_a)
             (unpack_all (cfg_a "inverse_variance") tel_a ds_a geo_a).
Proof.
  assert (H1 : 0 < 3) by lra.
  assert (H2 : forall f i t, weight ds_a f i t = 3) by reflexivity.
  assert (H3 : forall i, (i < List.length (prod ds_a))%nat ->
                         nth_error (redundancy tel_a) i = Some 1%Z).
  { intros i Hi. simpl in Hi.
    destruct i as [|[|[|i]]]; try reflexivity. lia. }
  split; [exact H1|]. split; [exact H2|]. split; [exact H3|].
  destruct (C6_weighting_schemes_agree 4 1 true tel_a ds_a 3 H1 H2 H3) as (A & B & D).
  split; [exact A|]. split; [exact B|].
  exact (proj2 (D geo_a classify_a)).
Defined.

(** C6, as the specification states it, fails.  With every weight sample
    equal to 49 the packer leaves the coefficients 1 and 1 with the weighting
    'uniform' and 49 and 49 with 'inverse_variance', at cylinder separation 1
    of the pixel of polarisation 0.  The totals are 4 and 196.  The
    normalised coefficient is [1 * (1/4) = 0.25] in the first run and
    [49 * (1/196) = 0.24999999999999997] in the second: the reciprocal of 196
    is rounded, and so is its product with 49. *)
Lemma C6_counterexample :
  exists gu gi,
    classify tel_a ds_49 = Ok geo_a
    /\ (0 < 49 /\ forall f i t, weight ds_49 f i t = 49)
    /\ packed (cfg_a "uniform") tel_a ds_49 geo_a = Ok gu
    /\ packed (cfg_a "inverse_variance") tel_a ds_49 geo_a = Ok gi
    /\ (forall f p t c b,
          smp (remove_auto (cfg_a "uniform") gu) f p t c b = IZR (smp_u f p t c b))
    /\ (forall f p t c b,
          smp (remove_auto (cfg_a "inverse_variance") gi) f p t c b = IZR (smp_iv f p t c b))
    /\ sum_dot_b64 (cfg_a "uniform") geo_a (b64_grid smp_u) 0 0 0 = 4%float
    /\ sum_dot_b64 (cfg_a "inverse_variance") geo_a (b64_grid smp_iv) 0 0 0 = 196%float
    /\ normalize_b64 (cfg_a "uniform") geo_a (b64_grid smp_u) 0%nat 0%nat 0%nat 1%nat 1%nat
       = 0.25%float
    /\ normalize_b64 (cfg_a "inverse_variance") geo_a (b64_grid smp_iv)
         0%nat 0%nat 0%nat 1%nat 1%nat
       = 0x1.fffffffffffffp-3%float
    /\ (0x1.fffffffffffffp-3 =? 0.25)%float = false.
Proof.
  eexists. eexists. split; [vm_compute; reflexivity|].
  split; [split; [lra | reflexivity]|].
  split; [vm_compute; reflexivity|].
  split; [vm_compute; reflexivity|].
  split.
  { intros f p t c b.
    destruct p as [|p]; destruct c as [|[|c]]; destruct b as [|[|[|b]]];
      cbv -[Rplus Rmult IZR]; lra. }
  split.
  { intros f p t c b.
    destruct p as [|p]; destruct c as [|[|c]]; destruct b as [|[|[|b]]];
      cbv -[Rplus Rmult IZR]; lra. }
  repeat split; vm_compute; reflexivity.
Qed.

(* ------------------------------------------------------------------ *)
(** * Frequency channels *)

Lemma classify_prod (tel : telescope) (ds ds' : sidereal_stream) :
  prod ds' = prod ds -> classify tel ds' = classify tel ds.
Proof. intros H. unfold classify. rewrite H. reflexivity. Qed.





(* ------------------------------------------------------------------ *)
(** * Rounding to the nearest integer *)

Lemma Qfloor_unique (q : Q) (z : Z) :
  (inject_Z z <= q)%Q -> (q < inject_Z (z + 1))%Q -> Qfloor q = z.
Proof.
  intros H1 H2.
  assert (A : (z <= Qfloor q)%Z).
  { rewrite <- (Qfloor_Z z). apply Qfloor_resp_le. exact H1. }
  assert (B : (Qfloor q < z + 1)%Z).
  { rewrite Zlt_Qlt. eapply Qle_lt_trans; [apply Qfloor_le | exact H2]. }
  lia.
Qed.

Lemma np_round_int_cases (q : Q) :
  (inject_Z (Qfloor q) <= q)%Q /\ (q < inject_Z (Qfloor q) + 1)%Q
  /\ (((q - inject_Z (Qfloor q) < 1 # 2)%Q /\ np_round_int q = Qfloor q)
      \/ (((1 # 2) < q - inject_Z (Qfloor q))%Q /\ np_round_int q = (Qfloor q + 1)%Z)
      \/ ((q - inject_Z (Qfloor q) == 1 # 2)%Q
          /\ np_round_int q = (if Z.even (Qfloor q) then Qfloor q else (Qfloor q + 1)%Z))).
Proof.
  split; [apply Qfloor_le|]. split.
  { pose proof (Qlt_floor q) as H. rewrite inject_Z_plus in H. exact H. }
  unfold np_round_int.
  destruct (Qcompare_spec (q - inject_Z (Qfloor q)) (1 # 2)) as [E|L|G].
  - right. right. split; [exact E | reflexivity].
  - left. split; [exact L | reflexivity].
  - right. left. split; [exact G | reflexivity].
Qed.

Lemma np_round_int_near (q : Q) : (Qabs (inject_Z (np_round_int q) - q) <= 1 # 2)%Q.
Proof.
  destruct (np_round_int_cases q) as (Hl & Hu & [[H ->]|[[H ->]|[H E]]]).
  - apply Qabs_Qle_condition. split; Lqa.lra.
  - rewrite inject_Z_plus. change (inject_Z 1) with 1%Q.
    apply Qabs_Qle_condition. split; Lqa.lra.
  - rewrite E. destruct (Z.even (Qfloor q)).
    + apply Qabs_Qle_condition. split; Lqa.lra.
    + rewrite inject_Z_plus. change (inject_Z 1) with 1%Q.
      apply Qabs_Qle_condition. split; Lqa.lra.
Qed.

Lemma np_round_int_mono (q q' : Q) : (q <= q')%Q -> (np_round_int q <= np_round_int q')%Z.
Proof.
  intros H.
  pose proof (Qfloor_resp_le _ _ H) as F.
  destruct (Z.eq_dec (Qfloor q) (Qfloor q')) as [E|N].
  - destruct (np_round_int_cases q) as (Hl & Hu & [[A ->]|[[A ->]|[A ->]]]);
      destruct (np_round_int_cases q') as (Hl' & Hu' & [[A' ->]|[[A' ->]|[A' ->]]]);
      rewrite <- ?E in *; try lia; try (exfalso; Lqa.lra);
      destruct (Z.even (Qfloor q)); lia.
  - assert (Qfloor q + 1 <= Qfloor q')%Z by lia.
    destruct (np_round_int_cases q) as (_ & _ & [[_ ->]|[[_ ->]|[_ ->]]]);
      destruct (np_round_int_cases q') as (_ & _ & [[_ ->]|[[_ ->]|[_ ->]]]);
      try lia; repeat match goal with |- context [Z.even ?z] => destruct (Z.even z) end; lia.
Qed.

Lemma np_round_int_comp (q q' : Q) : (q == q')%Q -> np_round_int q = np_round_int q'.
Proof.
  intros H. apply Z.le_antisymm; apply np_round_int_mono; rewrite H; apply Qle_refl.
Qed.

Lemma np_round_int_opp (q : Q) : np_round_int (- q) = (- np_round_int q)%Z.
Proof.
  destruct (np_round_int_cases q) as (Hl & Hu & Hc).
  destruct (Qeq_dec q (inject_Z (Qfloor q))) as [E|N].
  - (* [q] is an integer *)
    assert (I : (inject_Z (- Qfloor q) == - inject_Z (Qfloor q))%Q)
      by (rewrite inject_Z_opp; reflexivity).
    assert (F : Qfloor (- q) = (- Qfloor q)%Z).
    { apply Qfloor_unique; rewrite ?inject_Z_plus; change (inject_Z 1) with 1%Q; Lqa.lra. }
    destruct (np_round_int_cases (- q)) as (Hl' & Hu' & Hc').
    rewrite F in Hc'.
    destruct Hc as [[A ->]|[[A _]|[A _]]]; try (exfalso; Lqa.lra).
    destruct Hc' as [[A' ->]|[[A' _]|[A' _]]]; try (exfalso; Lqa.lra).
    reflexivity.
  - assert (I : (inject_Z (- Qfloor q - 1) == - inject_Z (Qfloor q) - 1)%Q).
    { unfold Z.sub. rewrite inject_Z_plus, inject_Z_opp. reflexivity. }
    assert (L : (inject_Z (Qfloor q) < q)%Q).
    { apply Qle_lteq in Hl. destruct Hl as [L|L]; [exact L|].
      contradiction N. symmetry. exact L. }
    assert (F : Qfloor (- q) = (- Qfloor q - 1)%Z).
    { apply Qfloor_unique; rewrite ?inject_Z_plus; change (inject_Z 1) with 1%Q; Lqa.lra. }
    destruct (np_round_int_cases (- q)) as (Hl' & Hu' & Hc').
    rewrite F in Hc'.
    destruct Hc as [[A ->]|[[A ->]|[A ->]]];
      destruct Hc' as [[A' ->]|[[A' ->]|[A' ->]]]; try (exfalso; Lqa.lra); try lia.
    replace (- Qfloor q - 1)%Z with (- (Qfloor q + 1))%Z by lia.
    rewrite Z.even_opp, Z.even_add. simpl.
    destruct (Z.even (Qfloor q)); simpl; lia.
Qed.

(* ------------------------------------------------------------------ *)
(** * The index triples of the classifier *)

Lemma combine3_map {A : Type} (f g : A -> Z) (h : A -> Z) (l : list A) :
  combine (combine (map f l) (map g l)) (map h l) = map (fun a => (f a, g a, h a)) l.
Proof.
  induction l as [|a l IH]; simpl; [reflexivity | rewrite IH; reflexivity].
Qed.

(** The loop over the products yields one triple per product; the row bin
    is the rounded quotient of the row separation by the least one. *)
Lemma classify_entries (tel : telescope) (ds : sidereal_stream) (geo : geometry) :
  classify tel ds = Ok geo ->
  exists tri,
    mapM (baseline_geometry tel) (prod ds) = Ok tri
    /\ feed_index geo
       = map (fun t => (fst (fst t), snd (fst t), np_round_int (snd t / min_ysep geo))) tri.
Proof.
  intros H. apply classify_ok in H.
  destruct H as (tri & q & l & x & xs & Hm & _ & _ & Hmin & _ & _ & _ & _ & Hf).
  exists tri. split; [exact Hm|].
  rewrite Hf, Hmin, map_map. apply combine3_map.
Qed.

Lemma mapM_Forall {A B : Type} (f : A -> result B) (P : B -> Prop) (l : list A) :
  (forall a b, In a l -> f a = Ok b -> P b) ->
  forall r, mapM f l = Ok r -> Forall P r.
Proof.
  induction l as [|a l IH]; simpl; intros H r Hr.
  - injection Hr as <-. constructor.
  - destruct (f a) as [b|e] eqn:Ea; [|discriminate Hr]. simpl in Hr.
    destruct (mapM f l) as [bs|e] eqn:El; [|discriminate Hr]. simpl in Hr.
    injection Hr as <-. constructor.
    + apply (H a b); [left; reflexivity | exact Ea].
    + apply IH; [|reflexivity]. intros a' b' Hin. apply H. right. exact Hin.
Qed.

Lemma is_S_range (f : feed) : (0 <= is_S f <= 1)%Z.
Proof. unfold is_S. destruct (String.eqb (pol f) "S"); lia. Qed.

Lemma baseline_geometry_range (tel : telescope) (pr : nat * nat) (t : Z * Z * Q) :
  baseline_geometry tel pr = Ok t ->
  (0 <= fst (fst t) <= 3)%Z /\ (0 <= snd (fst t))%Z.
Proof.
  unfold baseline_geometry.
  destruct (nth_error (feeds tel) (fst pr)) as [fi|]; [|discriminate].
  destruct (nth_error (feeds tel) (snd pr)) as [fj|]; [|discriminate].
  intros H.
  assert (E : t = ((2 * is_S fi + is_S fj)%Z, Z.abs (cyl fi - cyl fj),
                   (pos_y fi - pos_y fj)%Q)) by congruence.
  rewrite E. cbn [fst snd].
  pose proof (is_S_range fi). pose proof (is_S_range fj). lia.
Qed.

Lemma fold_zmax_In (l : list Z) (a : Z) :
  forall x, (a <= x)%Z \/ In a l -> (a <= fold_left Z.max l x)%Z.
Proof.
  induction l as [|b l IH]; intros x H; simpl.
  - destruct H as [H|[]]. exact H.
  - apply IH. destruct H as [H|[E|H]]; [left; lia | left; lia | right; exact H].
Qed.

Lemma fold_qmax_In (l : list Q) (a : Q) :
  forall x, (a <= x)%Q \/ In a l -> (a <= fold_left Qmax l x)%Q.
Proof.
  induction l as [|b l IH]; intros x H; simpl.
  - destruct H as [H|[]]. exact H.
  - apply IH. destruct H as [H|[E|H]].
    + left. eapply Qle_trans; [exact H | apply Q.le_max_l].
    + left. subst. apply Q.le_max_r.
    + right. exact H.
Qed.

Lemma fold_qmin_In (l : list Q) (a : Q) :
  forall x, (x <= a)%Q \/ In a l -> (fold_left Qmin l x <= a)%Q.
Proof.
  induction l as [|b l IH]; intros x H; simpl.
  - destruct H as [H|[]]. exact H.
  - apply IH. destruct H as [H|[E|H]].
    + left. eapply Qle_trans; [apply Q.le_min_l | exact H].
    + left. subst. apply Q.le_min_r.
    + right. exact H.
Qed.

(** A separation that is not zero lies between the two percentiles. *)
Lemma nonzero_abs_In (ysep : list Q) (ys : Q) :
  In ys ysep -> ~ (ys == 0)%Q -> In (Qabs ys) (nonzero_abs ysep).
Proof.
  intros Hin Hn. unfold nonzero_abs. apply filter_In. split.
  - apply in_map. exact Hin.
  - destruct (Qcompare_spec (Qabs ys) 0) as [E|L|G]; [| |reflexivity]; exfalso.
    + apply Hn. revert E. apply Qabs_case; intros; Lqa.lra.
    + pose proof (Qabs_nonneg ys). Lqa.lra.
Qed.

(** The quantities of a successful classification, with the bounds the
    percentiles give. *)
Lemma classify_bounds (tel : telescope) (ds : sidereal_stream) (geo : geometry) :
  classify tel ds = Ok geo ->
  exists tri mx,
    mapM (baseline_geometry tel) (prod ds) = Ok tri
    /\ feed_index geo
       = map (fun t => (fst (fst t), snd (fst t), np_round_int (snd t / min_ysep geo))) tri
    /\ (0 < min_ysep geo)%Q /\ (min_ysep geo <= mx)%Q
    /\ nfeed geo = np_round_int (mx / min_ysep geo)
    /\ Forall (fun t => (snd t == 0)%Q
                       \/ ((min_ysep geo <= Qabs (snd t))%Q /\ (Qabs (snd t) <= mx)%Q)) tri
    /\ Forall (fun t => (0 <= fst (fst t) <= 3)%Z /\ (0 <= snd (fst t) < ncyl geo)%Z) tri.
Proof.
  intros H. destruct (classify_entries _ _ _ H) as (tri & Hm & Hf).
  apply classify_ok in H.
  destruct H as (tri' & q & l & x & xs & Hm' & El & Ex & Hmin & Hn & _ & Hc & _ & _).
  assert (tri' = tri) by congruence. subst tri'.
  exists tri, (fold_left Qmax l q).
  pose proof (nonzero_abs_pos (map (fun t => snd t) tri)) as P. rewrite El in P.
  inversion P as [|? ? Pq Pl]; subst.
  split; [exact Hm|]. split; [exact Hf|].
  split; [rewrite Hmin; apply fold_min_pos; assumption|].
  split; [rewrite Hmin; eapply Qle_trans; [apply fold_min_le | apply fold_max_ge]|].
  split; [rewrite Hn, Hmin; reflexivity|]. split.
  - apply Forall_forall. intros t Ht.
    destruct (Qeq_dec (snd t) 0) as [E|N]; [left; exact E | right].
    assert (I : In (Qabs (snd t)) (q :: l)).
    { rewrite <- El. apply nonzero_abs_In; [|exact N].
      apply (in_map (fun t => snd t)). exact Ht. }
    rewrite Hmin. split.
    + apply fold_qmin_In. destruct I as [<-|I]; [left; apply Qle_refl | right; exact I].
    + apply fold_qmax_In. destruct I as [<-|I]; [left; apply Qle_refl | right; exact I].
  - apply Forall_forall. intros t Ht.
    assert (R : (0 <= fst (fst t) <= 3)%Z /\ (0 <= snd (fst t))%Z).
    { pose proof (mapM_Forall (baseline_geometry tel)
                    (fun t => (0 <= fst (fst t) <= 3)%Z /\ (0 <= snd (fst t))%Z) (prod ds)
                    (fun a b _ E => baseline_geometry_range tel a b E) tri Hm) as G.
      rewrite Forall_forall in G. apply G. exact Ht. }
    destruct R as (Rp & Rx). split; [exact Rp|]. split; [exact Rx|].
    assert (I : In (Z.abs (snd (fst t))) (x :: xs)).
    { rewrite <- Ex. apply in_map. apply (in_map (fun t => snd (fst t))). exact Ht. }
    rewrite Hc.
    assert (Z.abs (snd (fst t)) <= fold_left Z.max xs x)%Z.
    { apply fold_zmax_In. destruct I as [<-|I]; [left; lia | right; exact I]. }
    lia.
Qed.

Lemma Qdiv_le_compat (a b m : Q) : (0 < m)%Q -> (a <= b)%Q -> (a / m <= b / m)%Q.
Proof.
  intros Hm H. unfold Qdiv. apply Qmult_le_compat_r; [exact H|].
  apply Qlt_le_weak, Qinv_lt_0_compat, Hm.
Qed.

Lemma Qabs_bounds (a : Q) : (- Qabs a <= a)%Q /\ (a <= Qabs a)%Q.
Proof. apply Qabs_case; intros; split; Lqa.lra. Qed.

(** The row bin of a separation between the percentiles lies within
    [nfeed] of zero. *)
Lemma ybin_bounds (mn mx ys : Q) :
  (0 < mn)%Q -> (mn <= mx)%Q ->
  (ys == 0)%Q \/ ((mn <= Qabs ys)%Q /\ (Qabs ys <= mx)%Q) ->
  (- np_round_int (mx / mn) <= np_round_int (ys / mn) <= np_round_int (mx / mn))%Z.
Proof.
  intros Hmn Hmx H.
  assert (N1 : (1 <= np_round_int (mx / mn))%Z).
  { apply np_round_int_ge_1. apply Qle_shift_div_l; [exact Hmn | Lqa.lra]. }
  destruct H as [E|[_ H]].
  - assert (Z0 : np_round_int (ys / mn) = 0%Z).
    { rewrite (np_round_int_comp (ys / mn) 0); [reflexivity|].
      rewrite E. unfold Qdiv. apply Qmult_0_l. }
    lia.
  - destruct (Qabs_bounds ys) as (B1 & B2). split.
    + rewrite <- np_round_int_opp. apply np_round_int_mono.
      assert (Hd : (- (mx / mn) == (- mx) / mn)%Q) by (unfold Qdiv; ring).
      rewrite Hd. apply Qdiv_le_compat; [exact Hmn | Lqa.lra].
    + apply np_round_int_mono. apply Qdiv_le_compat; [exact Hmn | Lqa.lra].
Qed.

(** The row bin is 0 for a separation of zero and for no other. *)
Lemma ybin_zero (mn ys : Q) :
  (0 < mn)%Q -> (ys == 0)%Q \/ (mn <= Qabs ys)%Q ->
  (np_round_int (ys / mn) = 0%Z <-> (ys == 0)%Q).
Proof.
  intros Hmn H. split.
  - intros Hr. destruct H as [E|H]; [exact E|]. exfalso.
    revert H. apply Qabs_case; intros Hs H.
    + assert (1 <= np_round_int (ys / mn))%Z; [|lia].
      apply np_round_int_ge_1. apply Qle_shift_div_l; [exact Hmn | Lqa.lra].
    + assert (1 <= np_round_int (- (ys / mn)))%Z.
      { apply np_round_int_ge_1.
        assert (Hd : (- (ys / mn) == (- ys) / mn)%Q) by (unfold Qdiv; ring).
        rewrite Hd. apply Qle_shift_div_l; [exact Hmn | Lqa.lra]. }
      rewrite np_round_int_opp in H0. lia.
  - intros E. rewrite (np_round_int_comp (ys / mn) 0); [reflexivity|].
    rewrite E. unfold Qdiv. apply Qmult_0_l.
Qed.

(** The index triples of a successful classification, with their ranges. *)
Lemma feed_index_ranges (tel : telescope) (ds : sidereal_stream) (geo : geometry) :
  classify tel ds = Ok geo ->
  Forall (fun ind => (0 <= fst (fst ind) <= 3)%Z
                     /\ (0 <= snd (fst ind) < ncyl geo)%Z
                     /\ (- nfeed geo <= snd ind <= nfeed geo)%Z)
         (feed_index geo).
Proof.
  intros H.
  destruct (classify_bounds _ _ _ H) as (tri & mx & _ & -> & Hmn & Hmx & -> & Hy & Hpx).
  apply Forall_forall. intros ind Hin.
  apply in_map_iff in Hin. destruct Hin as (t & <- & Ht).
  rewrite Forall_forall in Hy, Hpx.
  destruct (Hpx t Ht) as (Hp & Hx). cbn [fst snd].
  split; [exact Hp|]. split; [exact Hx|].
  apply ybin_bounds; [exact Hmn | exact Hmx | apply Hy; exact Ht].
Qed.

(** X1.  Every index triple the classifier produces is inside the arrays
    on the polarisation and the cylinder axes, where it addresses the
    position of its own number, and its row bin lies between [-nfeed] and
    [nfeed]. *)
Theorem classify_index_ranges (tel : telescope) (ds : sidereal_stream) (geo : geometry) :
  classify tel ds = Ok geo ->
  forall p x y,
    In (p, x, y) (feed_index geo) ->
    (0 <= p <= 3)%Z /\ (0 <= x < ncyl geo)%Z /\ (- nfeed geo <= y <= nfeed geo)%Z
    /\ norm_index npol p = Some (Z.to_nat p)
    /\ norm_index (ncyl geo) x = Some (Z.to_nat x).
Proof.
  intros H p x y Hin.
  pose proof (feed_index_ranges tel ds geo H) as R.
  rewrite Forall_forall in R. destruct (R _ Hin) as (Hp & Hx & Hy). cbn [fst snd] in *.
  split; [exact Hp|]. split; [exact Hx|]. split; [exact Hy|].
  unfold norm_index, npol. split.
  - destruct (Z.leb_spec 0 p), (Z.ltb_spec p 4); cbn [andb]; try lia; reflexivity.
  - destruct (Z.leb_spec 0 x), (Z.ltb_spec x (ncyl geo)); cbn [andb]; try lia; reflexivity.
Qed.

(** X2.  The least row separation is positive; the row bin of a baseline
    is 0 exactly when its row separation is zero, it is at least 1 when the
    row separation is positive and at most -1 when it is negative. *)
Theorem classify_row_bins (tel : telescope) (ds : sidereal_stream) (geo : geometry) :
  classify tel ds = Ok geo ->
  (0 < min_ysep geo)%Q
  /\ exists tri,
       mapM (baseline_geometry tel) (prod ds) = Ok tri
       /\ Forall2 (fun t ind =>
                     fst ind = fst t
                     /\ (snd ind = 0%Z <-> (snd t == 0)%Q)
                     /\ ((0 < snd t)%Q -> (1 <= snd ind)%Z)
                     /\ ((snd t < 0)%Q -> (snd ind <= -1)%Z))
                  tri (feed_index geo).
Proof.
  intros H.
  destruct (classify_bounds _ _ _ H) as (tri & mx & Hm & Hf & Hmn & Hmx & _ & Hy & _).
  split; [exact Hmn|]. exists tri. split; [exact Hm|].
  rewrite Hf. clear Hf Hm.
  induction Hy as [|t tri Ht _ IH]; simpl; constructor; [|exact IH].
  cbn [fst snd]. split; [destruct t as [[p x] ys]; reflexivity|].
  assert (Ht' : (snd t == 0)%Q \/ (min_ysep geo <= Qabs (snd t))%Q)
    by (destruct Ht as [E|[L _]]; [left; exact E | right; exact L]).
  split; [apply ybin_zero; [exact Hmn | exact Ht']|].
  split; intros Hs; destruct Ht' as [E|L]; try (rewrite E in Hs; Lqa.lra).
  - apply np_round_int_ge_1. apply Qle_shift_div_l; [exact Hmn|].
    rewrite Qabs_pos in L by Lqa.lra. Lqa.lra.
  - assert (N : (1 <= np_round_int (- (snd t / min_ysep geo)))%Z).
    { apply np_round_int_ge_1.
      assert (Hd : (- (snd t / min_ysep geo) == (- snd t) / min_ysep geo)%Q)
        by (unfold Qdiv; ring).
      rewrite Hd. apply Qle_shift_div_l; [exact Hmn|].
      rewrite Qabs_neg in L by Lqa.lra. Lqa.lra. }
    rewrite np_round_int_opp in N. lia.
Qed.

(** X3.  Exchanging the two feeds of a product exchanges the two bits of
    the polarisation index, keeps the cylinder separation and negates the row
    separation and, for every scale, the row bin. *)
Theorem baseline_geometry_swap (tel : telescope) (i j : nat) (p x : Z) (ys : Q) :
  baseline_geometry tel (i, j) = Ok (p, x, ys) ->
  exists p' ys',
    baseline_geometry tel (j, i) = Ok (p', x, ys')
    /\ p' = (2 * (p mod 2) + p / 2)%Z
    /\ (ys' == - ys)%Q
    /\ forall m, np_round_int (ys' / m) = (- np_round_int (ys / m))%Z.
Proof.
  unfold baseline_geometry. cbn [fst snd].
  destruct (nth_error (feeds tel) i) as [fi|]; [|discriminate].
  destruct (nth_error (feeds tel) j) as [fj|]; [|discriminate].
  intros H.
  assert (Ep : p = (2 * is_S fi + is_S fj)%Z) by congruence.
  assert (Ex : x = Z.abs (cyl fi - cyl fj)) by congruence.
  assert (Ey : ys = (pos_y fi - pos_y fj)%Q) by congruence.
  exists (2 * is_S fj + is_S fi)%Z, (pos_y fj - pos_y fi)%Q.
  assert (Hy : (pos_y fj - pos_y fi == - ys)%Q) by (rewrite Ey; ring).
  split; [|split; [|split; [exact Hy|]]].
  - rewrite Ex. do 3 f_equal. lia.
  - pose proof (is_S_range fi). pose proof (is_S_range fj). rewrite Ep.
    assert (is_S fi = 0 \/ is_S fi = 1)%Z as [-> | ->] by lia;
      assert (is_S fj = 0 \/ is_S fj = 1)%Z as [-> | ->] by lia; reflexivity.
  - intros m. rewrite <- np_round_int_opp. apply np_round_int_comp.
    rewrite Hy. unfold Qdiv. ring.
Qed.

(* ------------------------------------------------------------------ *)
(** * When the packing ends normally *)

Lemma norm_index_some (n i : Z) :
  (- n <= i < n)%Z -> exists a, norm_index n i = Some a.
Proof.
  intros H. unfold norm_index.
  destruct (Z.leb_spec 0 i), (Z.ltb_spec i n), (Z.leb_spec (- n) i), (Z.ltb_spec i 0);
    cbn [andb]; try lia; eexists; reflexivity.
Qed.

Lemma norm_index_none (n i : Z) :
  (n <= i)%Z -> (0 <= n)%Z -> norm_index n i = None.
Proof.
  intros H Hn. unfold norm_index.
  destruct (Z.leb_spec 0 i), (Z.ltb_spec i n), (Z.leb_spec (- n) i), (Z.ltb_spec i 0);
    cbn [andb]; try lia; reflexivity.
Qed.

Lemma cell_some (geo : geometry) (p x y : Z) :
  (0 <= p <= 3)%Z -> (0 <= x < ncyl geo)%Z -> (- nvis_1d geo <= y < nvis_1d geo)%Z ->
  exists c, cell geo p x y = Some c.
Proof.
  intros Hp Hx Hy. unfold cell.
  destruct (norm_index_some npol p) as (a & ->); [unfold npol; lia|].
  destruct (norm_index_some (ncyl geo) x) as (b & ->); [lia|].
  destruct (norm_index_some (nvis_1d geo) y) as (c & ->); [lia|].
  eexists. reflexivity.
Qed.

Lemma unpack_total (cfg : config) (tel : telescope) (ds : sidereal_stream)
    (geo : geometry) (i : nat) (ind : Z * Z * Z) (w : plane R) (g : grids) :
  select_w cfg tel ds i = Ok (Some w) ->
  (exists c, cell geo (fst (fst ind)) (snd (fst ind)) (snd ind) = Some c) ->
  (exists c, cell geo (fst (fst ind)) (snd (fst ind)) (- snd ind) = Some c) ->
  exists g', unpack cfg tel ds geo i ind g = Done g'.
Proof.
  intros Hw (c & Hc) (c' & Hc'). unfold unpack. rewrite Hw.
  destruct ((snd (fst ind) =? 0)%Z && intracyl cfg)%bool;
    unfold seq_stmt, set_vdr, set_wgh, set_smp; rewrite ?Hc, ?Hc'; eexists; reflexivity.
Qed.

Lemma unpack_from_total (cfg : config) (tel : telescope) (ds : sidereal_stream)
    (geo : geometry) (l : list (Z * Z * Z)) :
  Forall (fun ind =>
            (exists c, cell geo (fst (fst ind)) (snd (fst ind)) (snd ind) = Some c)
            /\ (exists c, cell geo (fst (fst ind)) (snd (fst ind)) (- snd ind) = Some c)) l ->
  forall i g,
    (forall j, (i <= j < i + List.length l)%nat ->
               exists w, select_w cfg tel ds j = Ok (Some w)) ->
    exists g', unpack_from cfg tel ds geo i l g = Done g'.
Proof.
  induction 1 as [|ind l (Hc & Hc') _ IH]; intros i g Hs; simpl.
  - exists g. reflexivity.
  - destruct (Hs i) as (w & Hw); [simpl; lia|].
    destruct (unpack_total cfg tel ds geo i ind w g Hw Hc Hc') as (g1 & H1).
    destruct (IH (S i) g1) as (g' & H'); [intros j Hj; apply Hs; simpl; lia|].
    exists g'. unfold seq_stmt. rewrite H1. exact H'.
Qed.

Lemma weighting_ready_select (cfg : config) (tel : telescope) (ds : sidereal_stream) (j : nat) :
  weighting_ready cfg tel ds -> (j < List.length (prod ds))%nat ->
  exists w, select_w cfg tel ds j = Ok (Some w).
Proof.
  intros H Hj. unfold select_w.
  destruct H as [E|[E|[E L]]]; rewrite E; simpl.
  - eexists. reflexivity.
  - eexists. reflexivity.
  - destruct (nth_error (redundancy tel) j) as [r|] eqn:En.
    + eexists. reflexivity.
    + apply nth_error_None in En. lia.
Qed.

(** X4.  When the classification succeeds with [nfeed] at least 2 and the
    weighting is recognised (with a redundancy for every product when it is
    'natural'), every assignment of the loop is inside the arrays and
    [process] returns a ring map. *)
Theorem process_succeeds (cfg : config) (tel : telescope) (ds : sidereal_stream)
    (geo : geometry) :
  classify tel ds = Ok geo ->
  (2 <= nfeed geo)%Z ->
  weighting_ready cfg tel ds ->
  exists rm, process cfg tel ds = Ok rm.
Proof.
  intros Hc Hn Hw.
  destruct (classify_shape _ _ _ Hc) as (_ & Hv & _ & _).
  pose proof (feed_index_ranges _ _ _ Hc) as Hr.
  assert (Hp : exists g, unpack_all cfg tel ds geo = Done g).
  { unfold unpack_all. apply unpack_from_total.
    - eapply Forall_impl; [|exact Hr]. intros ind (Hp & Hx & Hy).
      split; apply cell_some; try assumption; lia.
    - intros j Hj. apply weighting_ready_select; [exact Hw|].
      rewrite <- (classify_length _ _ _ Hc). lia. }
  destruct Hp as (g & Hg).
  unfold process, weighted, packed. rewrite Hc. simpl. rewrite Hg. simpl.
  eexists. reflexivity.
Qed.

(* ------------------------------------------------------------------ *)
(** * The exceptions of a run *)

Lemma select_w_raise (cfg : config) (tel : telescope) (ds : sidereal_stream) (i : nat) (e : exn) :
  select_w cfg tel ds i = Raise e -> e = "IndexError"%string.
Proof.
  unfold select_w.
  destruct (String.eqb (weighting cfg) "uniform"); [discriminate|].
  destruct (String.eqb (weighting cfg) "natural").
  - destruct (nth_error (redundancy tel) i); [discriminate | congruence].
  - destruct (String.eqb (weighting cfg) "inverse_variance"); discriminate.
Qed.

Lemma select_w_unbound (cfg : config) (tel : telescope) (ds : sidereal_stream) (i : nat) :
  select_w cfg tel ds i = Ok None <-> ~ recognised cfg.
Proof.
  unfold select_w, recognised.
  destruct (String.eqb_spec (weighting cfg) "uniform") as [E1|N1].
  { split; [discriminate | intros H; contradiction H; left; exact E1]. }
  destruct (String.eqb_spec (weighting cfg) "natural") as [E2|N2].
  { split; [destruct (nth_error (redundancy tel) i); discriminate
           | intros H; contradiction H; right; left; exact E2]. }
  destruct (String.eqb_spec (weighting cfg) "inverse_variance") as [E3|N3].
  { split; [discriminate | intros H; contradiction H; right; right; exact E3]. }
  split; [intros _ [H|[H|H]]; contradiction | reflexivity].
Qed.

Lemma set_vdr_abort (geo : geometry) (p x y : Z) (src : plane C) (g g' : grids) (e : exn) :
  set_vdr geo p x y src g = Abort e g' -> e = "IndexError"%string.
Proof. unfold set_vdr. destruct (cell geo p x y); [discriminate | congruence]. Qed.

Lemma set_wgh_abort (geo : geometry) (p x y : Z) (src : plane R) (g g' : grids) (e : exn) :
  set_wgh geo p x y src g = Abort e g' -> e = "IndexError"%string.
Proof. unfold set_wgh. destruct (cell geo p x y); [discriminate | congruence]. Qed.

Lemma set_smp_abort (geo : geometry) (p x y : Z) (w : option (plane R)) (g g' : grids) (e : exn) :
  set_smp geo p x y w g = Abort e g' ->
  e = "IndexError"%string \/ (e = "UnboundLocalError"%string /\ w = None).
Proof.
  unfold set_smp. destruct w; [|intros H; right; split; congruence].
  destruct (cell geo p x y); [discriminate | intros H; left; congruence].
Qed.

Lemma seq_stmt_abort (a b : stmt) (g g' : grids) (e : exn) :
  (a ;;; b) g = Abort e g' ->
  a g = Abort e g' \/ exists g1, a g = Done g1 /\ b g1 = Abort e g'.
Proof.
  unfold seq_stmt. destruct (a g) as [g1|e1 g1]; intros H.
  - right. exists g1. split; [reflexivity | exact H].
  - left. exact H.
Qed.

(** A turn of the loop raises an IndexError or, when the weighting is not
    recognised, an UnboundLocalError; nothing else. *)
Lemma unpack_abort_kind (cfg : config) (tel : telescope) (ds : sidereal_stream)
    (geo : geometry) (i : nat) (ind : Z * Z * Z) (g g' : grids) (e : exn) :
  unpack cfg tel ds geo i ind g = Abort e g' ->
  e = "IndexError"%string \/ (e = "UnboundLocalError"%string /\ ~ recognised cfg).
Proof.
  unfold unpack. destruct (select_w cfg tel ds i) as [w|e'] eqn:Hs.
  - assert (Hw : forall e0, e0 = "IndexError"%string
                            \/ (e0 = "UnboundLocalError"%string /\ w = None) ->
                 e0 = "IndexError"%string
                 \/ (e0 = "UnboundLocalError"%string /\ ~ recognised cfg)).
    { intros e0 [H|[H1 H2]]; [left; exact H | right; split; [exact H1|]].
      subst w. apply (select_w_unbound cfg tel ds i). exact Hs. }
    destruct ((snd (fst ind) =? 0)%Z && intracyl cfg)%bool; intros H;
      repeat (apply seq_stmt_abort in H; destruct H as [H|(? & _ & H)];
              [first [left; exact (set_vdr_abort _ _ _ _ _ _ _ _ H)
                     | left; exact (set_wgh_abort _ _ _ _ _ _ _ _ H)
                     | apply Hw; exact (set_smp_abort _ _ _ _ _ _ _ _ H)]|]);
      apply Hw; exact (set_smp_abort _ _ _ _ _ _ _ _ H).
  - intros H. left. injection H as <- _. apply (select_w_raise _ _ _ _ _ Hs).
Qed.

Lemma unpack_from_abort_kind (cfg : config) (tel : telescope) (ds : sidereal_stream)
    (geo : geometry) (l : list (Z * Z * Z)) :
  forall i g g' e,
    unpack_from cfg tel ds geo i l g = Abort e g' ->
    e = "IndexError"%string \/ (e = "UnboundLocalError"%string /\ ~ recognised cfg).
Proof.
  induction l as [|ind l IH]; intros i g g' e H; simpl in H.
  - discriminate H.
  - apply seq_stmt_abort in H. destruct H as [H|(g1 & _ & H)].
    + apply (unpack_abort_kind _ _ _ _ _ _ _ _ _ H).
    + apply (IH _ _ _ _ H).
Qed.

(** A turn whose first assignment is out of bounds does not end
    normally. *)
Lemma unpack_bad_cell (cfg : config) (tel : telescope) (ds : sidereal_stream)
    (geo : geometry) (i : nat) (ind : Z * Z * Z) (g : grids) :
  cell geo (fst (fst ind)) (snd (fst ind)) (snd ind) = None ->
  exists e g', unpack cfg tel ds geo i ind g = Abort e g'.
Proof.
  intros Hc. unfold unpack.
  destruct (select_w cfg tel ds i) as [w|e]; [|eexists; eexists; reflexivity].
  destruct ((snd (fst ind) =? 0)%Z && intracyl cfg)%bool;
    unfold seq_stmt, set_vdr; rewrite Hc; eexists; eexists; reflexivity.
Qed.

Lemma unpack_from_bad_cell (cfg : config) (tel : telescope) (ds : sidereal_stream)
    (geo : geometry) (l : list (Z * Z * Z)) (ind : Z * Z * Z) :
  In ind l ->
  cell geo (fst (fst ind)) (snd (fst ind)) (snd ind) = None ->
  forall i g, exists e g', unpack_from cfg tel ds geo i l g = Abort e g'.
Proof.
  intros Hin Hc. induction l as [|a l IH]; [contradiction|]. intros i g. simpl.
  unfold seq_stmt.
  destruct (unpack cfg tel ds geo i a g) as [g1|e g1] eqn:Ha.
  - destruct Hin as [->|Hin].
    + destruct (unpack_bad_cell cfg tel ds geo i ind g Hc) as (e & g' & H). congruence.
    + apply IH. exact Hin.
  - eexists. eexists. reflexivity.
Qed.

(** The classifier raises nothing but an IndexError. *)
Lemma classify_raise (tel : telescope) (ds : sidereal_stream) (e : exn) :
  classify tel ds = Raise e -> e = "IndexError"%string.
Proof.
  unfold classify.
  destruct (mapM (baseline_geometry tel) (prod ds)) as [tri|e'] eqn:Hm; simpl.
  - destruct tri as [|t tri]; simpl; [congruence|].
    destruct (nonzero_abs (snd t :: map (fun t0 => snd t0) tri)); simpl;
      [congruence | discriminate].
  - intros H. injection H as <-. apply (mapM_baseline_raise _ _ _ Hm).
Qed.

Lemma classify_nonempty (tel : telescope) (ds : sidereal_stream) (geo : geometry) :
  classify tel ds = Ok geo -> feed_index geo <> [].
Proof.
  intros H. apply classify_ok in H.
  destruct H as (tri & q & l & x & xs & _ & El & _ & _ & _ & _ & _ & _ & ->).
  destruct tri; [discriminate El | discriminate].
Qed.

(** X5.  When all the row separations that are not zero have one
    magnitude ([nfeed] is 1) the row axis has length [nvis_1d = 1], and a
    baseline of row bin [+1] is out of bounds: [process] returns no ring map,
    it raises an IndexError (or, with an unrecognised weighting, possibly the
    UnboundLocalError). *)
Theorem process_two_rows_fails (cfg : config) (tel : telescope) (ds : sidereal_stream)
    (geo : geometry) (p x : Z) :
  classify tel ds = Ok geo ->
  nfeed geo = 1%Z ->
  In (p, x, 1%Z) (feed_index geo) ->
  nvis_1d geo = 1%Z
  /\ (process cfg tel ds = Raise "IndexError"%string
      \/ (~ recognised cfg /\ process cfg tel ds = Raise "UnboundLocalError"%string)).
Proof.
  intros Hc Hn Hin.
  destruct (classify_shape _ _ _ Hc) as (_ & Hv & _ & _).
  assert (Hv1 : nvis_1d geo = 1%Z) by lia. split; [exact Hv1|].
  assert (Hbad : cell geo p x 1 = None).
  { unfold cell. rewrite Hv1.
    destruct (norm_index npol p); [|reflexivity].
    destruct (norm_index (ncyl geo) x); reflexivity. }
  destruct (unpack_from_bad_cell cfg tel ds geo (feed_index geo) (p, x, 1%Z) Hin Hbad 0%nat zeros)
    as (e & g' & Ha).
  unfold process, weighted, packed, unpack_all. rewrite Hc. simpl. rewrite Ha. simpl.
  destruct (unpack_from_abort_kind _ _ _ _ _ _ _ _ _ Ha) as [->|[-> Hr]].
  - left. reflexivity.
  - right. split; [exact Hr | reflexivity].
Qed.

(** X8.  With a weighting that is not recognised [process] never returns
    a ring map, whatever the input: it raises an IndexError or an
    UnboundLocalError.  The KeyError of line 147 is never raised. *)
Theorem process_unrecognised_weighting (cfg : config) (tel : telescope)
    (ds : sidereal_stream) :
  ~ recognised cfg ->
  process cfg tel ds = Raise "IndexError"%string
  \/ process cfg tel ds = Raise "UnboundLocalError"%string.
Proof.
  intros Hr. unfold process, weighted, packed, unpack_all.
  destruct (classify tel ds) as [geo|e] eqn:Hc; simpl.
  - pose proof (classify_nonempty _ _ _ Hc) as Hne.
    destruct (feed_index geo) as [|ind l]; [contradiction Hne; reflexivity|].
    assert (Ha : exists e g', unpack_from cfg tel ds geo 0 (ind :: l) zeros = Abort e g').
    { simpl. unfold seq_stmt.
      destruct (unpack cfg tel ds geo 0 ind zeros) as [g1|e g1] eqn:Hu;
        [|eexists; eexists; reflexivity].
      exfalso. unfold unpack in Hu.
      rewrite (proj2 (select_w_unbound cfg tel ds 0) Hr) in Hu.
      destruct ((snd (fst ind) =? 0)%Z && intracyl cfg)%bool.
      - apply seq_stmt_done in Hu. destruct Hu as (? & _ & Hu).
        apply seq_stmt_done in Hu. destruct Hu as (? & _ & Hu).
        apply seq_stmt_done in Hu. destruct Hu as (? & _ & Hu).
        apply seq_stmt_done in Hu. destruct Hu as (? & _ & Hu).
        apply seq_stmt_done in Hu. destruct Hu as (? & Hu & _).
        discriminate Hu.
      - apply seq_stmt_done in Hu. destruct Hu as (? & _ & Hu).
        apply seq_stmt_done in Hu. destruct Hu as (? & _ & Hu).
        discriminate Hu. }
    destruct Ha as (e & g' & Ha). rewrite Ha. simpl.
    destruct (unpack_from_abort_kind _ _ _ _ _ _ _ _ _ Ha) as [->|[-> _]];
      [left | right]; reflexivity.
  - left. rewrite (classify_raise _ _ _ Hc). reflexivity.
Qed.

(* ------------------------------------------------------------------ *)
(** * The row axis *)

(** X6.  The row axis has [2 * nfeed - 1] positions for the [2 * nfeed + 1]
    row bins from [-nfeed] to [nfeed].  The bins whose magnitude is below
    [nfeed] have positions of their own; the bin [+nfeed] shares its position
    with the bin [-(nfeed - 1)], and the bin [-nfeed] with [nfeed - 1]. *)
Theorem extreme_bins_alias (tel : telescope) (ds : sidereal_stream) (geo : geometry) :
  classify tel ds = Ok geo ->
  (2 <= nfeed geo)%Z ->
  (forall p x, cell geo p x (nfeed geo) = cell geo p x (1 - nfeed geo))
  /\ (forall p x, cell geo p x (- nfeed geo) = cell geo p x (nfeed geo - 1))
  /\ norm_index (nvis_1d geo) (nfeed geo) = Some (Z.to_nat (nfeed geo))
  /\ (forall k k',
        (Z.abs k <= nfeed geo - 1)%Z -> (Z.abs k' <= nfeed geo - 1)%Z ->
        norm_index (nvis_1d geo) k = norm_index (nvis_1d geo) k' -> k = k').
Proof.
  intros Hc Hn.
  destruct (classify_shape _ _ _ Hc) as (_ & Hv & _ & _).
  assert (A : forall k, norm_index (nvis_1d geo) k
                        = if ((0 <=? k)%Z && (k <? nvis_1d geo)%Z)%bool then Some (Z.to_nat k)
                          else if ((- nvis_1d geo <=? k)%Z && (k <? 0)%Z)%bool
                               then Some (Z.to_nat (k + nvis_1d geo)) else None)
    by reflexivity.
  assert (E1 : norm_index (nvis_1d geo) (nfeed geo) = Some (Z.to_nat (nfeed geo))).
  { rewrite A.
    destruct (Z.leb_spec 0 (nfeed geo)), (Z.ltb_spec (nfeed geo) (nvis_1d geo));
      cbn [andb]; try lia; reflexivity. }
  assert (E2 : norm_index (nvis_1d geo) (1 - nfeed geo) = Some (Z.to_nat (nfeed geo))).
  { rewrite A.
    destruct (Z.leb_spec 0 (1 - nfeed geo)), (Z.ltb_spec (1 - nfeed geo) (nvis_1d geo)),
      (Z.leb_spec (- nvis_1d geo) (1 - nfeed geo)), (Z.ltb_spec (1 - nfeed geo) 0);
      cbn [andb]; try lia. f_equal. f_equal. lia. }
  assert (E3 : norm_index (nvis_1d geo) (- nfeed geo) = Some (Z.to_nat (nfeed geo - 1))).
  { rewrite A.
    destruct (Z.leb_spec 0 (- nfeed geo)), (Z.ltb_spec (- nfeed geo) (nvis_1d geo)),
      (Z.leb_spec (- nvis_1d geo) (- nfeed geo)), (Z.ltb_spec (- nfeed geo) 0);
      cbn [andb]; try lia. f_equal. f_equal. lia. }
  assert (E4 : norm_index (nvis_1d geo) (nfeed geo - 1) = Some (Z.to_nat (nfeed geo - 1))).
  { rewrite A.
    destruct (Z.leb_spec 0 (nfeed geo - 1)), (Z.ltb_spec (nfeed geo - 1) (nvis_1d geo));
      cbn [andb]; try lia; reflexivity. }
  split; [intros p x; unfold cell; rewrite E1, E2; reflexivity|].
  split; [intros p x; unfold cell; rewrite E3, E4; reflexivity|].
  split; [exact E1|].
  intros k k' Hk Hk'. rewrite !A.
  destruct (Z.leb_spec 0 k), (Z.ltb_spec k (nvis_1d geo)),
    (Z.leb_spec (- nvis_1d geo) k), (Z.ltb_spec k 0),
    (Z.leb_spec 0 k'), (Z.ltb_spec k' (nvis_1d geo)),
    (Z.leb_spec (- nvis_1d geo) k'), (Z.ltb_spec k' 0);
    cbn [andb]; try lia; intros E; injection E as E; lia.
Qed.

Lemma Q2R_pos (q : Q) : (0 < q)%Q -> 0 < Q2R q.
Proof.
  intros H. apply Qreals.Qlt_Rlt in H. rewrite RMicromega.Q2R_0 in H. exact H.
Qed.

(** X7.  The packer and the synthesiser number the row positions alike:
    the position of a row bin [k] of magnitude below [nfeed] is synthesised
    at [k] times the scale of [fftfreq]; the position shared by the bin
    [+nfeed] is synthesised at [-(nfeed - 1)] times the scale, and the one
    shared by [-nfeed] at [nfeed - 1] times the scale. *)
Theorem vis_pos_matches_bin (tel : telescope) (ds : sidereal_stream) (geo : geometry)
    (k : Z) (b : nat) :
  classify tel ds = Ok geo ->
  (- nfeed geo <= k <= nfeed geo)%Z ->
  norm_index (nvis_1d geo) k = Some b ->
  vis_pos_1d geo b
  = IZR (if (k =? nfeed geo)%Z then 1 - nfeed geo
         else if (k =? - nfeed geo)%Z then nfeed geo - 1 else k)
    * vis_pos_scale geo.
Proof.
  intros Hc Hk Hb.
  destruct (classify_shape _ _ _ Hc) as (Hf & Hv & _ & _).
  unfold vis_pos_1d, fftfreq, vis_pos_scale.
  assert (Hn : INR (Z.to_nat (nvis_1d geo)) = IZR (nvis_1d geo))
    by (rewrite INR_IZR_INZ, Z2Nat.id by lia; reflexivity).
  assert (Hh : ((Z.to_nat (nvis_1d geo) - 1) / 2 + 1)%nat = Z.to_nat (nfeed geo)).
  { replace (Z.to_nat (nvis_1d geo) - 1)%nat with (2 * Z.to_nat (nfeed geo - 1))%nat by lia.
    rewrite Nat.mul_comm, Nat.div_mul by lia. lia. }
  rewrite Hn, Hh.
  f_equal.
  unfold norm_index in Hb.
  destruct (Z.leb_spec 0 k), (Z.ltb_spec k (nvis_1d geo)),
    (Z.leb_spec (- nvis_1d geo) k), (Z.ltb_spec k 0);
    cbn [andb] in Hb; try lia; try discriminate Hb; injection Hb as <-.
  - (* 0 <= k *)
    destruct (Z.eqb_spec k (nfeed geo)) as [E|N].
    + destruct (Nat.ltb_spec (Z.to_nat k) (Z.to_nat (nfeed geo))); [lia|].
      rewrite INR_IZR_INZ, Z2Nat.id by lia. rewrite <- minus_IZR. f_equal. lia.
    + destruct (Z.eqb_spec k (- nfeed geo)); [lia|].
      destruct (Nat.ltb_spec (Z.to_nat k) (Z.to_nat (nfeed geo))); [|lia].
      rewrite INR_IZR_INZ, Z2Nat.id by lia. reflexivity.
  - (* k < 0 *)
    destruct (Z.eqb_spec k (nfeed geo)); [lia|].
    destruct (Z.eqb_spec k (- nfeed geo)) as [E|N].
    + destruct (Nat.ltb_spec (Z.to_nat (k + nvis_1d geo)) (Z.to_nat (nfeed geo))); [|lia].
      rewrite INR_IZR_INZ, Z2Nat.id by lia. f_equal. lia.
    + destruct (Nat.ltb_spec (Z.to_nat (k + nvis_1d geo)) (Z.to_nat (nfeed geo))); [lia|].
      rewrite INR_IZR_INZ, Z2Nat.id by lia. rewrite <- minus_IZR. f_equal. lia.
Qed.

(* ------------------------------------------------------------------ *)
(** * Blank pixels and the elevation axis *)

Lemma Csum_n_zero (n : nat) (f : nat -> C) :
  (forall k, (k < n)%nat -> f k = C0) -> Csum_n n f = C0.
Proof.
  induction n as [|n IH]; intros H; simpl.
  - reflexivity.
  - rewrite IH by (intros k Hk; apply H; lia). rewrite (H n) by lia.
    unfold Cplus, C0. simpl. f_equal; ring.
Qed.

Lemma irfft_zero (n m : nat) : irfft (fun _ => C0) n m = 0.
Proof.
  unfold irfft.
  rewrite (sum_n_zero ((n - 1) / 2)
             (fun k => 2 * Re (Cmult C0 (Cexp (0, 2 * PI * INR (S k) * INR m / INR n))))).
  - unfold Re, C0. simpl. destruct (Nat.even n); ring.
  - intros k _. unfold Re, Cmult, C0. simpl. ring.
Qed.

(** X9.  A pixel whose coefficient mass is zero before the normaliser is
    blank: its noise, its map and its dirty beam are 0 for every beam and
    elevation. *)
Theorem blank_pixel (cfg : config) (tel : telescope) (ds : sidereal_stream)
    (geo : geometry) (g0 : grids) (f p t : nat) :
  classify tel ds = Ok geo ->
  packed cfg tel ds geo = Ok g0 ->
  coeff_mass cfg geo (smp (remove_auto cfg g0)) f p t = 0 ->
  exists rm,
    process cfg tel ds = Ok rm
    /\ rm_rms rm f p t = 0
    /\ forall m j, rm_map rm f p t m j = 0 /\ rm_dirty_beam rm f p t m j = 0.
Proof.
  intros Hc Hp Hz. unfold process, weighted. rewrite Hc. simpl. rewrite Hp. simpl.
  eexists. split; [reflexivity|].
  rewrite <- sum_dot_coeff_mass in Hz.
  assert (Hs : forall c b, smp (normalize cfg geo (remove_auto cfg g0)) f p t c b = 0).
  { intros c b. unfold normalize. cbn [smp]. rewrite Hz, invert_no_zero_0. ring. }
  split.
  - simpl. unfold rms_of, sum_dot.
    rewrite (sum_n_zero _ _); [apply sqrt_0|].
    intros b _. apply sum_n_zero. intros c _. rewrite Hs. ring.
  - intros m j. simpl. unfold bfm_of, sb_of. split.
    + rewrite (irfft_ext _ (fun _ => C0)); [rewrite irfft_zero; ring|].
      intros c. unfold dot_pa. apply Csum_n_zero. intros b _.
      rewrite Hs. unfold Cmult, Cscal, C0. simpl. f_equal; ring.
    + rewrite (irfft_ext _ (fun _ => C0)); [rewrite irfft_zero; ring|].
      intros c. unfold dot_pa. apply Csum_n_zero. intros b _.
      rewrite Hs. unfold Cmult, C0. simpl. f_equal; ring.
Qed.

(** X11.  With at least two pixels the elevation axis starts at [-span]
    and ends at [span]; every elevation lies between them, and for a [span]
    that is not negative the axis does not decrease. *)
Theorem el_axis (cfg : config) :
  (2 <= npix cfg)%nat ->
  el cfg 0 = - span cfg
  /\ el cfg (npix cfg - 1) = span cfg
  /\ (forall j, (j < npix cfg)%nat -> Rabs (el cfg j) <= Rabs (span cfg))
  /\ (forall j j', (j <= j' < npix cfg)%nat -> 0 <= span cfg -> el cfg j <= el cfg j').
Proof.
  unfold el, linspace_m1_1. intros H.
  destruct (npix cfg) as [|[|n]]; [lia | lia |].
  assert (Hn : INR (S (S n) - 1) <> 0) by (apply not_0_INR; lia).
  assert (Hp : 0 < INR (S (S n) - 1)) by (apply lt_0_INR; lia).
  assert (Hs : 0 < 2 / INR (S (S n) - 1)) by (apply Rdiv_lt_0_compat; lra).
  split; [simpl; ring|]. split; [field; exact Hn|]. split.
  - intros j Hj. rewrite Rabs_mult.
    rewrite <- (Rmult_1_r (Rabs (span cfg))) at 2.
    apply Rmult_le_compat_l; [apply Rabs_pos|].
    assert (J0 : 0 <= INR j) by apply pos_INR.
    assert (J1 : INR j <= INR (S (S n) - 1)) by (apply le_INR; lia).
    assert (U : INR j * (2 / INR (S (S n) - 1)) <= 2).
    { replace 2 with (INR (S (S n) - 1) * (2 / INR (S (S n) - 1))) at 2
        by (field; exact Hn).
      apply Rmult_le_compat_r; lra. }
    assert (L : 0 <= INR j * (2 / INR (S (S n) - 1))) by (apply Rmult_le_pos; lra).
    apply Rabs_le. lra.
  - intros j j' Hj Hsp. apply Rmult_le_compat_l; [exact Hsp|].
    assert (J : INR j <= INR j') by (apply le_INR; lia).
    assert (M : INR j * (2 / INR (S (S n) - 1)) <= INR j' * (2 / INR (S (S n) - 1)))
      by (apply Rmult_le_compat_r; lra).
    lra.
Qed.

(* ------------------------------------------------------------------ *)
(** * The conjugate symmetry of the packed arrays *)

Lemma mirror_bin_0 (n : nat) : (0 < n)%nat -> mirror_bin n 0 = 0%nat.
Proof.
  intros H. unfold mirror_bin. rewrite Nat.sub_0_r. apply Nat.Div0.mod_same.
Qed.

Lemma mirror_bin_pos (n b : nat) : (0 < b < n)%nat -> mirror_bin n b = (n - b)%nat.
Proof. intros H. unfold mirror_bin. apply Nat.mod_small. lia. Qed.

Lemma mirror_bin_cases (n b : nat) :
  (b < n)%nat ->
  (b = 0%nat /\ mirror_bin n b = 0%nat) \/ ((0 < b)%nat /\ mirror_bin n b = (n - b)%nat).
Proof.
  intros H. destruct b as [|b].
  - left. split; [reflexivity | apply mirror_bin_0; lia].
  - right. split; [lia | apply mirror_bin_pos; lia].
Qed.

(** The position of the opposite index is the mirrored position. *)
Lemma norm_index_mirror_bin (n y : Z) (a a' : nat) :
  norm_index n y = Some a -> norm_index n (- y) = Some a' ->
  (a < Z.to_nat n)%nat /\ a' = mirror_bin (Z.to_nat n) a.
Proof.
  unfold norm_index. intros Ha Hb.
  destruct (Z.leb_spec 0 y), (Z.ltb_spec y n), (Z.leb_spec (- n) y), (Z.ltb_spec y 0),
    (Z.leb_spec 0 (- y)), (Z.ltb_spec (- y) n), (Z.leb_spec (- n) (- y)),
    (Z.ltb_spec (- y) 0);
    cbn [andb] in Ha, Hb; try discriminate; try lia;
    injection Ha as <-; injection Hb as <-; (split; [lia|]).
  - (* y = 0 *)
    assert (y = 0%Z) by lia. subst. simpl. symmetry. apply mirror_bin_0. lia.
  - (* 0 < y *)
    rewrite mirror_bin_pos by lia. lia.
  - (* y < 0 *)
    rewrite mirror_bin_pos by lia. lia.
Qed.

Lemma Cconj_involutive (z : C) : Cconj (Cconj z) = z.
Proof. destruct z as [a b]. unfold Cconj. simpl. f_equal. ring. Qed.

Lemma Cconj_C0 : Cconj C0 = C0.
Proof. unfold Cconj, C0. simpl. f_equal. ring. Qed.

Lemma hermitian_zeros (n : nat) : hermitian n zeros.
Proof.
  intros f p t b _. simpl. repeat split. intros _. symmetry. apply Cconj_C0.
Qed.

Lemma norm_index_nonneg (n x : Z) (a : nat) :
  (0 <= x)%Z -> norm_index n x = Some a -> a = Z.to_nat x.
Proof.
  unfold norm_index. intros Hx H.
  destruct (Z.leb_spec 0 x), (Z.ltb_spec x n), (Z.leb_spec (- n) x), (Z.ltb_spec x 0);
    cbn [andb] in H; try discriminate; try lia; injection H as <-; reflexivity.
Qed.

(** A turn of the loop keeps the symmetry. *)
Lemma unpack_hermitian (cfg : config) (tel : telescope) (ds : sidereal_stream)
    (geo : geometry) (i : nat) (ind : Z * Z * Z) (g g' : grids) (m : nat) :
  intracyl cfg = true ->
  Z.to_nat (nvis_1d geo) = (2 * m + 1)%nat ->
  (0 <= snd (fst ind))%Z ->
  hermitian (Z.to_nat (nvis_1d geo)) g ->
  unpack cfg tel ds geo i ind g = Done g' ->
  hermitian (Z.to_nat (nvis_1d geo)) g'.
Proof.
  intros Hi Hodd Hx Hg Hu.
  destruct (((snd (fst ind) =? 0)%Z && intracyl cfg)%bool) eqn:Hb.
  - destruct (unpack_done_sym _ _ _ _ _ _ _ _ Hu Hb) as (c & c' & w & Hc & Hc' & _ & ->).
    destruct (cell_parts _ _ _ _ _ Hc) as (Pp & Px & Py).
    destruct (cell_parts _ _ _ _ _ Hc') as (Pp' & Px' & Py').
    destruct (norm_index_mirror_bin _ _ _ _ Py Py') as (La & Ma).
    apply andb_true_iff in Hb. destruct Hb as (Hx0 & _). apply Z.eqb_eq in Hx0.
    rewrite Hx0 in Px, Px'.
    apply (norm_index_nonneg _ 0) in Px; [|lia]. apply (norm_index_nonneg _ 0) in Px'; [|lia].
    destruct c as [[pc xc] ac], c' as [[pc' xc'] ac']. cbn [fst snd] in *.
    assert (pc' = pc) by congruence. subst pc' xc xc'. change (Z.to_nat 0) with 0%nat.
    intros f p t b Lb. destruct (Hg f p t b Lb) as (W & S & V).
    cbn [vdr wgh smp]. unfold assign. cbn [fst snd].
    destruct (Nat.eqb_spec p pc) as [Ep|Np]; cbn [andb];
      [|repeat split; assumption].
    set (n := Z.to_nat (nvis_1d geo)) in *.
    destruct (mirror_bin_cases n b Lb) as [(B0 & B1)|(B0 & B1)];
      destruct (mirror_bin_cases n ac La) as [(A0 & A1)|(A0 & A1)];
      rewrite B1 in *; rewrite A1 in Ma; subst ac';
      repeat match goal with
             | |- context [Nat.eqb ?u ?v] => destruct (Nat.eqb_spec u v)
             end; cbn [andb]; try lia;
      repeat split; try assumption; try reflexivity; try (intros; lia);
      try (intros _; symmetry; apply Cconj_involutive).
  - destruct (unpack_done_plain _ _ _ _ _ _ _ _ Hu Hb) as (c & w & Hc & _ & ->).
    destruct (cell_parts _ _ _ _ _ Hc) as (_ & Px & _).
    apply (norm_index_nonneg _ _ _ Hx) in Px.
    assert (Hx0 : snd (fst ind) <> 0%Z).
    { intros E. rewrite E, Hi in Hb. discriminate Hb. }
    assert (Nx : snd (fst c) <> 0%nat) by lia.
    intros f p t b Lb. destruct (Hg f p t b Lb) as (W & S & V).
    cbn [vdr wgh smp]. unfold assign.
    destruct (Nat.eqb_spec 0 (snd (fst c))) as [E|_]; [congruence|].
    rewrite !andb_false_r. cbn [andb]. repeat split; assumption.
Qed.

Lemma unpack_from_hermitian (cfg : config) (tel : telescope) (ds : sidereal_stream)
    (geo : geometry) (m : nat) (l : list (Z * Z * Z)) :
  intracyl cfg = true ->
  Z.to_nat (nvis_1d geo) = (2 * m + 1)%nat ->
  Forall (fun ind => (0 <= snd (fst ind))%Z) l ->
  forall i g g',
    hermitian (Z.to_nat (nvis_1d geo)) g ->
    unpack_from cfg tel ds geo i l g = Done g' ->
    hermitian (Z.to_nat (nvis_1d geo)) g'.
Proof.
  intros Hi Hodd Hl. induction Hl as [|ind l Hx _ IH]; intros i g g' Hg H; simpl in H.
  - injection H as <-. exact Hg.
  - apply seq_stmt_done in H. destruct H as (g1 & H1 & H2).
    apply (IH _ _ _ (unpack_hermitian cfg tel ds geo i ind g g1 m Hi Hodd Hx Hg H1) H2).
Qed.

(** X10.  With [intracyl] set the packing leaves the plane of cylinder
    separation 0 conjugate-symmetric in the row bin, for every frequency,
    polarisation and time: mirrored bins hold equal weights and coefficients
    and, away from bin 0, conjugate visibilities; the normalised arrays keep
    the symmetry. *)
Theorem packed_hermitian (cfg : config) (tel : telescope) (ds : sidereal_stream)
    (geo : geometry) (g : grids) :
  intracyl cfg = true ->
  classify tel ds = Ok geo ->
  unpack_all cfg tel ds geo = Done g ->
  hermitian (Z.to_nat (nvis_1d geo)) g
  /\ hermitian (Z.to_nat (nvis_1d geo)) (normalize cfg geo (remove_auto cfg g)).
Proof.
  intros Hi Hc Hu.
  destruct (classify_shape _ _ _ Hc) as (Hf & Hv & _ & _).
  assert (Hodd : Z.to_nat (nvis_1d geo) = (2 * Z.to_nat (nfeed geo - 1) + 1)%nat) by lia.
  assert (Hg : hermitian (Z.to_nat (nvis_1d geo)) g).
  { apply (unpack_from_hermitian cfg tel ds geo _ (feed_index geo) Hi Hodd) with (i := 0%nat) (g := zeros).
    - eapply Forall_impl; [|exact (feed_index_ranges _ _ _ Hc)].
      intros ind (_ & Hx & _). lia.
    - apply hermitian_zeros.
    - exact Hu. }
  split; [exact Hg|].
  intros f p t b Lb. destruct (Hg f p t b Lb) as (W & S & V).
  unfold normalize, remove_auto. rewrite Hi. cbn [vdr wgh smp].
  split; [exact W|]. split; [|exact V].
  f_equal. cbn [Nat.eqb andb].
  destruct (mirror_bin_cases _ b Lb) as [(B0 & B1)|(B0 & B1)]; rewrite B1.
  - subst b. reflexivity.
  - destruct (Nat.eqb_spec (Z.to_nat (nvis_1d geo) - b) 0); [lia|].
    destruct (Nat.eqb_spec b 0); [lia|].
    rewrite <- B1. exact S.
Qed.

(* ------------------------------------------------------------------ *)
(** * The feeds of the telescope model *)

Lemma py_getitem_ok {A : Type} (l : list A) (i : Z) (x : A) :
  py_getitem l i = Ok x <->
  exists a, norm_index (Z.of_nat (List.length l)) i = Some a /\ nth_error l a = Some x.
Proof.
  unfold py_getitem. split.
  - destruct (norm_index (Z.of_nat (List.length l)) i) as [a|]; [|discriminate].
    destruct (nth_error l a) as [y|] eqn:E; [|discriminate].
    intros H. injection H as <-. exists a. split; [reflexivity | exact E].
  - intros (a & -> & ->). reflexivity.
Qed.

Lemma py_getitem_raise {A : Type} (l : list A) (i : Z) (e : exn) :
  py_getitem l i = Raise e ->
  e = "IndexError"%string /\ ~ (- Z.of_nat (List.length l) <= i < Z.of_nat (List.length l))%Z.
Proof.
  unfold py_getitem.
  destruct (norm_index (Z.of_nat (List.length l)) i) as [a|] eqn:En.
  - destruct (nth_error l a) as [y|] eqn:E; [discriminate|].
    intros H. exfalso. apply nth_error_None in E.
    unfold norm_index in En.
    destruct (Z.leb_spec 0 i), (Z.ltb_spec i (Z.of_nat (List.length l))),
      (Z.leb_spec (- Z.of_nat (List.length l)) i), (Z.ltb_spec i 0);
      cbn [andb] in En; try discriminate; injection En as <-; lia.
  - intros H. split; [congruence|]. intros R.
    destruct (norm_index_some _ _ R) as (a & Ha). congruence.
Qed.

Lemma mapM_nth {A B : Type} (f : A -> result B) (l : list A) (r : list B) :
  mapM f l = Ok r ->
  forall k a, nth_error l k = Some a -> exists b, nth_error r k = Some b /\ f a = Ok b.
Proof.
  revert r. induction l as [|a0 l IH]; simpl; intros r H k a Hk.
  - destruct k; discriminate Hk.
  - destruct (f a0) as [b0|e] eqn:E0; [|discriminate H]. simpl in H.
    destruct (mapM f l) as [bs|e] eqn:El; [|discriminate H]. simpl in H.
    injection H as <-. destruct k as [|k]; simpl in *.
    + injection Hk as <-. exists b0. split; [reflexivity | exact E0].
    + apply (IH bs eq_refl k a Hk).
Qed.

Lemma mapM_ok_iff {A B : Type} (f : A -> result B) (l : list A) :
  (exists r, mapM f l = Ok r) <-> Forall (fun a => exists b, f a = Ok b) l.
Proof.
  induction l as [|a l IH]; simpl.
  - split; [constructor | eexists; reflexivity].
  - split.
    + intros (r & H). destruct (f a) as [b|e] eqn:Ea; [|discriminate H]. simpl in H.
      destruct (mapM f l) as [bs|e] eqn:El; [|discriminate H].
      constructor; [exists b; exact Ea | apply IH; exists bs; reflexivity].
    + intros H. inversion H as [|? ? (b & Hb) Hl]; subst.
      apply IH in Hl. destruct Hl as (bs & Hbs).
      rewrite Hb. simpl. rewrite Hbs. simpl. eexists. reflexivity.
Qed.

Lemma mapM_raise_In {A B : Type} (f : A -> result B) (l : list A) (e : exn) :
  mapM f l = Raise e -> exists a, In a l /\ f a = Raise e.
Proof.
  induction l as [|a l IH]; simpl; [discriminate|].
  destruct (f a) as [b|e'] eqn:Ea; simpl.
  - destruct (mapM f l) as [bs|e'']; simpl; [discriminate|].
    intros H. injection H as ->. destruct (IH eq_refl) as (a' & Hin & Ha').
    exists a'. split; [right; exact Hin | exact Ha'].
  - intros H. injection H as ->. exists a. split; [left; reflexivity | exact Ea].
Qed.

(** X12.  Selecting inputs and classifying compose: with [input_sel] set,
    the classifier reads for the product [(i, j)] the feeds that the entries
    [i] and [j] of [input_sel] address in the full list, a negative entry
    counting from the end. *)
Theorem feeds_selection_classifier (F F' : list feed) (sel : list Z)
    (red : list Z) (i j : nat) (si sj : Z) (a b : nat) :
  pathfinder_feeds F (Some sel) = Ok F' ->
  nth_error sel i = Some si -> nth_error sel j = Some sj ->
  norm_index (Z.of_nat (List.length F)) si = Some a ->
  norm_index (Z.of_nat (List.length F)) sj = Some b ->
  baseline_geometry (mk_telescope F' red) (i, j)
  = baseline_geometry (mk_telescope F red) (a, b).
Proof.
  unfold pathfinder_feeds. intros H Hi Hj Ha Hb.
  destruct (mapM_nth _ _ _ H i si Hi) as (fi & Ei & Gi).
  destruct (mapM_nth _ _ _ H j sj Hj) as (fj & Ej & Gj).
  apply py_getitem_ok in Gi. destruct Gi as (a' & Ha' & Fa).
  apply py_getitem_ok in Gj. destruct Gj as (b' & Hb' & Fb).
  assert (a' = a) by congruence. assert (b' = b) by congruence. subst.
  unfold baseline_geometry. cbn [feeds fst snd]. rewrite Ei, Ej, Fa, Fb. reflexivity.
Qed.

Lemma mapM_identity {A : Type} (pre l : list A) :
  mapM (py_getitem (pre ++ l))
       (map Z.of_nat (seq (List.length pre) (List.length l))) = Ok l.
Proof.
  revert pre. induction l as [|x l IH]; intros pre; simpl; [reflexivity|].
  assert (E : py_getitem (pre ++ x :: l) (Z.of_nat (List.length pre)) = Ok x).
  { apply py_getitem_ok. exists (List.length pre). split.
    - unfold norm_index. rewrite length_app. simpl.
      destruct (Z.leb_spec 0 (Z.of_nat (List.length pre)));
        destruct (Z.ltb_spec (Z.of_nat (List.length pre))
                             (Z.of_nat (List.length pre + S (List.length l))));
        cbn [andb]; try lia. rewrite Nat2Z.id. reflexivity.
    - rewrite nth_error_app2 by lia. rewrite Nat.sub_diag. reflexivity. }
  rewrite E. simpl.
  specialize (IH (pre ++ [x])). rewrite <- app_assoc in IH. simpl in IH.
  rewrite length_app in IH. simpl in IH. rewrite Nat.add_1_r in IH.
  rewrite IH. reflexivity.
Qed.

(** X13.  With [input_sel] set, [feeds] succeeds exactly when every entry
    lies in [-n, n) for the [n] feeds of the layout; it then has one feed per
    entry; a failure is an IndexError; and selecting [0 .. n-1] gives the
    full list back. *)
Theorem feeds_selection {A : Type} (F : list A) (sel : list Z) :
  ((exists F', pathfinder_feeds F (Some sel) = Ok F')
   <-> Forall (fun i => (- Z.of_nat (List.length F) <= i < Z.of_nat (List.length F))%Z) sel)
  /\ (forall F', pathfinder_feeds F (Some sel) = Ok F' -> List.length F' = List.length sel)
  /\ (forall e, pathfinder_feeds F (Some sel) = Raise e -> e = "IndexError"%string)
  /\ pathfinder_feeds F (Some (map Z.of_nat (seq 0 (List.length F)))) = Ok F.
Proof.
  unfold pathfinder_feeds. split; [|split; [|split]].
  - rewrite mapM_ok_iff. split; intros H; (eapply Forall_impl; [|exact H]); intros i.
    + intros (x & Hx). apply py_getitem_ok in Hx. destruct Hx as (a & Ha & _).
      unfold norm_index in Ha.
      destruct (Z.leb_spec 0 i), (Z.ltb_spec i (Z.of_nat (List.length F))),
        (Z.leb_spec (- Z.of_nat (List.length F)) i), (Z.ltb_spec i 0);
        cbn [andb] in Ha; try discriminate; lia.
    + intros R. destruct (py_getitem F i) as [x|e] eqn:E; [exists x; reflexivity|].
      apply py_getitem_raise in E. destruct E as (_ & E). contradiction.
  - intros F' H. apply (mapM_length _ _ _ H).
  - intros e H. apply mapM_raise_In in H. destruct H as (i & _ & H).
    apply (py_getitem_raise _ _ _ H).
  - apply (mapM_identity [] F).
Qed.

(* ------------------------------------------------------------------ *)
(** * The frequencies of the telescope model *)

Lemma sum_basefreq (b s : nat) :
  sum_n b (fun i => basefreq (s + i))
  = INR b * (800 - 400 / 1024 * (INR s + (INR b - 1) / 2)).
Proof.
  induction b as [|b IH].
  - simpl. ring.
  - cbn [sum_n]. rewrite IH. unfold basefreq. rewrite plus_INR, S_INR. field.
Qed.

Lemma slice_bound_id (s : Z) : (0 <= s <= 1024)%Z -> slice_bound 1024 s = s.
Proof.
  intros H. unfold slice_bound. destruct (Z.ltb_spec s 0); lia.
Qed.

(** A positive [channel_bin] that divides a selection that is not empty
    is not larger than the selection. *)
Lemma bin_bound (len b : Z) : (0 < len)%Z -> (0 < b)%Z -> (len mod b = 0)%Z -> (b <= len)%Z.
Proof.
  intros Hl Hb Hd.
  assert (Hq : (len = b * (len / b))%Z) by (apply Z.div_exact; [lia | exact Hd]).
  set (q := (len / b)%Z) in *.
  assert (Hq1 : (1 <= q)%Z).
  { destruct (Z.le_gt_cases 1 q) as [G|L]; [exact G|].
    assert (b * q <= 0)%Z by (apply Z.mul_nonneg_nonpos; lia). lia. }
  rewrite Hq. rewrite <- (Z.mul_1_r b) at 1. apply Z.mul_le_mono_nonneg_l; lia.
Qed.

(** X14.  For channels [0 <= channel_start < channel_end <= 1024] and a
    positive [channel_bin] that divides their number, [calculate_frequencies]
    gives one frequency per group of [channel_bin] channels: the [k]-th is
    the centre [800 - (400/1024) (channel_start + k channel_bin +
    (channel_bin - 1)/2)] of its group, above 400 and at most 800 MHz. *)
Theorem channel_frequencies_values (s e b : Z) :
  (0 <= s < e)%Z -> (e <= 1024)%Z -> (0 < b)%Z -> ((e - s) mod b = 0)%Z ->
  exists fr,
    channel_frequencies s e b = Ok fr
    /\ List.length fr = Z.to_nat ((e - s) / b)
    /\ forall k, (k < List.length fr)%nat ->
         exists v,
           nth_error fr k = Some v
           /\ v = 800 - 400 / 1024 * (IZR s + INR k * IZR b + (IZR b - 1) / 2)
           /\ 400 < v <= 800.
Proof.
  intros Hs He Hb Hd. unfold channel_frequencies.
  rewrite !slice_bound_id by lia.
  replace (Z.max 0 (e - s)) with (e - s)%Z by lia.
  destruct (Z.eqb_spec b 0) as [|_]; [lia|].
  rewrite Hd. cbn [Z.eqb negb].
  destruct (Z.ltb_spec b 0) as [|_]; [lia|].
  assert (Hbe : (b <= e - s)%Z) by (apply bin_bound; [lia | exact Hb | exact Hd]).
  destruct (Z.leb_spec (2 ^ 63) (8 * b)) as [|_]; [lia|].
  eexists. split; [reflexivity|].
  rewrite length_map, length_seq. split; [reflexivity|].
  intros k Hk.
  eexists. split.
  { rewrite nth_error_map, nth_error_seq.
    destruct (Nat.ltb_spec k (Z.to_nat ((e - s) / b))) as [_|]; [|lia].
    cbn [option_map Nat.add]. reflexivity. }
  assert (Hbr : 0 < IZR b) by (apply IZR_lt; exact Hb).
  assert (Eb : INR (Z.to_nat b) = IZR b) by (rewrite INR_IZR_INZ, Z2Nat.id by lia; reflexivity).
  assert (Es : INR (Z.to_nat s) = IZR s) by (rewrite INR_IZR_INZ, Z2Nat.id by lia; reflexivity).
  assert (V : sum_n (Z.to_nat b) (fun i => basefreq (Z.to_nat s + k * Z.to_nat b + i)) / IZR b
              = 800 - 400 / 1024 * (IZR s + INR k * IZR b + (IZR b - 1) / 2)).
  { rewrite sum_basefreq, plus_INR, mult_INR, Eb, Es. field. lra. }
  split; [exact V|]. rewrite V.
  (* the centre of the group lies inside the band *)
  set (q := ((e - s) / b)%Z) in *.
  assert (Hq : (e - s = b * q)%Z) by (apply Z.div_exact; [lia | exact Hd]).
  assert (Hqk : (Z.of_nat k + 1 <= q)%Z) by lia.
  assert (Hk0 : 0 <= INR k) by apply pos_INR.
  assert (Hk1 : INR k + 1 <= IZR q).
  { rewrite INR_IZR_INZ. rewrite <- (plus_IZR (Z.of_nat k) 1). apply IZR_le. exact Hqk. }
  assert (Hes : IZR e - IZR s = IZR b * IZR q).
  { rewrite <- minus_IZR, <- mult_IZR. f_equal. exact Hq. }
  assert (Hs0 : 0 <= IZR s) by (apply IZR_le; lia).
  assert (He0 : IZR e <= 1024) by (apply (IZR_le e 1024); lia).
  assert (Hb1 : 1 <= IZR b) by (apply (IZR_le 1 b); lia).
  assert (Hkb : (INR k + 1) * IZR b <= IZR q * IZR b)
    by (apply Rmult_le_compat_r; lra).
  assert (Hkb0 : 0 <= INR k * IZR b) by (apply Rmult_le_pos; lra).
  split; lra.
Qed.

Lemma slice_bound_range (s : Z) : (0 <= slice_bound 1024 s <= 1024)%Z.
Proof. unfold slice_bound. destruct (Z.ltb_spec s 0); lia. Qed.

(** X15.  A [channel_bin] that is zero or negative makes
    [calculate_frequencies] fail.  When the slice
    [channel_start:channel_end] selects at least one channel,
    [calculate_frequencies] succeeds exactly when [channel_bin] is positive
    and divides the number of channels selected. *)
Theorem channel_frequencies_succeeds (s e b : Z) :
  ((b <= 0)%Z -> exists x, channel_frequencies s e b = Raise x)
  /\ ((slice_bound 1024 s < slice_bound 1024 e)%Z ->
      ((exists fr, channel_frequencies s e b = Ok fr)
       <-> (0 < b)%Z /\ ((slice_bound 1024 e - slice_bound 1024 s) mod b = 0)%Z)).
Proof.
  unfold channel_frequencies. split.
  - intros Hb.
    destruct (Z.eqb_spec b 0) as [E|N]; [eexists; reflexivity|].
    destruct (negb _); [eexists; reflexivity|].
    destruct (Z.ltb_spec b 0) as [L|G]; [eexists; reflexivity | lia].
  - intros Hne.
    pose proof (slice_bound_range s) as Rs. pose proof (slice_bound_range e) as Re'.
    replace (Z.max 0 (slice_bound 1024 e - slice_bound 1024 s))
      with (slice_bound 1024 e - slice_bound 1024 s)%Z by lia.
    destruct (Z.eqb_spec b 0) as [E|N].
    { split; [intros (fr & H); discriminate H | intros (H & _); lia]. }
    destruct (Z.eqb_spec ((slice_bound 1024 e - slice_bound 1024 s) mod b) 0) as [E|M];
      cbn [negb].
    + destruct (Z.ltb_spec b 0) as [L|G].
      * split; [intros (fr & H); discriminate H | intros (H & _); lia].
      * assert (Hbe : (b <= slice_bound 1024 e - slice_bound 1024 s)%Z)
          by (apply bin_bound; [lia | lia | exact E]).
        destruct (Z.leb_spec (2 ^ 63) (8 * b)) as [|_]; [lia|].
        split; [intros _; split; [lia | exact E] | intros _; eexists; reflexivity].
    + split; [intros (fr & H); discriminate H | intros (_ & H); contradiction].
Qed.

(* ------------------------------------------------------------------ *)
(** * A redundancy that is missing *)

Lemma unpack_from_select_raise (cfg : config) (tel : telescope) (ds : sidereal_stream)
    (geo : geometry) (l : list (Z * Z * Z)) :
  forall i j e0 g,
    (i <= j < i + List.length l)%nat ->
    select_w cfg tel ds j = Raise e0 ->
    exists e g', unpack_from cfg tel ds geo i l g = Abort e g'.
Proof.
  induction l as [|ind l IH]; intros i j e0 g Hj Hs; simpl in *; [lia|].
  unfold seq_stmt.
  destruct (unpack cfg tel ds geo i ind g) as [g1|e g1] eqn:Hu;
    [|eexists; eexists; reflexivity].
  destruct (Nat.eq_dec j i) as [->|N].
  - unfold unpack in Hu. rewrite Hs in Hu. discriminate Hu.
  - apply (IH (S i) j e0 g1); [lia | exact Hs].
Qed.

(** X16.  With the weighting 'natural' and fewer redundancies than
    products, [process] raises an IndexError, whatever the rest of the
    input. *)
Theorem natural_missing_redundancy (cfg : config) (tel : telescope)
    (ds : sidereal_stream) :
  weighting cfg = "natural"%string ->
  (List.length (redundancy tel) < List.length (prod ds))%nat ->
  process cfg tel ds = Raise "IndexError"%string.
Proof.
  intros Hw Hl. unfold process, weighted, packed, unpack_all.
  destruct (classify tel ds) as [geo|e] eqn:Hc; simpl;
    [|rewrite (classify_raise _ _ _ Hc); reflexivity].
  assert (Hs : select_w cfg tel ds (List.length (redundancy tel)) = Raise "IndexError"%string).
  { unfold select_w. rewrite Hw. simpl.
    rewrite (proj2 (nth_error_None (redundancy tel) _) (Nat.le_refl _)). reflexivity. }
  assert (Hj : (0 <= List.length (redundancy tel) < 0 + List.length (feed_index geo))%nat)
    by (rewrite (classify_length _ _ _ Hc); lia).
  destruct (unpack_from_select_raise cfg tel ds geo (feed_index geo) 0
              (List.length (redundancy tel)) "IndexError"%string zeros Hj Hs) as (e & g' & Ha).
  rewrite Ha. simpl.
  destruct (unpack_from_abort_kind _ _ _ _ _ _ _ _ _ Ha) as [->|[_ Hr]]; [reflexivity|].
  contradiction Hr. right. left. exact Hw.
Qed.

(* ------------------------------------------------------------------ *)
(** * The dirty beam does not read the visibilities *)

Lemma seq_stmt_weights_rel (a a' b b' : stmt) :
  stmt_weights_rel a a' -> stmt_weights_rel b b' -> stmt_weights_rel (a ;;; b) (a' ;;; b').
Proof.
  intros Ha Hb g g' Hg. unfold seq_stmt.
  specialize (Ha g g' Hg).
  destruct (a g) as [g1|e g1], (a' g') as [g1'|e' g1']; simpl in Ha; try contradiction.
  - apply Hb. exact Ha.
  - exact Ha.
Qed.

Lemma set_vdr_weights_rel (geo : geometry) (p x y : Z) (src src' : plane C) :
  stmt_weights_rel (set_vdr geo p x y src) (set_vdr geo p x y src').
Proof.
  intros g g' Hg. unfold set_vdr.
  destruct (cell geo p x y) as [c|]; simpl; [|reflexivity].
  intros f p0 t x0 y0. apply Hg.
Qed.

Lemma set_wgh_weights_rel (geo : geometry) (p x y : Z) (src src' : plane R) :
  (forall f t, src' f t = src f t) ->
  stmt_weights_rel (set_wgh geo p x y src) (set_wgh geo p x y src').
Proof.
  intros Hs g g' Hg. unfold set_wgh.
  destruct (cell geo p x y) as [c|]; simpl; [|reflexivity].
  intros f p0 t x0 y0. destruct (Hg f p0 t x0 y0) as (A & B).
  simpl. unfold assign. split; [|exact B].
  destruct (Nat.eqb p0 (fst (fst c)) && Nat.eqb x0 (snd (fst c)) && Nat.eqb y0 (snd c))%bool;
    [apply Hs | exact A].
Qed.

Lemma set_smp_weights_rel (geo : geometry) (p x y : Z) (w w' : option (plane R)) :
  w_rel (fun _ => True) 1 w w' ->
  stmt_weights_rel (set_smp geo p x y w) (set_smp geo p x y w').
Proof.
  intros Hw g g' Hg. unfold set_smp.
  destruct w as [a|], w' as [a'|]; simpl in Hw; try contradiction; [|reflexivity].
  destruct (cell geo p x y) as [c|]; simpl; [|reflexivity].
  intros f p0 t x0 y0. destruct (Hg f p0 t x0 y0) as (A & B).
  simpl. unfold assign. split; [exact A|].
  destruct (Nat.eqb p0 (fst (fst c)) && Nat.eqb x0 (snd (fst c)) && Nat.eqb y0 (snd c))%bool;
    [rewrite (Hw f t I); ring | exact B].
Qed.

Lemma unpack_from_weights_rel (cfg : config) (tel : telescope) (ds ds' : sidereal_stream)
    (geo : geometry) (l : list (Z * Z * Z)) :
  (forall f i t, weight ds' f i t = weight ds f i t) ->
  forall i, stmt_weights_rel (unpack_from cfg tel ds geo i l) (unpack_from cfg tel ds' geo i l).
Proof.
  intros Hwt. induction l as [|ind l IH]; intros i; simpl.
  - intros g g' Hg. exact Hg.
  - apply seq_stmt_weights_rel; [|apply IH].
    intros g g' Hg. unfold unpack.
    assert (Hs : sel_rel (fun _ => True) 1 (select_w cfg tel ds i) (select_w cfg tel ds' i)).
    { unfold select_w.
      destruct (String.eqb (weighting cfg) "uniform"); [simpl; intros; ring|].
      destruct (String.eqb (weighting cfg) "natural").
      { destruct (nth_error (redundancy tel) i); simpl; [intros; ring | reflexivity]. }
      destruct (String.eqb (weighting cfg) "inverse_variance"); simpl; [|exact I].
      intros f t _. rewrite Hwt. ring. }
    destruct (select_w cfg tel ds i) as [w|e], (select_w cfg tel ds' i) as [w'|e'];
      simpl in Hs; try contradiction; [|exact Hs].
    destruct ((snd (fst ind) =? 0)%Z && intracyl cfg)%bool;
      refine ((_ : stmt_weights_rel _ _) g g' Hg);
      repeat (apply seq_stmt_weights_rel;
              [first [apply set_vdr_weights_rel
                     | apply set_wgh_weights_rel; intros; apply Hwt
                     | apply set_smp_weights_rel; exact Hs]|]);
      apply set_smp_weights_rel; exact Hs.
Qed.

(** X17.  The dirty beam and the noise do not read the visibilities: two
    inputs with the same products, weights and frequencies fail with the same
    exception or give the same dirty beam and the same noise. *)
Theorem dirty_beam_ignores_visibilities (cfg : config) (tel : telescope)
    (ds ds' : sidereal_stream) :
  prod ds' = prod ds ->
  (forall f i t, weight ds' f i t = weight ds f i t) ->
  (forall f, freq ds' f = freq ds f) ->
  match process cfg tel ds, process cfg tel ds' with
  | Ok rm, Ok rm' =>
      forall f p t,
        rm_rms rm' f p t = rm_rms rm f p t
        /\ forall m j, rm_dirty_beam rm' f p t m j = rm_dirty_beam rm f p t m j
  | Raise e, Raise e' => e = e'
  | _, _ => False
  end.
Proof.
  intros Hp Hwt Hf. unfold process, weighted.
  rewrite (classify_prod tel ds ds' Hp).
  destruct (classify tel ds) as [geo|e] eqn:Hc; simpl; [|reflexivity].
  assert (Hrun : run_weights_rel (unpack_all cfg tel ds geo) (unpack_all cfg tel ds' geo)).
  { unfold unpack_all. apply (unpack_from_weights_rel cfg tel ds ds' geo _ Hwt).
    intros f p t x y. split; reflexivity. }
  unfold packed.
  destruct (unpack_all cfg tel ds geo) as [g|e g], (unpack_all cfg tel ds' geo) as [g'|e' g'];
    simpl in Hrun; try contradiction; simpl; [|exact Hrun].
  assert (Hn : forall f p t x y,
             wgh (normalize cfg geo (remove_auto cfg g')) f p t x y
             = wgh (normalize cfg geo (remove_auto cfg g)) f p t x y
             /\ smp (normalize cfg geo (remove_auto cfg g')) f p t x y
                = smp (normalize cfg geo (remove_auto cfg g)) f p t x y).
  { assert (Hr : weights_rel (remove_auto cfg g) (remove_auto cfg g')).
    { unfold remove_auto. destruct (intracyl cfg); [|exact Hrun].
      intros f p t x y. destruct (Hrun f p t x y) as (A & B). simpl.
      split; [exact A|]. rewrite B. reflexivity. }
    intros f p t x y. destruct (Hr f p t x y) as (A & B).
    unfold normalize. cbn [wgh smp]. split; [exact A|]. rewrite B. f_equal. f_equal.
    unfold sum_dot. apply sum_n_ext. intros b _. apply sum_n_ext. intros c _.
    destruct (Hr f p t c b) as (_ & ->). reflexivity. }
  intros f p t. cbn [rm_rms rm_dirty_beam synthesize]. split.
  - unfold rms_of, sum_dot. f_equal.
    apply sum_n_ext. intros b _. apply sum_n_ext. intros c _.
    destruct (Hn f p t c b) as (-> & ->). reflexivity.
  - intros m j. unfold sb_of, dot_pa. rewrite Hf. f_equal.
    apply irfft_ext. intros c. apply Csum_n_ext. intros b _.
    destruct (Hn f p t c b) as (_ & ->). reflexivity.
Qed.

(* ------------------------------------------------------------------ *)
(** * The auto-correlations do not reach the map *)

Lemma seq_stmt_off_auto_rel (a a' b b' : stmt) :
  stmt_off_auto_rel a a' -> stmt_off_auto_rel b b' ->
  stmt_off_auto_rel (a ;;; b) (a' ;;; b').
Proof.
  intros Ha Hb g g' Hg. unfold seq_stmt.
  specialize (Ha g g' Hg).
  destruct (a g) as [g1|e g1], (a' g') as [g1'|e' g1']; simpl in Ha; try contradiction.
  - apply Hb. exact Ha.
  - exact Ha.
Qed.

(** An assignment of visibilities keeps the relation when the two sources
    agree, or when it goes to (cylinder 0, bin 0). *)
Lemma set_vdr_off_auto_rel (geo : geometry) (p x y : Z) (src src' : plane C) :
  (forall f t, src' f t = src f t) \/ (x = 0%Z /\ (y = 0%Z \/ y = (- 0)%Z)) ->
  stmt_off_auto_rel (set_vdr geo p x y src) (set_vdr geo p x y src').
Proof.
  intros Hs g g' Hg. unfold set_vdr.
  destruct (cell geo p x y) as [c|] eqn:Hc; simpl; [|reflexivity].
  intros f p0 t x0 y0. destruct (Hg f p0 t x0 y0) as (A & B & D).
  simpl. split; [exact A|]. split; [exact B|].
  intros N. unfold assign.
  destruct (Nat.eqb_spec p0 (fst (fst c))); cbn [andb]; [|apply D; exact N].
  destruct (Nat.eqb_spec x0 (snd (fst c))); cbn [andb]; [|apply D; exact N].
  destruct (Nat.eqb_spec y0 (snd c)); cbn [andb]; [|apply D; exact N].
  destruct Hs as [Hs|(Hx & Hy)]; [apply Hs|]. exfalso.
  destruct (cell_parts _ _ _ _ _ Hc) as (_ & Px & Py).
  assert (Hy0 : y = 0%Z) by (destruct Hy as [Hy|Hy]; [exact Hy | rewrite Hy; reflexivity]).
  rewrite Hx in Px. rewrite Hy0 in Py.
  apply (norm_index_nonneg _ 0) in Px; [|lia]. apply (norm_index_nonneg _ 0) in Py; [|lia].
  simpl in Px, Py. destruct N as [N|N]; apply N; congruence.
Qed.

Lemma set_wgh_off_auto_rel (geo : geometry) (p x y : Z) (src src' : plane R) :
  (forall f t, src' f t = src f t) ->
  stmt_off_auto_rel (set_wgh geo p x y src) (set_wgh geo p x y src').
Proof.
  intros Hs g g' Hg. unfold set_wgh.
  destruct (cell geo p x y) as [c|]; simpl; [|reflexivity].
  intros f p0 t x0 y0. destruct (Hg f p0 t x0 y0) as (A & B & D).
  simpl. unfold assign. split; [|split; [exact B | exact D]].
  destruct (Nat.eqb p0 (fst (fst c)) && Nat.eqb x0 (snd (fst c)) && Nat.eqb y0 (snd c))%bool;
    [apply Hs | exact A].
Qed.

Lemma set_smp_off_auto_rel (geo : geometry) (p x y : Z) (w w' : option (plane R)) :
  w_rel (fun _ => True) 1 w w' ->
  stmt_off_auto_rel (set_smp geo p x y w) (set_smp geo p x y w').
Proof.
  intros Hw g g' Hg. unfold set_smp.
  destruct w as [a|], w' as [a'|]; simpl in Hw; try contradiction; [|reflexivity].
  destruct (cell geo p x y) as [c|]; simpl; [|reflexivity].
  intros f p0 t x0 y0. destruct (Hg f p0 t x0 y0) as (A & B & D).
  simpl. unfold assign. split; [exact A|]. split; [|exact D].
  destruct (Nat.eqb p0 (fst (fst c)) && Nat.eqb x0 (snd (fst c)) && Nat.eqb y0 (snd c))%bool;
    [rewrite (Hw f t I); ring | exact B].
Qed.

Lemma unpack_from_off_auto_rel (cfg : config) (tel : telescope) (ds ds' : sidereal_stream)
    (geo : geometry) (l : list (Z * Z * Z)) :
  intracyl cfg = true ->
  (forall f i t, weight ds' f i t = weight ds f i t) ->
  forall i,
    (forall k ind, nth_error l k = Some ind ->
                   (snd (fst ind) <> 0 \/ snd ind <> 0)%Z ->
                   forall f t, vis ds' f (i + k) t = vis ds f (i + k) t) ->
    stmt_off_auto_rel (unpack_from cfg tel ds geo i l) (unpack_from cfg tel ds' geo i l).
Proof.
  intros Hi Hwt. induction l as [|ind l IH]; intros i Hv; simpl.
  - intros g g' Hg. exact Hg.
  - apply seq_stmt_off_auto_rel.
    2:{ apply IH. intros k ind' Hk Hn f t.
        replace (S i + k)%nat with (i + S k)%nat by lia. apply (Hv (S k) ind' Hk Hn). }
    intros g g' Hg. unfold unpack.
    assert (Hs : sel_rel (fun _ => True) 1 (select_w cfg tel ds i) (select_w cfg tel ds' i)).
    { unfold select_w.
      destruct (String.eqb (weighting cfg) "uniform"); [simpl; intros; ring|].
      destruct (String.eqb (weighting cfg) "natural").
      { destruct (nth_error (redundancy tel) i); simpl; [intros; ring | reflexivity]. }
      destruct (String.eqb (weighting cfg) "inverse_variance"); simpl; [|exact I].
      intros f t _. rewrite Hwt. ring. }
    destruct (select_w cfg tel ds i) as [w|e], (select_w cfg tel ds' i) as [w'|e'];
      simpl in Hs; try contradiction; [|exact Hs].
    rewrite Hi, andb_true_r.
    assert (Hsrc : (forall f t, vis ds' f i t = vis ds f i t)
                   \/ (snd (fst ind) = 0 /\ snd ind = 0)%Z).
    { destruct (Z.eq_dec (snd (fst ind)) 0) as [Ex|Nx];
        [destruct (Z.eq_dec (snd ind) 0) as [Ey|Ny]|].
      - right. split; assumption.
      - left. intros f t. specialize (Hv 0%nat ind eq_refl (or_intror Ny) f t).
        rewrite Nat.add_0_r in Hv. exact Hv.
      - left. intros f t. specialize (Hv 0%nat ind eq_refl (or_introl Nx) f t).
        rewrite Nat.add_0_r in Hv. exact Hv. }
    destruct (Z.eqb_spec (snd (fst ind)) 0) as [Ex|Nx];
      refine ((_ : stmt_off_auto_rel _ _) g g' Hg).
    + apply seq_stmt_off_auto_rel.
      { apply set_vdr_off_auto_rel. destruct Hsrc as [H|(Hx & Hy)];
          [left; exact H | right; split; [exact Hx | left; exact Hy]]. }
      apply seq_stmt_off_auto_rel.
      { apply set_vdr_off_auto_rel. destruct Hsrc as [H|(Hx & Hy)];
          [left; intros f t; rewrite H; reflexivity
          | right; split; [exact Hx | right; rewrite Hy; reflexivity]]. }
      repeat (apply seq_stmt_off_auto_rel;
              [first [apply set_wgh_off_auto_rel; intros; apply Hwt
                     | apply set_smp_off_auto_rel; exact Hs]|]).
      apply set_smp_off_auto_rel; exact Hs.
    + apply seq_stmt_off_auto_rel.
      { apply set_vdr_off_auto_rel. destruct Hsrc as [H|(Hx & _)];
          [left; exact H | contradiction]. }
      apply seq_stmt_off_auto_rel; [apply set_wgh_off_auto_rel; intros; apply Hwt|].
      apply set_smp_off_auto_rel; exact Hs.
Qed.

(** X19.  With [intracyl] set, the visibilities of the baselines with
    cylinder separation 0 and row bin 0 (the auto-correlations) do not reach
    the outputs: two inputs that differ in those visibilities only fail with
    the same exception or give the same map, dirty beam and noise. *)
Theorem auto_correlations_excluded (cfg : config) (tel : telescope)
    (ds ds' : sidereal_stream) :
  intracyl cfg = true ->
  prod ds' = prod ds ->
  (forall f i t, weight ds' f i t = weight ds f i t) ->
  (forall f, freq ds' f = freq ds f) ->
  (forall geo i ind,
     classify tel ds = Ok geo -> nth_error (feed_index geo) i = Some ind ->
     (snd (fst ind) <> 0 \/ snd ind <> 0)%Z ->
     forall f t, vis ds' f i t = vis ds f i t) ->
  match process cfg tel ds, process cfg tel ds' with
  | Ok rm, Ok rm' =>
      forall f p t,
        rm_rms rm' f p t = rm_rms rm f p t
        /\ forall m j,
             rm_map rm' f p t m j = rm_map rm f p t m j
             /\ rm_dirty_beam rm' f p t m j = rm_dirty_beam rm f p t m j
  | Raise e, Raise e' => e = e'
  | _, _ => False
  end.
Proof.
  intros Hi Hp Hwt Hf Hv. unfold process, weighted.
  rewrite (classify_prod tel ds ds' Hp).
  destruct (classify tel ds) as [geo|e] eqn:Hc; simpl; [|reflexivity].
  assert (Hrun : run_off_auto_rel (unpack_all cfg tel ds geo) (unpack_all cfg tel ds' geo)).
  { unfold unpack_all. apply (unpack_from_off_auto_rel cfg tel ds ds' geo _ Hi Hwt).
    - intros k ind Hk Hn f t. apply (Hv geo k ind eq_refl Hk Hn).
    - intros f p t x y. repeat split. }
  unfold packed.
  destruct (unpack_all cfg tel ds geo) as [g|e g], (unpack_all cfg tel ds' geo) as [g'|e' g'];
    simpl in Hrun; try contradiction; simpl; [|exact Hrun].
  set (n := normalize cfg geo (remove_auto cfg g)).
  set (n' := normalize cfg geo (remove_auto cfg g')).
  assert (Hn : forall f p t x y,
             wgh n' f p t x y = wgh n f p t x y
             /\ smp n' f p t x y = smp n f p t x y
             /\ Cscal (smp n' f p t x y) (vdr n' f p t x y)
                = Cscal (smp n f p t x y) (vdr n f p t x y)).
  { assert (Hs : forall f p t x y,
               smp (remove_auto cfg g') f p t x y = smp (remove_auto cfg g) f p t x y).
    { intros f p t x y. unfold remove_auto. rewrite Hi. cbn [smp].
      destruct (Hrun f p t x y) as (_ & -> & _). reflexivity. }
    assert (Hsn : forall f p t x y, smp n' f p t x y = smp n f p t x y).
    { intros f p t x y. unfold n, n', normalize. cbn [smp]. rewrite Hs. f_equal. f_equal.
      unfold sum_dot. apply sum_n_ext. intros b _. apply sum_n_ext. intros c _.
      rewrite Hs. reflexivity. }
    intros f p t x y. destruct (Hrun f p t x y) as (A & _ & D).
    split; [unfold n, n', normalize, remove_auto; rewrite Hi; exact A|].
    split; [apply Hsn|]. rewrite Hsn.
    destruct (Nat.eq_dec x 0) as [Ex|Nx]; [destruct (Nat.eq_dec y 0) as [Ey|Ny]|].
    - assert (Z0 : smp n f p t x y = 0).
      { subst x y. unfold n, normalize, remove_auto. rewrite Hi. cbn [smp Nat.eqb andb].
        ring. }
      rewrite Z0. unfold Cscal. f_equal; ring.
    - f_equal. unfold n, n', normalize, remove_auto. rewrite Hi. cbn [vdr].
      apply D. right. exact Ny.
    - f_equal. unfold n, n', normalize, remove_auto. rewrite Hi. cbn [vdr].
      apply D. left. exact Nx. }
  intros f p t. cbn [rm_rms rm_map rm_dirty_beam synthesize]. split; [|intros m j; split].
  - unfold rms_of, sum_dot. f_equal.
    apply sum_n_ext. intros b _. apply sum_n_ext. intros c _.
    destruct (Hn f p t c b) as (-> & -> & _). reflexivity.
  - unfold bfm_of, dot_pa. rewrite Hf. f_equal.
    apply irfft_ext. intros c. apply Csum_n_ext. intros b _.
    destruct (Hn f p t c b) as (_ & _ & ->). reflexivity.
  - unfold sb_of, dot_pa. rewrite Hf. f_equal.
    apply irfft_ext. intros c. apply Csum_n_ext. intros b _.
    destruct (Hn f p t c b) as (_ & -> & _). reflexivity.
Qed.

(** X18.  With the weighting 'natural' and one redundancy [r] for all the
    baselines, the packer ends as with the weighting 'uniform': with the same
    exception, or with the same visibilities and weights and with [r] times
    the coefficients. *)
Theorem natural_constant_redundancy (np : nat) (sp : R) (ic : bool) (tel : telescope)
    (ds : sidereal_stream) (r : Z) (geo : geometry) :
  (forall i, (i < List.length (prod ds))%nat -> nth_error (redundancy tel) i = Some r) ->
  classify tel ds = Ok geo ->
  run_rel (fun _ => True) (IZR r)
          (unpack_all (mk_config np sp "uniform" ic) tel ds geo)
          (unpack_all (mk_config np sp "natural" ic) tel ds geo).
Proof.
  intros Hred Hc.
  apply packing_sim; [reflexivity | exact Hc|].
  intros j Hj. unfold select_w. simpl. rewrite (Hred j Hj). simpl.
  intros f t _. ring.
Qed.

(* ------------------------------------------------------------------ *)
(** * The further properties on the examples *)

Lemma classify_d : classify tel_d ds_d = Ok geo_d.
Proof. vm_compute. reflexivity. Qed.

Lemma classify_index_ranges_witness :
  classify tel_a ds_a = Ok geo_a
  /\ In (0, 1, 2)%Z (feed_index geo_a)
  /\ (0 <= 1 < ncyl geo_a)%Z /\ (- nfeed geo_a <= 2 <= nfeed geo_a)%Z.
Proof.
  assert (H : In (0, 1, 2)%Z (feed_index geo_a)) by (simpl; tauto).
  split; [exact classify_a|]. split; [exact H|].
  destruct (classify_index_ranges tel_a ds_a geo_a classify_a 0 1 2 H) as (_ & Hx & Hy & _).
  split; [exact Hx | exact Hy].
Defined.

Lemma classify_row_bins_witness :
  classify tel_d ds_d = Ok geo_d
  /\ (0 < min_ysep geo_d)%Q
  /\ exists tri,
       mapM (baseline_geometry tel_d) (prod ds_d) = Ok tri
       /\ Forall2 (fun t ind =>
                     fst ind = fst t
                     /\ (snd ind = 0%Z <-> (snd t == 0)%Q)
                     /\ ((0 < snd t)%Q -> (1 <= snd ind)%Z)
                     /\ ((snd t < 0)%Q -> (snd ind <= -1)%Z))
                  tri (feed_index geo_d).
Proof.
  split; [exact classify_d|].
  exact (classify_row_bins tel_d ds_d geo_d classify_d).
Defined.

Lemma baseline_geometry_swap_witness :
  baseline_geometry tel_b (1, 2)%nat = Ok (2%Z, 0%Z, (0 - 1)%Q)
  /\ exists p' ys',
       baseline_geometry tel_b (2, 1)%nat = Ok (p', 0%Z, ys')
       /\ p' = 1%Z /\ (ys' == - (0 - 1))%Q.
Proof.
  split; [reflexivity|].
  destruct (baseline_geometry_swap tel_b 1 2 2 0 (0 - 1)%Q eq_refl)
    as (p' & ys' & H1 & H2 & H3 & _).
  exists p', ys'. split; [exact H1|]. split; [exact H2 | exact H3].
Defined.

Lemma process_succeeds_witness :
  classify tel_a ds_a = Ok geo_a
  /\ (2 <= nfeed geo_a)%Z
  /\ weighting_ready (cfg_a "inverse_variance") tel_a ds_a
  /\ exists rm, process (cfg_a "inverse_variance") tel_a ds_a = Ok rm.
Proof.
  assert (H2 : (2 <= nfeed geo_a)%Z) by (simpl; lia).
  assert (H3 : weighting_ready (cfg_a "inverse_variance") tel_a ds_a)
    by (right; left; reflexivity).
  split; [exact classify_a|]. split; [exact H2|]. split; [exact H3|].
  exact (process_succeeds (cfg_a "inverse_variance") tel_a ds_a geo_a classify_a H2 H3).
Defined.

Lemma process_two_rows_fails_witness :
  classify tel_d ds_d = Ok geo_d
  /\ nfeed geo_d = 1%Z
  /\ In (0, 1, 1)%Z (feed_index geo_d)
  /\ nvis_1d geo_d = 1%Z
  /\ (process (cfg_a "uniform") tel_d ds_d = Raise "IndexError"%string
      \/ (~ recognised (cfg_a "uniform")
          /\ process (cfg_a "uniform") tel_d ds_d = Raise "UnboundLocalError"%string)).
Proof.
  assert (H3 : In (0, 1, 1)%Z (feed_index geo_d)) by (simpl; tauto).
  split; [exact classify_d|]. split; [reflexivity|]. split; [exact H3|].
  exact (process_two_rows_fails (cfg_a "uniform") tel_d ds_d geo_d 0 1 classify_d eq_refl H3).
Defined.

Lemma extreme_bins_alias_witness :
  classify tel_a ds_a = Ok geo_a
  /\ (2 <= nfeed geo_a)%Z
  /\ cell geo_a 0 1 2 = cell geo_a 0 1 (-1).
Proof.
  assert (H2 : (2 <= nfeed geo_a)%Z) by (simpl; lia).
  split; [exact classify_a|]. split; [exact H2|].
  exact (proj1 (extreme_bins_alias tel_a ds_a geo_a classify_a H2) 0%Z 1%Z).
Defined.

Lemma vis_pos_matches_bin_witness :
  classify tel_a ds_a = Ok geo_a
  /\ (- nfeed geo_a <= 2 <= nfeed geo_a)%Z
  /\ norm_index (nvis_1d geo_a) 2 = Some 2%nat
  /\ vis_pos_1d geo_a 2 = IZR (-1) * vis_pos_scale geo_a.
Proof.
  assert (H2 : (- nfeed geo_a <= 2 <= nfeed geo_a)%Z) by (simpl; lia).
  split; [exact classify_a|]. split; [exact H2|]. split; [reflexivity|].
  exact (vis_pos_matches_bin tel_a ds_a geo_a 2 2 classify_a H2 eq_refl).
Defined.

Lemma process_unrecognised_weighting_witness :
  ~ recognised (cfg_a "bogus")
  /\ (process (cfg_a "bogus") tel_a ds_a = Raise "IndexError"%string
      \/ process (cfg_a "bogus") tel_a ds_a = Raise "UnboundLocalError"%string).
Proof.
  assert (H : ~ recognised (cfg_a "bogus")) by (intros [H|[H|H]]; discriminate H).
  split; [exact H|].
  exact (process_unrecognised_weighting (cfg_a "bogus") tel_a ds_a H).
Defined.

Lemma blank_pixel_witness :
  exists g0,
    classify tel_a ds_a = Ok geo_a
    /\ packed (cfg_a "uniform") tel_a ds_a geo_a = Ok g0
    /\ coeff_mass (cfg_a "uniform") geo_a (smp (remove_auto (cfg_a "uniform") g0))
                  0%nat 1%nat 0%nat = 0
    /\ exists rm,
         process (cfg_a "uniform") tel_a ds_a = Ok rm
         /\ rm_rms rm 0%nat 1%nat 0%nat = 0.
Proof.
  assert (Hg : exists g0, packed (cfg_a "uniform") tel_a ds_a geo_a = Ok g0
                          /\ coeff_mass (cfg_a "uniform") geo_a
                               (smp (remove_auto (cfg_a "uniform") g0)) 0%nat 1%nat 0%nat = 0).
  { eexists. split; [vm_compute; reflexivity|].
    cbv -[Rplus Rmult Rminus IZR]. lra. }
  destruct Hg as (g0 & Hg & Hz). exists g0.
  split; [exact classify_a|]. split; [exact Hg|]. split; [exact Hz|].
  destruct (blank_pixel (cfg_a "uniform") tel_a ds_a geo_a g0 0 1 0 classify_a Hg Hz)
    as (rm & Hrm & Hr & _).
  exists rm. split; [exact Hrm | exact Hr].
Defined.

Lemma packed_hermitian_witness :
  exists g,
    intracyl (cfg_b true) = true
    /\ classify tel_b ds_b = Ok geo_b
    /\ unpack_all (cfg_b true) tel_b ds_b geo_b = Done g
    /\ hermitian (Z.to_nat (nvis_1d geo_b)) g.
Proof.
  assert (Hg : exists g, unpack_all (cfg_b true) tel_b ds_b geo_b = Done g)
    by (eexists; vm_compute; reflexivity).
  destruct Hg as (g & Hg). exists g.
  split; [reflexivity|]. split; [exact classify_b|]. split; [exact Hg|].
  exact (proj1 (packed_hermitian (cfg_b true) tel_b ds_b geo_b g eq_refl classify_b Hg)).
Defined.

Lemma el_axis_witness :
  (2 <= npix (cfg_a "uniform"))%nat
  /\ el (cfg_a "uniform") 0 = - span (cfg_a "uniform")
  /\ el (cfg_a "uniform") (npix (cfg_a "uniform") - 1) = span (cfg_a "uniform")
  /\ Rabs (el (cfg_a "uniform") 1) <= Rabs (span (cfg_a "uniform")).
Proof.
  assert (H : (2 <= npix (cfg_a "uniform"))%nat) by (simpl; lia).
  split; [exact H|].
  destruct (el_axis (cfg_a "uniform") H) as (H1 & H2 & H3 & _).
  split; [exact H1|]. split; [exact H2|].
  apply (H3 1%nat). simpl. lia.
Defined.

Lemma feeds_selection_classifier_witness :
  pathfinder_feeds (feeds tel_b) (Some [3; -2]%Z) = Ok [feed_E 0 2; feed_E 0 1]
  /\ baseline_geometry (mk_telescope [feed_E 0 2; feed_E 0 1] []) (0, 1)%nat
     = baseline_geometry (mk_telescope (feeds tel_b) []) (3, 2)%nat.
Proof.
  assert (H : pathfinder_feeds (feeds tel_b) (Some [3; -2]%Z) = Ok [feed_E 0 2; feed_E 0 1])
    by reflexivity.
  split; [exact H|].
  exact (feeds_selection_classifier (feeds tel_b) _ [3; -2]%Z [] 0 1 3 (-2) 3 2
           H eq_refl eq_refl eq_refl eq_refl).
Defined.

Lemma channel_frequencies_values_witness :
  (0 <= 0 < 1024)%Z /\ (1024 <= 1024)%Z /\ (0 < 4)%Z /\ ((1024 - 0) mod 4 = 0)%Z
  /\ exists fr,
       channel_frequencies 0 1024 4 = Ok fr
       /\ List.length fr = 256%nat.
Proof.
  assert (H1 : (0 <= 0 < 1024)%Z) by lia.
  assert (H2 : (1024 <= 1024)%Z) by lia.
  assert (H3 : (0 < 4)%Z) by lia.
  assert (H4 : ((1024 - 0) mod 4 = 0)%Z) by reflexivity.
  split; [exact H1|]. split; [exact H2|]. split; [exact H3|]. split; [exact H4|].
  destruct (channel_frequencies_values 0 1024 4 H1 H2 H3 H4) as (fr & Hf & Hl & _).
  exists fr. split; [exact Hf | exact Hl].
Defined.

Lemma channel_frequencies_succeeds_witness :
  (slice_bound 1024 (-64) < slice_bound 1024 2000)%Z
  /\ (0 < 16)%Z
  /\ ((slice_bound 1024 2000 - slice_bound 1024 (-64)) mod 16 = 0)%Z
  /\ (exists fr, channel_frequencies (-64) 2000 16 = Ok fr)
  /\ exists x, channel_frequencies (-64) 2000 (-16) = Raise x.
Proof.
  assert (H1 : (slice_bound 1024 (-64) < slice_bound 1024 2000)%Z) by (vm_compute; reflexivity).
  assert (H2 : (0 < 16)%Z) by lia.
  assert (H3 : ((slice_bound 1024 2000 - slice_bound 1024 (-64)) mod 16 = 0)%Z)
    by (vm_compute; reflexivity).
  split; [exact H1|]. split; [exact H2|]. split; [exact H3|]. split.
  - exact (proj2 (proj2 (channel_frequencies_succeeds (-64) 2000 16) H1) (conj H2 H3)).
  - apply (proj1 (channel_frequencies_succeeds (-64) 2000 (-16))). lia.
Defined.

(** The classifier succeeds, the first two turns of the loop find their
    redundancy, and the third finds none. *)
Lemma natural_missing_redundancy_witness :
  weighting (cfg_a "natural") = "natural"%string
  /\ (List.length (redundancy tel_short) < List.length (prod ds_a))%nat
  /\ classify tel_short ds_a = Ok geo_a
  /\ (exists w, select_w (cfg_a "natural") tel_short ds_a 1 = Ok (Some w))
  /\ select_w (cfg_a "natural") tel_short ds_a 2 = Raise "IndexError"%string
  /\ process (cfg_a "natural") tel_short ds_a = Raise "IndexError"%string.
Proof.
  assert (H : (List.length (redundancy tel_short) < List.length (prod ds_a))%nat)
    by (simpl; lia).
  split; [reflexivity|]. split; [exact H|].
  split; [vm_compute; reflexivity|].
  split; [eexists; reflexivity|].
  split; [reflexivity|].
  exact (natural_missing_redundancy (cfg_a "natural") tel_short ds_a eq_refl H).
Defined.

Lemma dirty_beam_ignores_visibilities_witness :
  prod ds_a_alt = prod ds_a
  /\ (forall f i t, weight ds_a_alt f i t = weight ds_a f i t)
  /\ (forall f, freq ds_a_alt f = freq ds_a f)
  /\ match process (cfg_a "natural") tel_a ds_a, process (cfg_a "natural") tel_a ds_a_alt with
     | Ok rm, Ok rm' =>
         forall f p t,
           rm_rms rm' f p t = rm_rms rm f p t
           /\ forall m j, rm_dirty_beam rm' f p t m j = rm_dirty_beam rm f p t m j
     | Raise e, Raise e' => e = e'
     | _, _ => False
     end.
Proof.
  split; [reflexivity|]. split; [reflexivity|]. split; [reflexivity|].
  exact (dirty_beam_ignores_visibilities (cfg_a "natural") tel_a ds_a ds_a_alt eq_refl
           (fun _ _ _ => eq_refl) (fun _ => eq_refl)).
Defined.

Lemma natural_constant_redundancy_witness :
  (forall i, (i < List.length (prod ds_a))%nat ->
             nth_error (redundancy (mk_telescope (feeds tel_a) [2; 2; 2]%Z)) i = Some 2%Z)
  /\ classify (mk_telescope (feeds tel_a) [2; 2; 2]%Z) ds_a = Ok geo_a
  /\ run_rel (fun _ => True) (IZR 2)
             (unpack_all (cfg_a "uniform") (mk_telescope (feeds tel_a) [2; 2; 2]%Z) ds_a geo_a)
             (unpack_all (cfg_a "natural") (mk_telescope (feeds tel_a) [2; 2; 2]%Z) ds_a geo_a).
Proof.
  assert (H2 : forall i, (i < List.length (prod ds_a))%nat ->
                 nth_error (redundancy (mk_telescope (feeds tel_a) [2; 2; 2]%Z)) i = Some 2%Z).
  { intros i Hi. simpl in Hi. destruct i as [|[|[|i]]]; try reflexivity. lia. }
  assert (H3 : classify (mk_telescope (feeds tel_a) [2; 2; 2]%Z) ds_a = Ok geo_a)
    by (vm_compute; reflexivity).
  split; [exact H2|]. split; [exact H3|].
  exact (natural_constant_redundancy 4 1 true (mk_telescope (feeds tel_a) [2; 2; 2]%Z)
           ds_a 2 geo_a H2 H3).
Defined.

Lemma auto_correlations_excluded_witness :
  intracyl (cfg_b true) = true
  /\ prod ds_b_alt = prod ds_b
  /\ vis ds_b_alt 0%nat 0%nat 0%nat <> vis ds_b 0%nat 0%nat 0%nat
  /\ match process (cfg_b true) tel_b ds_b, process (cfg_b true) tel_b ds_b_alt with
     | Ok rm, Ok rm' =>
         forall f p t,
           rm_rms rm' f p t = rm_rms rm f p t
           /\ forall m j,
                rm_map rm' f p t m j = rm_map rm f p t m j
                /\ rm_dirty_beam rm' f p t m j = rm_dirty_beam rm f p t m j
     | Raise e, Raise e' => e = e'
     | _, _ => False
     end.
Proof.
  split; [reflexivity|]. split; [reflexivity|].
  split; [simpl; intros H; injection H as H _; lra|].
  apply (auto_correlations_excluded (cfg_b true) tel_b ds_b ds_b_alt eq_refl eq_refl
           (fun _ _ _ => eq_refl) (fun _ => eq_refl)).
  intros geo i ind Hc Hn Hxy f t.
  rewrite classify_b in Hc. injection Hc as <-.
  destruct i as [|i]; [|reflexivity].
  simpl in Hn. injection Hn as <-. simpl in Hxy. destruct Hxy as [H|H]; contradiction H; reflexivity.
Defined.
